(** * EasyDl: chunk planning, resume, retry and lifecycle of the downloader

    A shallow embedding of [src/lib/index.js] (the [EasyDl] class together
    with the [Request] helpers [followRedirect] and [requestHeader] that are
    bundled in the same file), of [src/lib/fs.js] and of the chunk cleaner
    [clean] of [src/lib/utils.js].

    Conventions of the embedding.
    - Byte counts, offsets, times (ms) and status codes are JavaScript
      numbers holding integers; they are modelled as [Z].  All values are
      assumed to stay below 2^53, where double arithmetic on integers is
      exact and [Math.floor (a / b)] is the floor of the exact quotient.
    - A JavaScript quotient may be a fraction, [Infinity] or [NaN]; such
      values live in [Js.num].
    - Asynchronous methods are cut at their [await]s: each synchronous
      segment is a function on the [world], and what the environment
      delivers at an [await] (a response, a timer, a file-system
      completion, a call of the host) is an [input]. *)

From Stdlib Require Import ZArith QArith Qround Qminmax Lia Ascii.
From stdpp Require Import base option list gmap strings pretty.
From coqutil Require Import Datatypes.RecordSettersUsingExistingGetters.

Local Open Scope Z_scope.

(** ** JavaScript numbers *)

Module Js.

(** The values a JavaScript number takes in this program: an exact
    rational (an integer, or the quotient of two integers), the two
    infinities and [NaN].  Negative zero does not occur: every zero is
    the result of an integer operation on non-negative sizes. *)
Inductive num : Type :=
| Fin (q : Q)
| PInf
| NInf
| NaN.

Definition of_Z (z : Z) : num := Fin (inject_Z z).

(** [a / b] on integer operands. *)
Definition div (a b : Z) : num :=
  match b with
  | Z0 => if 0 <? a then PInf else if a <? 0 then NInf else NaN
  | Zpos p => Fin (a # p)
  | Zneg p => Fin (- a # p)
  end.

(** [Math.floor] and [Math.ceil]. *)
Definition floor (x : num) : num :=
  match x with
  | Fin q => Fin (inject_Z (Qfloor q))
  | other => other
  end.

Definition ceil (x : num) : num :=
  match x with
  | Fin q => Fin (inject_Z (Qceiling q))
  | other => other
  end.

(** [x < y]; every comparison with [NaN] is false. *)
Definition ltb (x y : num) : bool :=
  match x, y with
  | NaN, _ | _, NaN => false
  | Fin a, Fin b => match Qcompare a b with Lt => true | _ => false end
  | NInf, NInf => false
  | NInf, _ => true
  | _, NInf => false
  | PInf, _ => false
  | Fin _, PInf => true
  end.

(** [z * x] for an integer [z <> 0]. *)
Definition scale (z : Z) (x : num) : num :=
  match x with
  | Fin q => Fin (inject_Z z * q)
  | PInf => if 0 <? z then PInf else NInf
  | NInf => if 0 <? z then NInf else PInf
  | NaN => NaN
  end.


(** The length accepted by the constructor [Array(n)]: an integer in
    [0, 2^32); any other number makes it throw a [RangeError]. *)
Definition array_length (n : num) : option nat :=
  match n with
  | Fin q =>
      if Qeq_bool q (inject_Z (Qfloor q))
         && (0 <=? Qfloor q) && (Qfloor q <? 2 ^ 32)
      then Some (Z.to_nat (Qfloor q))
      else None
  | _ => None
  end.

End Js.

(** ** Errors and results *)

(** The [Error] values the program creates, by the message template that
    builds them; the fields are the values interpolated in the message. *)
Inductive error : Type :=
| RangeError_invalid_array_length
| Invalid_destination (dest : string)
| Got_HTTP_response (statusCode : Z)
| Infinite_redirect (address : string)
| No_header_data
| Location_missing (statusCode : Z)
| Chunk_oversize (expected got : Z)
| Chunk_status (statusCode : Z) (id : nat)
| Chunk_content_length (expected got : Z) (id : nat)
| Chunk_not_206 (statusCode : Z) (id : nat)
| Chunk_failed (id : nat) (range : option (Z * Z))
| External (what : string).

Inductive outcome (A : Type) : Type :=
| Ok (a : A)
| Throw (e : error).
Arguments Ok {A} a.
Arguments Throw {A} e.

(** ** The chunk planner ([_calcRanges]) *)

Module Planner.

(** The [chunkSize] option: a number of bytes or a function of the size. *)
Inductive chunkSizePolicy : Type :=
| Fixed (bytes : Z)
| Computed (f : Z -> Q).

(** The default of the constructor: [Math.min(size / 10, 10 * 1024 * 1024)]. *)
Definition default_chunkSize : chunkSizePolicy :=
  Computed (fun size => Qmin (size # 10) (inject_Z (10 * 1024 * 1024))).

Definition resolve (policy : chunkSizePolicy) (size : Z) : Z :=
  match policy with
  | Fixed bytes => bytes
  | Computed f => Qfloor (f size)
  end.

(** The chunk size and the extra bytes after the guard
    [if (size / chunkSize < connections)].  The guard only holds for a
    positive number of connections (sizes and chunk sizes are not
    negative), for which [Math.floor(size / connections)] is the integer
    quotient. *)
Definition shrink (size connections chunkSize : Z) : Z * Z :=
  if Js.ltb (Js.div size chunkSize) (Js.of_Z connections)
  then (size / connections, Z.rem size connections)
  else (chunkSize, 0).

(** The number [n] handed to [Array(n)]. *)
Definition chunk_count (size chunkSize extraSize : Z) : Js.num :=
  if extraSize =? 0
  then Js.ceil (Js.div size chunkSize)
  else Js.floor (Js.div size chunkSize).

(** First loop: the length of chunk [i]. *)
Definition chunk_at (size chunkSize extraSize : Z) (n i : nat) : Z :=
  let base :=
    if (i <? n - 1)%nat then chunkSize
    else size - (Z.of_nat n - 1) * chunkSize - extraSize in
  if Z.of_nat i <? extraSize then base + 1 else base.

(** The tail rebalance. *)
Definition rebalance (chunkSize : Z) (n : nat) (chunks : list Z) : list Z :=
  let last := default 0 (chunks !! (n - 1)%nat) in
  if (1 <? n)%nat && Js.ltb (Js.of_Z last) (Js.div chunkSize 2)
  then
    let diff := Qfloor ((chunkSize # 2) - inject_Z last) in
    let chunks := <[(n - 1)%nat := last + diff]> chunks in
    <[(n - 2)%nat := default 0 (chunks !! (n - 2)%nat) - diff]> chunks
  else chunks.

(** Second loop: cumulative offsets to inclusive ranges. *)
Fixpoint to_ranges (sum : Z) (chunks : list Z) : list (Z * Z) :=
  match chunks with
  | [] => []
  | chunk :: rest => (sum, sum + chunk - 1) :: to_ranges (sum + chunk) rest
  end.

(** [_calcRanges], as a function of [this.size], [this._opts.connections]
    and [this._opts.chunkSize]; the result is what it pushes on
    [this._ranges]. *)
Definition calcRanges (size connections : Z) (policy : chunkSizePolicy)
  : outcome (list (Z * Z)) :=
  let '(chunkSize, extraSize) := shrink size connections (resolve policy size) in
  match Js.array_length (chunk_count size chunkSize extraSize) with
  | None => Throw RangeError_invalid_array_length
  | Some n =>
      let chunks := map (chunk_at size chunkSize extraSize n) (seq 0 n) in
      Ok (to_ranges 0 (rebalance chunkSize n chunks))
  end.

(** *** What a plan must satisfy *)

(** The bytes of a list of chunk lengths. *)
Definition total (chunks : list Z) : Z := foldr Z.add 0 chunks.

Definition covers (r : Z * Z) (x : Z) : Prop := fst r <= x <= snd r.

(** Coverage, pairwise disjointness and ordering of a plan. *)
Definition tiles (size : Z) (ranges : list (Z * Z)) : Prop :=
  (∀ x, (∃ r, r ∈ ranges ∧ covers r x) ↔ 0 <= x < size) ∧
  (∀ i j ri rj x, ranges !! i = Some ri → ranges !! j = Some rj →
                  i ≠ j → ¬ (covers ri x ∧ covers rj x)) ∧
  (∀ i ri rj, ranges !! i = Some ri → ranges !! S i = Some rj →
              fst ri < fst rj ∧ snd ri + 1 = fst rj).

End Planner.

(** ** The file-system facade ([src/lib/fs.js]) *)

Module Fs.

(** What the program reads of an [fs.Stats]. *)
Record stats : Type := { isDirectory : bool; size : Z }.

Definition file (bytes : Z) : stats := {| isDirectory := false; size := bytes |}.

(** Node's [path] module, used through [join], [parse] and
    [posix.basename]; it is not part of the repository and is taken as a
    parameter of the environment. *)
Record parsed : Type := { dir : string; name : string; ext : string }.
Record path_module : Type := {
  join : string → string → string;
  parse : string → parsed;
  posix_basename : string → string
}.

(** [fileStats]: [null] when the path does not exist ([ENOENT]); other
    failures of [fs.stat] are not modelled. *)
Definition fileStats (disk : gmap string stats) (loc : string) : option stats :=
  disk !! loc.

(** [rename]: rejects when [oldPath] does not exist, replaces [newPath]
    otherwise. *)
Definition rename (oldPath newPath : string) (disk : gmap string stats)
  : outcome (gmap string stats) :=
  match disk !! oldPath with
  | Some s => Ok (<[newPath := s]> (delete oldPath disk))
  | None => Throw (External "ENOENT")
  end.

(** [validate]: the parent of [loc] exists and is a directory. *)
Definition validate (path : path_module) (disk : gmap string stats) (loc : string)
  : bool :=
  match fileStats disk (dir (parse path loc)) with
  | None => false
  | Some stat => isDirectory stat
  end.

(** [path.parse(loc).base], which Node documents as [name + ext]. *)
Definition base (p : parsed) : string := name p +:+ ext p.

(** [rm]: [fs.unlink] rejects for a path that does not exist and for a
    directory. *)
Definition rm (loc : string) (disk : gmap string stats) : outcome (gmap string stats) :=
  match disk !! loc with
  | Some s => if isDirectory s then Throw (External "EISDIR") else Ok (delete loc disk)
  | None => Throw (External "ENOENT")
  end.

(** [ls]: the names [fs.readdir] gives for a directory; [listing] holds
    them for the directories there are. *)
Definition ls (listing : gmap string (list string)) (loc : string)
  : outcome (list string) :=
  match listing !! loc with
  | Some names => Ok names
  | None => Throw (External "ENOENT")
  end.

End Fs.

(** ** The chunk cleaner ([src/lib/utils.js]) *)

Module Utils.
Import Fs.

(** *** The pattern [/(.+)\.\$\$[0-9]+(\$PART)?$/]

    File names are strings of ASCII characters.  The pattern has no
    flags: [.] is any character but a line terminator (of which LF and
    CR are ASCII), [$] is the end of the name, and a match may start at
    any index, the leftmost being taken. *)

Definition is_digit (c : ascii) : bool :=
  (48 <=? nat_of_ascii c)%nat && (nat_of_ascii c <=? 57)%nat.

Definition line_terminator (c : ascii) : bool :=
  Ascii.eqb c "010"%char || Ascii.eqb c "013"%char.

(** [[0-9]+(\$PART)?$] from the index reached; [seen] tells whether a
    digit has been consumed.  The digits are taken greedily: giving one
    back leaves a digit next, which neither [\$PART] nor the end
    accepts. *)
Fixpoint digits_then_end (seen : bool) (s : string) : bool :=
  match s with
  | EmptyString => seen
  | String c rest =>
      if is_digit c then digits_then_end true rest
      else seen && String.eqb s "$PART"
  end.

(** [\.\$\$[0-9]+(\$PART)?$] *)
Definition tail_matches (s : string) : bool :=
  match s with
  | String a (String b (String c rest)) =>
      Ascii.eqb a "." && Ascii.eqb b "$" && Ascii.eqb c "$"
      && digits_then_end false rest
  | _ => false
  end.

(** A match that starts at the head of [s]: the group [(.+)] takes as
    many characters as it can, up to the first line terminator, and
    gives them back one by one until the rest of the pattern matches.
    The result is what group 1 captures. *)
Fixpoint owner_at (s : string) : option string :=
  match s with
  | EmptyString => None
  | String c rest =>
      if line_terminator c then None
      else match owner_at rest with
           | Some p => Some (String c p)
           | None => if tail_matches rest then Some (String c EmptyString) else None
           end
  end.

(** [regex.exec(file)], as the [cap[1]] of its result: [None] is
    [null]. *)
Fixpoint regex_exec (s : string) : option string :=
  match owner_at s with
  | Some p => Some p
  | None => match s with
            | EmptyString => None
            | String _ rest => regex_exec rest
            end
  end.

(** Strings of decimal digits, and strings without line terminators. *)
Fixpoint all_digits (s : string) : bool :=
  match s with
  | EmptyString => true
  | String c rest => is_digit c && all_digits rest
  end.

Fixpoint one_line (s : string) : bool :=
  match s with
  | EmptyString => true
  | String c rest => negb (line_terminator c) && one_line rest
  end.

(** *** [clean] *)

(** What [clean] throws: its own error, [`Invalid location ${loc}.`], or
    the rejection of [ls] or [rm]. *)
Inductive clean_error : Type :=
| Invalid_location (loc : string)
| Fs_failure (e : error).

Inductive clean_result : Type :=
| Deleted (paths : list string)
| Thrown (e : clean_error).

(** [!cap || (targetFile !== null && cap[1] !== targetFile)] *)
Definition skips (targetFile cap : option string) : bool :=
  bool_decide (cap = None)
  || (bool_decide (targetFile ≠ None) && bool_decide (cap ≠ targetFile)).

(** The [for] loop over the names of the folder.  A rejection of [rm]
    ends [clean] with the files before it deleted. *)
Fixpoint clean_loop (path : path_module) (targetFile : option string)
    (targetFolder : string) (files : list string) (deleted : list string)
    (disk : gmap string stats) : clean_result * gmap string stats :=
  match files with
  | [] => (Deleted deleted, disk)
  | file :: files =>
      let cap := regex_exec file in
      if skips targetFile cap
      then clean_loop path targetFile targetFolder files deleted disk
      else
        let fullPath := join path targetFolder file in
        match rm fullPath disk with
        | Ok disk =>
            clean_loop path targetFile targetFolder files (deleted ++ [fullPath]) disk
        | Throw e => (Thrown (Fs_failure e), disk)
        end
  end.

(** [clean(loc)]: the paths deleted, or the error thrown, and the disk
    it leaves. *)
Definition clean (path : path_module) (listing : gmap string (list string))
    (loc : string) (disk : gmap string stats) : clean_result * gmap string stats :=
  let '(targetFile, targetFolder, stats) :=
    match fileStats disk loc with
    | Some stats => (None, loc, Some stats)
    | None =>
        let parsed := parse path loc in
        (Some (base parsed), dir parsed, fileStats disk (dir parsed))
    end in
  match stats with
  | Some stats =>
      if isDirectory stats
      then match ls listing targetFolder with
           | Ok files => clean_loop path targetFile targetFolder files [] disk
           | Throw e => (Thrown (Fs_failure e), disk)
           end
      else (Thrown (Invalid_location loc), disk)
  | None => (Thrown (Invalid_location loc), disk)
  end.

End Utils.

(** ** Probing and redirects ([requestHeader], [followRedirect]) *)

Module Request.

(** The response headers the program reads.  [content_length] is
    [parseInt] of a non-empty header value; [None] is an absent (or
    empty, hence falsy) header. *)
Record headers : Type := {
  content_length : option Z;
  accept_ranges : option string;
  location : option string
}.

(** What a HEAD request to an address meets: a response (with the
    [statusCode] of the Node response, 0 standing for an absent one, and
    its headers), or a transport error. *)
Inductive probe : Type :=
| Responded (statusCode : Z) (h : option headers)
| Failed (e : error).

Record response : Type := { statusCode : Z; rheaders : option headers }.

(** A host that cannot be reached fails the request. *)
Definition head (network : gmap string probe) (address : string) : probe :=
  default (Failed (External "ENOTFOUND")) (network !! address).

(** [requestHeader], with the [statusCode: res.statusCode || 500] of
    [Request.end]. *)
Definition requestHeader (network : gmap string probe) (address : string)
  : outcome response :=
  match head network address with
  | Responded code h =>
      Ok {| statusCode := if code =? 0 then 500 else code; rheaders := h |}
  | Failed e => Throw e
  end.

(** A truthy string is a present, non-empty one. *)
Definition truthy (s : option string) : option string :=
  match s with
  | Some EmptyString | None => None
  | Some s => Some s
  end.

Record redirected : Type := { address : string; final_headers : option headers }.

(** One turn of the [while (true)] of [followRedirect]. *)
Inductive turn : Type :=
| Return (r : redirected)
| Fail (e : error)
| Loop (visited : gset string) (currentAddress : string).

Definition followRedirect_body (network : gmap string probe) (address : string)
    (visited : gset string) (currentAddress : string) : turn :=
  if decide (currentAddress ∈ visited) then Fail (Infinite_redirect currentAddress)
  else
    let visited := visited ∪ {[currentAddress]} in
    match requestHeader network currentAddress with
    | Throw e => Fail e
    | Ok r =>
        let statusCode := statusCode r in
        if (statusCode =? 200) || (statusCode =? 206)
        then Return {| address := currentAddress; final_headers := rheaders r |}
        else if (300 <? statusCode) && (statusCode <? 400)
        then match rheaders r with
             | None => Fail No_header_data
             | Some h =>
                 match truthy (location h) with
                 | None => Fail (Location_missing statusCode)
                 | Some l => Loop visited l
                 end
             end
        else if bool_decide (currentAddress ≠ address)
        then Return {| address := currentAddress; final_headers := None |}
        else Fail (Got_HTTP_response statusCode)
    end.

Fixpoint followRedirect_loop (fuel : nat) (network : gmap string probe)
    (address : string) (visited : gset string) (currentAddress : string)
  : option (outcome redirected) :=
  match fuel with
  | O => None
  | S fuel =>
      match followRedirect_body network address visited currentAddress with
      | Return r => Some (Ok r)
      | Fail e => Some (Throw e)
      | Loop visited currentAddress =>
          followRedirect_loop fuel network address visited currentAddress
      end
  end.

(** Every turn that loops has probed a fresh address of the network, so
    [size network + 1] turns are enough (lemma [followRedirect_fuel]). *)
Definition followRedirect (network : gmap string probe) (address : string)
  : option (outcome redirected) :=
  followRedirect_loop (S (size network)) network address ∅ address.

(** *** Chains of redirects *)

(** [a] answers its HEAD request with a redirect to [b]: a status from
    301 to 399 and a non-empty [location]. *)
Definition redirects (network : gmap string probe) (a b : string) : Prop :=
  ∃ code h, head network a = Responded code (Some h) ∧ 300 < code < 400 ∧
            truthy (location h) = Some b.

(** From [a], the redirects lead through [hops], in order. *)
Fixpoint follows (network : gmap string probe) (a : string) (hops : list string)
  : Prop :=
  match hops with
  | [] => True
  | b :: hops => redirects network a b ∧ follows network b hops
  end.

End Request.

(** ** The download coordinator ([class EasyDl]) *)

Module EasyDl.
Import Request.

Inductive existBehavior_t : Type := new_file | overwrite | ignore.

(** [this._opts]; [httpOptions] is handed to the requests unread and is
    left out. *)
Record options : Type := {
  existBehavior : existBehavior_t;
  followRedirect : bool;
  connections : Z;
  chunkSize : Planner.chunkSizePolicy;
  maxRetry : nat;
  retryDelay : Z;
  retryBackoff : Z;
  reportInterval : Z
}.

(** The defaults of the constructor. *)
Definition default_options : options := {|
  existBehavior := new_file;
  followRedirect := true;
  connections := 5;
  chunkSize := Planner.default_chunkSize;
  maxRetry := 3;
  retryDelay := 2000;
  retryBackoff := 3000;
  reportInterval := 2500
|}.

Record progress : Type := { speed : Js.num; bytes : Z; percentage : Js.num }.

Definition progress0 : progress :=
  {| speed := Js.of_Z 0; bytes := 0; percentage := Js.of_Z 0 |}.

Record speedRef : Type := { ref_time : Z; ref_bytes : Z }.

Record metadata : Type := {
  m_size : Z;
  m_chunks : list Z;
  m_isResume : bool;
  m_progress : list Js.num;
  m_finalAddress : string;
  m_parallel : bool;
  m_resumable : bool;
  m_headers : option headers;
  m_savedFilePath : option string
}.

(** The events of the emitter.  A payload is recorded with the content
    its objects have while the listeners run: [progress] hands out
    [this.totalProgress] and [this.partsProgress] themselves, which later
    segments keep mutating. *)
Inductive event : Type :=
| ev_metadata (m : metadata)
| ev_progress (total : progress) (details : list progress)
| ev_retry (chunkId attempt : nat) (e : error)
| ev_build (percentage : Js.num)
| ev_end
| ev_error (e : error)
| ev_close.

(** What a session does to the outside, in order: events handed to the
    emitter, GET requests issued for a chunk and calls of [delay]. *)
Inductive action : Type :=
| Emit (e : event)
| Get (id : nat) (address : string) (range : option (Z * Z))
| Delay (id : nat) (ms : Z).

(** A [Request] held in [this._reqs]. *)
Record request : Type := { destroyed : bool }.

(** Where the [_download] of one chunk is suspended, with the locals of
    the running iteration of its [for] loop. *)
Inductive await_t : Type := await_close | await_rename | await_delay.

Record task : Type := {
  range : option (Z * Z);
  attempt : nat;
  rest : list nat;
  chunk_size : Z;
  chunk_error : option error;
  ready : bool;
  awaits : await_t
}.

(** Where [_buildFile] is suspended: piping or unlinking chunk [i]. *)
Inductive assembly_t : Type := piping (i : nat) | unlinking (i : nat).

(** The fields of the instance ([headers_] is its field [headers]),
    followed by the environment it runs in: the emitter's listeners, the
    disk, the network as HEAD requests see it, Node's [path], the
    suspended asynchronous calls and the trace of actions so far (latest
    first).  Listeners only observe: a listener that calls back into the
    instance is a [call_destroy] input after the segment that emitted. An
    [error] listener is attached, as Node's emitter throws without one. *)
Record world : Type := {
  _started : bool;
  _destroyed : bool;
  _opts : options;
  _url : string;
  _dest : string;
  _reqs : gmap nat request;
  _attempts : list nat;
  _ranges : list (Z * Z);
  _done : bool;
  _jobs : list nat;
  _workers : Z;
  _downloadedChunks : nat;
  _totalChunks : nat;
  _partsSpeedRef : gmap nat speedRef;
  _speedRef : speedRef;
  size : Z;
  isResume : bool;
  savedFilePath : option string;
  totalProgress : progress;
  partsProgress : list progress;
  finalAddress : string;
  parallel : bool;
  resumable : bool;
  headers_ : option headers;
  listeners_progress : nat;
  listeners_metadata : nat;
  disk : gmap string Fs.stats;
  network : gmap string probe;
  path : Fs.path_module;
  tasks : gmap nat task;
  assembly : option assembly_t;
  trace : list action
}.

(** [new EasyDl(url, dest, options)] at time [now], with [dest] already
    resolved to an absolute path. *)
Definition constructor (url dest : string) (opts : options) (now : Z)
    (progress_listeners metadata_listeners : nat)
    (disk : gmap string Fs.stats) (network : gmap string probe)
    (path : Fs.path_module) : world := {|
  _started := false;
  _destroyed := false;
  _opts := opts;
  _url := url;
  _dest := dest;
  _reqs := ∅;
  _attempts := seq 1 (maxRetry opts);
  _ranges := [];
  _done := false;
  _jobs := [];
  _workers := 0;
  _downloadedChunks := 0;
  _totalChunks := 0;
  _partsSpeedRef := ∅;
  _speedRef := {| ref_time := now; ref_bytes := 0 |};
  size := 0;
  isResume := false;
  savedFilePath := Some dest;
  totalProgress := progress0;
  partsProgress := [];
  finalAddress := url;
  parallel := true;
  resumable := true;
  headers_ := None;
  listeners_progress := progress_listeners;
  listeners_metadata := metadata_listeners;
  disk := disk;
  network := network;
  path := path;
  tasks := ∅;
  assembly := None;
  trace := []
|}.

Definition emit (e : event) (w : world) : world :=
  w <| trace ::= cons (Emit e) |>.

Definition events (w : world) : list event :=
  omap (λ a, match a with Emit e => Some e | _ => None end) (rev (trace w)).

(** The template literals [`${this.savedFilePath}.$$${id}`] and
    [`${this.savedFilePath}.$$${id}$PART`]. *)
Definition chunkFile (w : world) (id : nat) : string :=
  default "null" (savedFilePath w) +:+ ".$$" +:+ pretty id.

Definition partFile (w : world) (id : nat) : string :=
  chunkFile w id +:+ "$PART".

(** *** [destroy] *)

Definition destroy (w : world) : world :=
  if _destroyed w then w
  else
    emit ev_close
      (w <| _destroyed := true |>
         <| _reqs ::= fmap (λ _, {| destroyed := true |}) |>).

(** *** [_report]

    [t0] and [now] are the two readings of [Date.now()], in order. *)

Definition _report (id : nat) (force : bool) (t0 now : Z) (w : world) : world :=
  let w :=
    match _partsSpeedRef w !! id with
    | Some _ => w
    | None =>
        w <| _partsSpeedRef ::= <[id := {| ref_time := t0; ref_bytes := 0 |}]> |>
    end in
  let interval := reportInterval (_opts w) in
  let ref := default {| ref_time := t0; ref_bytes := 0 |} (_partsSpeedRef w !! id) in
  let part := default progress0 (partsProgress w !! id) in
  let w :=
    if force || (interval <? now - ref_time ref)
    then
      w <| partsProgress ::=
             <[id := part <| speed :=
                               Js.div (1000 * (bytes part - ref_bytes ref))
                                      (now - ref_time ref) |>]> |>
        <| _partsSpeedRef ::=
             <[id := {| ref_time := now; ref_bytes := bytes part |}]> |>
    else w in
  let ref := _speedRef w in
  let total := totalProgress w in
  if force || (interval <? now - ref_time ref)
  then
    let w :=
      w <| totalProgress :=
             total <| speed :=
                        Js.div (1000 * (bytes total - ref_bytes ref))
                               (now - ref_time ref) |> |>
        <| _speedRef := {| ref_time := now; ref_bytes := bytes total |} |> in
    if (0 <? listeners_progress w)%nat
    then emit (ev_progress (totalProgress w) (partsProgress w)) w
    else w
  else w.

(** *** [_buildFile] *)

(** After the second loop: [dest.close()], [_done], [end], [destroy]. *)
Definition finish_build (w : world) : world :=
  destroy (emit ev_end (w <| _done := true |> <| assembly := None |>)).

(** The head of the second loop, at index [i]. *)
Definition next_unlink (i : nat) (w : world) : world :=
  if (i <? _totalChunks w)%nat
  then w <| assembly := Some (unlinking i) |>
  else finish_build w.

(** The head of the first loop, at index [i]. *)
Definition next_pipe (i : nat) (w : world) : world :=
  if (i <? _totalChunks w)%nat
  then w <| assembly := Some (piping i) |>
  else next_unlink 0 w.

Definition _buildFile (w : world) : world :=
  if _destroyed w then w
  else
    let w := emit (ev_build (Js.of_Z 0)) w in
    let dest := default "null" (savedFilePath w) in
    next_pipe 0 (w <| disk ::= <[dest := Fs.file 0]> |>).

(** The promise around [source.pipe(dest)] settles. *)
Definition on_piped (failure : option error) (w : world) : world :=
  match assembly w with
  | Some (piping i) =>
      let dest := default "null" (savedFilePath w) in
      match failure, disk w !! chunkFile w i with
      | None, Some source =>
          let written := default (Fs.file 0) (disk w !! dest) in
          let w :=
            w <| disk ::= <[dest := Fs.file (Fs.size written + Fs.size source)]> |> in
          let w :=
            emit (ev_build (Js.scale 100 (Js.div (Z.of_nat i)
                                                 (Z.of_nat (_totalChunks w))))) w in
          next_pipe (S i) w
      | Some e, _ => destroy (emit (ev_error e) (w <| assembly := None |>))
      | None, None =>
          destroy (emit (ev_error (External "ENOENT")) (w <| assembly := None |>))
      end
  | _ => w
  end.

(** The callback of [fs.unlink] is called; its error is not looked at. *)
Definition on_unlinked (w : world) : world :=
  match assembly w with
  | Some (unlinking i) =>
      next_unlink (S i) (w <| disk ::= delete (chunkFile w i) |>)
  | _ => w
  end.

(** *** [_download] *)

(** After the [for] loop: every attempt has failed. *)
Definition exhausted (id : nat) (range : option (Z * Z)) (w : world) : world :=
  destroy (emit (ev_error (Chunk_failed id range)) (w <| tasks ::= delete id |>)).

(** [(range && range[1] - range[0] + 1) || 0] *)
Definition range_length (range : option (Z * Z)) : Z :=
  match range with Some (lo, hi) => hi - lo + 1 | None => 0 end.

(** One iteration of the [for] loop, up to [await ... .wait()]. *)
Definition begin_attempt (id : nat) (range : option (Z * Z)) (attempt : nat)
    (rest : list nat) (w : world) : world :=
  let size := range_length range in
  let get := Get id (finalAddress w) range in
  let fileName := partFile w id in
  w <| _reqs ::= <[id := {| destroyed := false |}]> |>
    <| disk ::= <[fileName := Fs.file 0]> |>
    <| trace ::= cons get |>
    <| tasks ::= <[id := {| range := range; attempt := attempt; rest := rest;
                            chunk_size := size; chunk_error := None;
                            ready := false; awaits := await_close |}]> |>.

Definition next_attempt (id : nat) (range : option (Z * Z)) (attempts : list nat)
    (w : world) : world :=
  match attempts with
  | attempt :: rest => begin_attempt id range attempt rest w
  | [] => exhausted id range w
  end.

Definition _download (id : nat) (range : option (Z * Z)) (w : world) : world :=
  next_attempt id range (_attempts w) w.

(** *** [_processChunks] and [_onChunkCompleted]

    Every turn of the [while] loop pops a job, so [length _jobs] turns
    run it to its end. *)

Fixpoint _processChunks_loop (fuel : nat) (w : world) : world :=
  match fuel with
  | O => w
  | S fuel =>
      match last (_jobs w) with
      | Some id =>
          if negb (_destroyed w) && (_workers w <? connections (_opts w))
          then
            let w := w <| _jobs ::= (λ jobs, take (length jobs - 1) jobs) |> in
            let w := _download id (_ranges w !! id) w in
            _processChunks_loop fuel (w <| _workers ::= Z.succ |>)
          else w
      | None => w
      end
  end.

Definition _processChunks (w : world) : world :=
  _processChunks_loop (length (_jobs w)) w.

Definition _onChunkCompleted (id : nat) (t0 now : Z) (w : world) : world :=
  match _reqs w !! id with
  | None => w
  | Some _ =>
      let w := w <| _reqs ::= delete id |> in
      let w := _report id true t0 now w in
      let part := default progress0 (partsProgress w !! id) in
      let w :=
        w <| partsProgress ::= <[id := part <| speed := Js.of_Z 0 |>]> |>
          <| _workers ::= Z.pred |>
          <| _downloadedChunks ::= S |> in
      if (_downloadedChunks w =? _totalChunks w)%nat
      then _buildFile w
      else _processChunks w
  end.

(** *** The handlers [_download] attaches to a request

    A request only speaks while it is alive, emits [ready] once, and
    [close] (wired to the response) only after [ready]. *)

Definition listening (id : nat) (w : world) : option task :=
  match tasks w !! id, _reqs w !! id with
  | Some t, Some req =>
      match awaits t with
      | await_close => if destroyed req then None else Some t
      | _ => None
      end
  | _, _ => None
  end.

(** [error = new Error(...); this._reqs[id].destroy(); return;] *)
Definition reject_response (id : nat) (t : task) (e : error) (w : world) : world :=
  w <| tasks ::= <[id := t <| chunk_error := Some e |>]> |>
    <| _reqs ::= <[id := {| destroyed := true |}]> |>.

(** The three checks of the [ready] handler: the error it assigns to the
    attempt, if any. *)
Definition response_error (range : option (Z * Z)) (size : Z) (id : nat)
    (statusCode : Z) (h : headers) : option error :=
  let contentLength := default 0 (content_length h) in
  if negb (statusCode =? 206) && negb (statusCode =? 200)
  then Some (Chunk_status statusCode id)
  else if negb (size =? 0) && negb (contentLength =? 0)
          && negb (size =? contentLength)
  then Some (Chunk_content_length size contentLength id)
  else if bool_decide (is_Some range) && negb (statusCode =? 206)
  then Some (Chunk_not_206 statusCode id)
  else None.

Definition on_ready (id : nat) (statusCode : Z) (h : headers) (w : world) : world :=
  match listening id w with
  | Some t =>
      if ready t then w
      else
        let t := t <| ready := true |> in
        let size := chunk_size t in
        match response_error (range t) size id statusCode h with
        | Some error => reject_response id t error w
        | None =>
            let t :=
              match content_length h with
              | Some l => if size =? 0 then t <| chunk_size := l |> else t
              | None => t
              end in
            let w :=
              match content_length h with
              | Some l =>
                  if (EasyDl.size w =? 0) && (id =? 0)%nat
                  then w <| EasyDl.size := l |>
                  else w
              | None => w
              end in
            w <| tasks ::= <[id := t]> |>
        end
  | None => w
  end.

(** A body chunk of [length] bytes: [res.pipe(dest)] writes it to the
    [$PART] file and the [data] handler counts it. *)
Definition on_data (id : nat) (length : Z) (t0 now : Z) (w : world) : world :=
  match listening id w with
  | Some t =>
      let fileName := partFile w id in
      let written := default (Fs.file 0) (disk w !! fileName) in
      let w := w <| disk ::= <[fileName := Fs.file (Fs.size written + length)]> |> in
      let part := default progress0 (partsProgress w !! id) in
      let part := part <| bytes ::= Z.add length |> in
      let part :=
        part <| percentage :=
                  if chunk_size t =? 0 then Js.of_Z 0
                  else Js.div (100 * bytes part) (chunk_size t) |> in
      let w := w <| partsProgress ::= <[id := part]> |> in
      let total := (totalProgress w) <| bytes ::= Z.add length |> in
      let total :=
        total <| percentage :=
                   if EasyDl.size w =? 0 then Js.of_Z 0
                   else Js.div (100 * bytes total) (EasyDl.size w) |> in
      _report id false t0 now (w <| totalProgress := total |>)
  | None => w
  end.

(** The [error] handlers of the request and of the write stream. *)
Definition on_error (e : error) (w : world) : world :=
  if _destroyed w then w else emit (ev_error e) w.

(** Modelled from the spec: [delay] of [./helpers] is not among the
    sources.  The worker "sleeps [retryDelay + retryBackoff * (attempt-1)]":
    the call is recorded with its milliseconds, and the promise it returns
    resolves when the environment delivers [delay_elapsed]. *)
Definition delay (id : nat) (ms : Z) (w : world) : world :=
  w <| trace ::= cons (Delay id ms) |>.

(** [wait()] resolves: the rest of the iteration, up to the next [await]. *)
Definition on_close (id : nat) (w : world) : world :=
  match tasks w !! id with
  | Some t =>
      match awaits t with
      | await_close =>
          if negb (ready t) then w
          else if _destroyed w then w <| tasks ::= delete id |>
          else
            match chunk_error t with
            | None => w <| tasks ::= <[id := t <| awaits := await_rename |>]> |>
            | Some error =>
                let opts := _opts w in
                let ms := retryDelay opts + retryBackoff opts * (Z.of_nat (attempt t) - 1) in
                (delay id ms (emit (ev_retry id (attempt t) error) w))
                  <| tasks ::= <[id := t <| awaits := await_delay |>]> |>
            end
      | _ => w
      end
  | None => w
  end.

(** [rename] settles; [failure] is a failure of the file system other
    than a missing [$PART] file.  A rejection goes to the [catch] that
    emits [error]. *)
Definition settle_rename (id : nat) (failure : option error) (w : world) : world :=
  let renamed :=
    match failure with
    | Some e => Throw e
    | None => Fs.rename (partFile w id) (chunkFile w id) (disk w)
    end in
  match renamed with
  | Ok disk' => w <| disk := disk' |>
  | Throw e => emit (ev_error e) w
  end.

(** After the [await rename(...)]: [_onChunkCompleted] and [return]. *)
Definition on_renamed (id : nat) (failure : option error) (t0 now : Z) (w : world)
  : world :=
  match tasks w !! id with
  | Some t =>
      match awaits t with
      | await_rename =>
          _onChunkCompleted id t0 now
            ((settle_rename id failure w) <| tasks ::= delete id |>)
      | _ => w
      end
  | None => w
  end.

(** [delay] resolves: the next iteration of the [for] loop, or its end. *)
Definition on_delay (id : nat) (w : world) : world :=
  match tasks w !! id with
  | Some t =>
      match awaits t with
      | await_delay => next_attempt id (range t) (rest t) w
      | _ => w
      end
  | None => w
  end.

(** *** The start procedure

    What a segment of [_start] can come to: it completes, it throws, or
    it never returns.  A throw keeps the fields as they were left. *)
Inductive result : Type :=
| Done (w : world)
| Raised (e : error) (w : world)
| Pending (w : world).

Definition and_then (r : result) (k : world → result) : result :=
  match r with
  | Done w => k w
  | other => other
  end.
Notation "'do' w '←' r ; k" := (and_then r (λ w, k))
  (at level 10, w name, r at level 100, k at level 200).

(** [_ensureDest]: the [while] loop, [fuel] turns of it. *)
Fixpoint _ensureDest_loop (fuel : nat) (w : world) : result :=
  match fuel with
  | O => Pending w
  | S fuel =>
      match savedFilePath w with
      | None => Done w
      | Some saved =>
          match Fs.fileStats (disk w) saved, existBehavior (_opts w) with
          | Some stats, behavior =>
              if Fs.isDirectory stats
              then
                _ensureDest_loop fuel
                  (w <| savedFilePath :=
                          Some (Fs.join (path w) saved
                                  (Fs.posix_basename (path w) (_url w))) |>)
              else
                match behavior with
                | new_file =>
                    let loc := Fs.parse (path w) saved in
                    _ensureDest_loop fuel
                      (w <| savedFilePath :=
                              Some (Fs.join (path w) (Fs.dir loc)
                                      (Fs.name loc +:+ "(COPY)" +:+ Fs.ext loc)) |>)
                | ignore => _ensureDest_loop fuel (w <| savedFilePath := None |>)
                | overwrite => Done w
                end
          | None, _ => Done w
          end
      end
  end.

(** A turn that goes on has found its path on the disk, and a path met
    twice would be met forever: a loop that ends does so within
    [size disk + 2] turns. *)
Definition _ensureDest (w : world) : result :=
  _ensureDest_loop (S (S (base.size (disk w)))) w.

Definition _getHeaders (w : world) : result :=
  if followRedirect (_opts w)
  then
    match Request.followRedirect (network w) (_url w) with
    | Some (Ok redirResult) =>
        Done (w <| finalAddress := address redirResult |>
                <| headers_ := final_headers redirResult |>)
    | Some (Throw e) => Raised e w
    | None => Pending w
    end
  else
    match requestHeader (network w) (_url w) with
    | Ok headerResult =>
        if negb (statusCode headerResult =? 200) && negb (statusCode headerResult =? 206)
        then Raised (Got_HTTP_response (statusCode headerResult)) w
        else Done (w <| headers_ := rheaders headerResult |>)
    | Throw e => Raised e w
    end.

Definition _calcRanges (w : world) : result :=
  match Planner.calcRanges (size w) (connections (_opts w)) (chunkSize (_opts w)) with
  | Ok ranges => Done (w <| _ranges ::= (λ pushed, pushed ++ ranges) |>)
  | Throw e => Raised e w
  end.

(** One turn of the loop of [_syncJobs]. *)
Definition _syncJobs_body (i : nat) (w : world) : result :=
  let w := w <| partsProgress ::= <[i := progress0]> |> in
  match Fs.fileStats (disk w) (chunkFile w i) with
  | None => Done (w <| _jobs ::= (λ jobs, jobs ++ [i]) |>)
  | Some stats =>
      let size := match _ranges w !! i with
                  | Some (lo, hi) => hi - lo + 1
                  | None => 0
                  end in
      if size <? Fs.size stats
      then Raised (Chunk_oversize size (Fs.size stats)) w
      else if Fs.size stats =? size
      then
        let part := default progress0 (partsProgress w !! i) in
        let part := part <| percentage := Js.of_Z 100 |> <| bytes := size |> in
        let total := (totalProgress w) <| bytes ::= Z.add size |> in
        let total :=
          total <| percentage :=
                     if EasyDl.size w =? 0 then Js.of_Z 0
                     else Js.div (100 * bytes total) (EasyDl.size w) |> in
        Done (w <| _downloadedChunks ::= S |>
                <| partsProgress ::= <[i := part]> |>
                <| totalProgress := total |>
                <| isResume := true |>)
      else Done (w <| _jobs ::= (λ jobs, jobs ++ [i]) |>)
  end.

Fixpoint _syncJobs_loop (ids : list nat) (w : world) : result :=
  match ids with
  | [] => Done w
  | i :: ids => do w ← _syncJobs_body i w; _syncJobs_loop ids w
  end.

(** [Array(n)] makes [n] empty slots; slot [i] is given its record at
    the head of turn [i], before anything reads it. *)
Definition _syncJobs (w : world) : result :=
  let n := length (_ranges w) in
  _syncJobs_loop (seq 0 n) (w <| partsProgress := replicate n progress0 |>).

Definition the_metadata (w : world) : metadata := {|
  m_size := size w;
  m_chunks := map (λ r, snd r - fst r + 1) (_ranges w);
  m_isResume := isResume w;
  m_progress := map percentage (partsProgress w);
  m_finalAddress := finalAddress w;
  m_parallel := parallel w;
  m_resumable := resumable w;
  m_headers := headers_ w;
  m_savedFilePath := savedFilePath w
|}.

Definition announce (w : world) : world :=
  if (0 <? listeners_metadata w)%nat then emit (ev_metadata (the_metadata w)) w else w.

(** The [try] block of [_start]; [Done] is also its early [return]. *)
Definition _start_try (w : world) : result :=
  do w ← _ensureDest w;
  match savedFilePath w with
  | None => Done w
  | Some saved =>
      if negb (Fs.validate (path w) (disk w) saved)
      then Raised (Invalid_destination (_dest w)) w
      else
        do w ← _getHeaders w;
        let contentLength := h ← headers_ w; content_length h in
        let acceptRanges := h ← headers_ w; accept_ranges h in
        match contentLength with
        | Some l =>
            if negb (connections (_opts w) =? 1) && bool_decide (acceptRanges = Some "bytes")
            then
              do w ← _calcRanges (w <| size := l |>);
              do w ← _syncJobs w;
              let w := w <| _totalChunks := length (_ranges w) |> in
              Done (announce (match _jobs w with
                              | [] => _buildFile w
                              | _ => _processChunks w
                              end))
            else
              Done (announce
                      (_download 0 None
                         (w <| size := l |>
                            <| resumable := false |>
                            <| parallel := false |>
                            <| partsProgress := [progress0] |>
                            <| _totalChunks := 1%nat |>)))
        | None =>
            Done (announce
                    (_download 0 None
                       (w <| resumable := false |>
                          <| parallel := false |>
                          <| partsProgress := [progress0] |>
                          <| _totalChunks := 1%nat |>)))
        end
  end.

(** [_start].  Called on a destroyed instance it throws before the
    [try]: its promise rejects and nothing is emitted. *)
Definition _start (w : world) : world :=
  if _started w then w
  else
    let w := w <| _started := true |> in
    if _destroyed w then w
    else
      match _start_try w with
      | Done w | Pending w => w
      | Raised err w => destroy (emit (ev_error err) w)
      end.

(** *** Executions *)

(** What the environment delivers to the session. *)
Inductive input : Type :=
| tick_start
| call_destroy
| request_ready (id : nat) (statusCode : Z) (h : headers)
| request_data (id : nat) (length : Z) (t0 now : Z)
| request_error (id : nat) (e : error)
| dest_error (id : nat) (e : error)
| request_close (id : nat)
| renamed (id : nat) (failure : option error) (t0 now : Z)
| delay_elapsed (id : nat)
| piped (failure : option error)
| unlinked.

Definition deliver (i : input) (w : world) : world :=
  match i with
  | tick_start => _start w
  | call_destroy => destroy w
  | request_ready id statusCode h => on_ready id statusCode h w
  | request_data id length t0 now => on_data id length t0 now w
  | request_error id e | dest_error id e => on_error e w
  | request_close id => on_close id w
  | renamed id failure t0 now => on_renamed id failure t0 now w
  | delay_elapsed id => on_delay id w
  | piped failure => on_piped failure w
  | unlinked => on_unlinked w
  end.

Definition run (inputs : list input) (w : world) : world :=
  foldl (λ w i, deliver i w) w inputs.

(** How many times [close] was emitted. *)
Fixpoint closes (tr : list action) : nat :=
  match tr with
  | [] => 0
  | Emit ev_close :: tr => S (closes tr)
  | _ :: tr => closes tr
  end.

(** [close] was emitted once if the session is destroyed, never if it is
    not. *)
Definition close_once (w : world) : Prop :=
  closes (trace w) = if _destroyed w then 1%nat else 0%nat.

Definition close_once_result (r : result) : Prop :=
  match r with Done w | Raised _ w | Pending w => close_once w end.


(** *** Single-request mode *)

(** The fields [_start] sets before the only request of a session that
    does not download in parallel. *)
Definition single_request (w : world) : world :=
  w <| size := default (size w) (h ← headers_ w; content_length h) |>
    <| resumable := false |>
    <| parallel := false |>
    <| partsProgress := [progress0] |>
    <| _totalChunks := 1%nat |>.

Definition is_progress (a : action) : Prop :=
  ∃ total details, a = Emit (ev_progress total details).

(** The only attempt of a single-request session, saving to [saved], is
    receiving its body: its response was accepted, [written] bytes are
    in its [$PART] file, which is all that has changed on the disk
    [disk0], and only [progress] has been emitted since [trace0]. *)
Definition receiving (saved : string) (disk0 : gmap string Fs.stats)
    (trace0 : list action) (w : world) (written : Z) : Prop :=
  (∃ t, tasks w !! 0%nat = Some t ∧ awaits t = await_close ∧ ready t = true ∧
        chunk_error t = None) ∧
  _reqs w !! 0%nat = Some {| destroyed := false |} ∧
  savedFilePath w = Some saved ∧ _destroyed w = false ∧
  _downloadedChunks w = 0%nat ∧ _totalChunks w = 1%nat ∧
  disk w = <[partFile w 0 := Fs.file written]> disk0 ∧
  ∃ reports, trace w = reports ++ trace0 ∧ Forall is_progress reports.

(** *** Resuming *)

(** The length of the range planned for chunk [i]. *)
Definition chunk_length (w : world) (i : nat) : Z :=
  match _ranges w !! i with Some (lo, hi) => hi - lo + 1 | None => 0 end.

(** The chunk file of chunk [i] is on the disk with the length of its
    range. *)
Definition complete (w : world) (i : nat) : bool :=
  match disk w !! chunkFile w i with
  | Some stats => Fs.size stats =? chunk_length w i
  | None => false
  end.

(** The chunk file of chunk [i] is on the disk and longer than its
    range. *)
Definition oversize (w : world) (i : nat) : bool :=
  match disk w !! chunkFile w i with
  | Some stats => chunk_length w i <? Fs.size stats
  | None => false
  end.

(** *** The accounts of a session *)

(** How many times [end] was emitted. *)
Fixpoint ends (tr : list action) : nat :=
  match tr with
  | [] => 0
  | Emit ev_end :: tr => S (ends tr)
  | _ :: tr => ends tr
  end.

(** The world a segment of [_start] leaves. *)
Definition world_of (r : result) : world :=
  match r with Done w | Raised _ w | Pending w => w end.

(** A session whose start has failed: it is destroyed and nothing is
    suspended. *)
Definition dead (w : world) : Prop :=
  _started w = true ∧ _destroyed w = true ∧ tasks w = ∅ ∧ assembly w = None ∧
  _done w = false ∧ ends (trace w) = 0%nat.

(** The chunks of a session are accounted for: a chunk is queued, in
    flight or counted as downloaded at most once, the assembly runs only
    when all of them are downloaded, and [end] goes with [_done]. *)
Definition accounted (w : world) : Prop :=
  NoDup (_jobs w) ∧
  (∀ id, id ∈ _jobs w → tasks w !! id = None) ∧
  (_downloadedChunks w + base.size (tasks w) + length (_jobs w) ≤ _totalChunks w)%nat ∧
  (_started w = false → _totalChunks w = 0%nat ∧ assembly w = None ∧ _done w = false) ∧
  (assembly w ≠ None ∨ _done w = true → _downloadedChunks w = _totalChunks w) ∧
  ends (trace w) = (if _done w then 1 else 0)%nat ∧
  (_done w = true → _destroyed w = true ∧ assembly w = None).

(** The accounts have room for one more chunk. *)
Definition room (w : world) : Prop :=
  (_downloadedChunks w + base.size (tasks w) + length (_jobs w) + 1 ≤ _totalChunks w)%nat.

(** A started session in which nothing is suspended and nothing has
    ended. *)
Definition idle (w : world) : Prop :=
  _started w = true ∧ tasks w = ∅ ∧ assembly w = None ∧ _done w = false ∧
  ends (trace w) = 0%nat.

(** An idle session that has planned and counted nothing. *)
Definition unplanned (w : world) : Prop :=
  idle w ∧ _downloadedChunks w = 0%nat ∧ _totalChunks w = 0%nat ∧ _jobs w = [].

(** What a segment of [_start] leaves: the accounts in order when it
    returns, an idle session when it throws. *)
Definition settled (r : result) : Prop :=
  match r with
  | Done w | Pending w => accounted w
  | Raised _ w => idle w
  end.

End EasyDl.

(** ** Sessions used as examples *)

Module Scenario.
Import Request EasyDl.

(** Node's [path] on the destination of the examples, [/dl/f.bin]. *)
Definition posix : Fs.path_module := {|
  Fs.join := λ a b, a +:+ "/" +:+ b;
  Fs.parse := λ _, {| Fs.dir := "/dl"; Fs.name := "f"; Fs.ext := ".bin" |};
  Fs.posix_basename := λ _, "f.bin"
|}.

Definition folder : Fs.stats := {| Fs.isDirectory := true; Fs.size := 4096 |}.

(** The headers of a server that accepts ranges, for a body of [n] bytes. *)
Definition ranged (n : Z) : headers :=
  {| content_length := Some n; accept_ranges := Some "bytes"; location := None |}.

Definition plain : headers :=
  {| content_length := None; accept_ranges := None; location := None |}.

(** The headers of a redirect to [l], or without [location]. *)
Definition moved (l : option string) : headers :=
  {| content_length := None; accept_ranges := None; location := l |}.

Definition url : string := "http://h/f.bin".
Definition dest : string := "/dl/f.bin".

(** A server that answers the HEAD request for [url] with 200 and a
    length of [n] bytes. *)
Definition serving (n : Z) : gmap string probe :=
  {[ url := Responded 200 (Some (ranged n)) ]}.

(** A session over an empty download folder, with listeners for
    [progress] and [metadata], created at time 0. *)
Definition session (opts : options) (n : Z) : world :=
  constructor url dest opts 0 1 1 {[ "/dl" := folder ]} (serving n) posix.

(** Ten bytes in two chunks of five, default retry options, over a
    given disk. *)
Definition two_chunks_on (disk : gmap string Fs.stats) : world :=
  constructor url dest
    (default_options <| connections := 2 |> <| chunkSize := Planner.Fixed 5 |>)
    0 1 1 disk (serving 10) posix.

Definition two_chunks : world := two_chunks_on {[ "/dl" := folder ]}.

(** The download folder with a file of [n] bytes left for chunk 1. *)
Definition leftover (n : Z) : gmap string Fs.stats :=
  {[ "/dl" := folder; "/dl/f.bin.$$1" := Fs.file n ]}.

(** Three bytes over the default five connections. *)
Definition small_file : world :=
  session (default_options <| chunkSize := Planner.Fixed 1000 |>) 3.

(** The destination exists and the policy is [ignore]. *)
Definition ignoring : world :=
  constructor url dest (default_options <| existBehavior := ignore |>) 0 1 1
    {[ "/dl" := folder; dest := Fs.file 3 ]} (serving 10) posix.

(** The scan of a session that left 3 of the 5 bytes of chunk 1 on
    disk, at the head of the turn for chunk 1. *)
Definition short_chunk : world :=
  (two_chunks_on (leftover 3))
    <| size := 10 |>
    <| _ranges := [(0, 4); (5, 9)] |>
    <| partsProgress := [progress0; progress0] |>
    <| _jobs := [0%nat] |>.

(** The same server in single-request mode, nobody listening. *)
Definition single : world :=
  constructor url dest (default_options <| connections := 1 |>) 0 0 0
    {[ "/dl" := folder ]} (serving 10) posix.



(** The requests and sleeps of a session, in order. *)
Definition requests_and_sleeps (w : world) : list action :=
  omap (λ a, match a with Emit _ => None | other => Some other end) (rev (trace w)).


(** The body of a response as it arrives: the length of each piece with
    the two clock readings of its [data] handler. *)
Definition body_inputs (id : nat) (body : list (Z * (Z * Z))) : list input :=
  map (λ piece, request_data id piece.1 piece.2.1 piece.2.2) body.

Definition body_bytes (body : list (Z * (Z * Z))) : Z :=
  foldr Z.add 0 (map fst body).

(** The server answers 503 to every chunk request of [two_chunks]; both
    workers go through their three attempts side by side. *)
Definition server_down : list input :=
  let round :=
    [request_ready 1 503 plain; request_close 1;
     request_ready 0 503 plain; request_close 0;
     delay_elapsed 1; delay_elapsed 0] in
  tick_start :: round ++ round ++ round.

(** Both chunks of [two_chunks] arrive in full; the host calls
    [destroy] while the first chunk is piped into the output. *)
Definition destroyed_while_assembling : list input :=
  [tick_start;
   request_ready 1 206 (ranged 5); request_data 1 5 7 7; request_close 1;
   renamed 1 None 8 8;
   request_ready 0 206 (ranged 5); request_data 0 5 9 9; request_close 0;
   renamed 0 None 10 10;
   call_destroy; piped None; piped None; unlinked; unlinked].

(** Chunk 1 of [two_chunks] arrives within one millisecond and its
    rename completes in that same millisecond. *)
Definition fast_chunk : list input :=
  [tick_start;
   request_ready 1 206 (ranged 5); request_data 1 5 7 7; request_close 1].


(** The connection of chunk 1 is reset after two of its five bytes: the
    request emits [error], then closes. *)
Definition reset_chunk : list input :=
  [tick_start;
   request_ready 1 206 (ranged 5); request_data 1 2 7 7;
   request_error 1 (External "ECONNRESET"); request_close 1;
   renamed 1 None 8 8].

(** A download folder with the chunks of two downloads, as [readdir]
    lists it, and its disk. *)
Definition cluttered_listing : gmap string (list string) :=
  {[ "/dl" := ["f.bin.$$0"; "g.bin.$$1$PART"; "notes.txt"; "f.bin.$$2$PART"] ]}.

Definition cluttered : gmap string Fs.stats :=
  {[ "/dl" := folder; "/dl/f.bin.$$0" := Fs.file 3;
     "/dl/g.bin.$$1$PART" := Fs.file 4; "/dl/notes.txt" := Fs.file 5;
     "/dl/f.bin.$$2$PART" := Fs.file 1 ]}.

(** *** The assembly of the output *)

(** The two chunks of [two_chunks] are on the disk, complete. *)
Definition to_assemble : world :=
  (two_chunks_on {[ "/dl" := folder; "/dl/f.bin.$$0" := Fs.file 5;
                    "/dl/f.bin.$$1" := Fs.file 5 ]})
    <| _totalChunks := 2%nat |>.

(** What the environment delivers while [_buildFile] assembles [n]
    chunks without a failure: the end of each pipe, then the callback of
    each [unlink]. *)
Definition assembly_inputs (n : nat) : list input :=
  replicate n (piped None) ++ replicate n unlinked.

(** The [build] events after [k] of [n] chunks are piped, latest first:
    the one of percentage 0 that opens the assembly, then
    [100 * (i / n)] after chunk [i]. *)
Definition builds (n k : nat) : list action :=
  rev (map (λ i, Emit (ev_build (Js.scale 100 (Js.div (Z.of_nat i) (Z.of_nat n)))))
           (seq 0 k))
  ++ [Emit (ev_build (Js.of_Z 0))].

(** The disk after the chunk files [0 .. k-1] of [w] are unlinked. *)
Definition unlinked_up_to (w : world) (k : nat) (disk : gmap string Fs.stats)
  : gmap string Fs.stats :=
  foldl (λ disk i, delete (chunkFile w i) disk) disk (seq 0 k).

(** The session [w], whose chunk files hold [sizes] bytes, while chunk
    [k] is piped into the output [saved]; while chunk [k] is unlinked;
    and when the assembly has ended. *)
Definition piping_at (w : world) (saved : string) (sizes : list Z) (k : nat) : world :=
  w <| assembly := Some (piping k) |>
    <| disk := <[saved := Fs.file (Planner.total (take k sizes))]> (disk w) |>
    <| trace := builds (_totalChunks w) k ++ trace w |>.

Definition unlinking_at (w : world) (saved : string) (sizes : list Z) (k : nat) : world :=
  w <| assembly := Some (unlinking k) |>
    <| disk := unlinked_up_to w k (<[saved := Fs.file (Planner.total sizes)]> (disk w)) |>
    <| trace := builds (_totalChunks w) (_totalChunks w) ++ trace w |>.

Definition assembled (w : world) (saved : string) (sizes : list Z) : world :=
  let n := _totalChunks w in
  w <| _done := true |>
    <| _destroyed := true |>
    <| _reqs ::= fmap (λ _, {| destroyed := true |}) |>
    <| assembly := None |>
    <| disk := unlinked_up_to w n (<[saved := Fs.file (Planner.total sizes)]> (disk w)) |>
    <| trace := Emit ev_close :: Emit ev_end :: builds n n ++ trace w |>.

(** A server that does not announce [accept-ranges], and a session
    with the default options against it. *)
Definition unranged : world :=
  constructor url dest default_options 0 1 1 {[ "/dl" := folder ]}
    {[ url := Responded 200 (Some plain) ]} posix.

(** The destination exists and the policy is the default, [new_file]. *)
Definition occupied : world :=
  constructor url dest default_options 0 1 1
    {[ "/dl" := folder; dest := Fs.file 3 ]} (serving 10) posix.

(** A session interrupted after chunk 1: its file is on the disk with
    all five bytes. *)
Definition resumed : world := two_chunks_on (leftover 5).


(** The plan of ten bytes in two chunks of five, over a given disk,
    before the scan for chunk files. *)
Definition planned (disk : gmap string Fs.stats) : world :=
  (two_chunks_on disk) <| size := 10 |> <| _ranges := [(0, 4); (5, 9)] |>.

(** Three chunks in the queue of a session with two connections. *)
Definition queued : world :=
  two_chunks <| size := 10 |> <| _ranges := [(0, 3); (4, 7); (8, 9)] |>
             <| _jobs := [0; 1; 2]%nat |>.

(** One connection and [maxRetry: 0]. *)
Definition no_retry : world :=
  constructor url dest (default_options <| connections := 1 |> <| maxRetry := 0%nat |>)
    0 1 1 {[ "/dl" := folder ]} (serving 10) posix.

End Scenario.

(** * Properties *)

(** ** JavaScript numbers *)

Module JsFacts.

Lemma div_pos (a b : Z) :
  0 < b → Js.div a b = Js.Fin (a # Z.to_pos b).
Proof. destruct b as [|p|p]; [lia| |lia]. reflexivity. Qed.

Lemma ltb_div_of_Z (a b c : Z) :
  0 < b → Js.ltb (Js.div a b) (Js.of_Z c) = (a <? c * b).
Proof.
  intros Hb. rewrite div_pos by done. destruct b as [|p|p]; try lia.
  cbn. unfold Qcompare. cbn.
  rewrite Z.mul_1_r. rewrite Z.ltb_compare. reflexivity.
Qed.

Lemma ltb_of_Z_div (a b c : Z) :
  0 < b → Js.ltb (Js.of_Z c) (Js.div a b) = (c * b <? a).
Proof.
  intros Hb. rewrite div_pos by done. destruct b as [|p|p]; try lia.
  cbn. unfold Qcompare. cbn.
  rewrite Z.mul_1_r. rewrite Z.ltb_compare. reflexivity.
Qed.


Lemma ceil_div (a b : Z) :
  0 < b → Js.ceil (Js.div a b) = Js.of_Z (- (- a / b)).
Proof. intros Hb. destruct b as [|p|p]; try lia. reflexivity. Qed.

Lemma array_length_of_Z (n : Z) :
  0 <= n < 2 ^ 32 → Js.array_length (Js.of_Z n) = Some (Z.to_nat n).
Proof.
  intros Hn. unfold Js.array_length, Js.of_Z.
  rewrite Qfloor_Z.
  assert (Qeq_bool (inject_Z n) (inject_Z n) = true) as ->
      by (apply Qeq_bool_iff; reflexivity).
  assert ((0 <=? n) = true) as -> by lia.
  assert ((n <? 2 ^ 32) = true) as -> by lia.
  reflexivity.
Qed.

(** The half of an integer, floored after subtracting an integer. *)
Lemma floor_half_minus (c l : Z) :
  Qfloor ((c # 2) - inject_Z l) = c / 2 - l.
Proof.
  unfold Qminus, Qplus, Qopp, inject_Z, Qfloor. cbn.
  change (Z.pos (2 * 1)) with 2.
  replace (c * 1 + - l * 2) with (c + (- l) * 2) by lia.
  rewrite Z.div_add by lia. lia.
Qed.

End JsFacts.

(** ** The chunk planner *)

Module PlannerFacts.
Import Planner.

(** *** Small files *)

Lemma shrink_small (size connections chunkSize : Z) :
  1 <= size < connections → 1 <= chunkSize →
  shrink size connections chunkSize = (0, size).
Proof.
  intros Hs Hc. unfold shrink.
  rewrite JsFacts.ltb_div_of_Z by lia.
  assert ((size <? connections * chunkSize) = true) as -> by nia.
  rewrite Z.div_small by lia. rewrite Z.rem_small by lia. reflexivity.
Qed.

Lemma chunk_count_zero_chunkSize (size : Z) :
  1 <= size → chunk_count size 0 size = Js.PInf.
Proof.
  intros Hs. unfold chunk_count.
  assert ((size =? 0) = false) as -> by lia.
  unfold Js.div. assert ((0 <? size) = true) as -> by lia. reflexivity.
Qed.

(** A file of fewer bytes than connections gets no plan: the chunk
    size shrinks to 0, the chunk count is [Infinity] and [Array(n)]
    throws. *)
Lemma calcRanges_small_throws (size connections chunkSize : Z) :
  1 <= size < connections → 1 <= chunkSize →
  calcRanges size connections (Fixed chunkSize)
  = Throw RangeError_invalid_array_length.
Proof.
  intros Hs Hc. unfold calcRanges, resolve.
  rewrite shrink_small by done.
  rewrite chunk_count_zero_chunkSize by lia. reflexivity.
Qed.

(** *** Plans that tile *)

Lemma total_app l1 l2 : total (l1 ++ l2) = total l1 + total l2.
Proof. induction l1 as [|x l1 IH]; simpl; [done|]. rewrite IH. lia. Qed.

Lemma total_insert (l : list Z) i x v :
  l !! i = Some x → total (<[i := v]> l) = total l - x + v.
Proof.
  revert i. induction l as [|y l IH]; intros [|i]; simpl; try done.
  - intros [= ->]. lia.
  - intros H. rewrite (IH _ H). lia.
Qed.

Lemma total_nonneg l : Forall (λ c, 0 < c) l → 0 <= total l.
Proof. induction 1; simpl; lia. Qed.

(** The range of chunk [i] starts after the chunks before it. *)
Lemma to_ranges_lookup chunks sum i c :
  chunks !! i = Some c →
  to_ranges sum chunks !! i
  = Some (sum + total (take i chunks), sum + total (take i chunks) + c - 1).
Proof.
  revert sum i. induction chunks as [|d chunks IH]; intros sum [|i]; simpl; try done.
  - intros [= ->]. f_equal. f_equal; lia.
  - intros H. rewrite (IH _ _ H). f_equal. f_equal; lia.
Qed.

Lemma to_ranges_length chunks sum : length (to_ranges sum chunks) = length chunks.
Proof. revert sum. induction chunks; intros; simpl; [done|]. by rewrite IHchunks. Qed.

Lemma to_ranges_lookup_inv chunks sum i r :
  to_ranges sum chunks !! i = Some r →
  ∃ c, chunks !! i = Some c ∧
       r = (sum + total (take i chunks), sum + total (take i chunks) + c - 1).
Proof.
  intros H. assert (i < length chunks)%nat as Hi.
  { rewrite <- (to_ranges_length chunks sum). by eapply lookup_lt_Some. }
  destruct (lookup_lt_is_Some_2 _ _ Hi) as [c Hc].
  exists c. split; [done|]. rewrite (to_ranges_lookup _ _ _ _ Hc) in H. congruence.
Qed.

Lemma total_take_le chunks i j :
  Forall (λ c, 0 < c) chunks → (i <= j)%nat →
  total (take i chunks) <= total (take j chunks).
Proof.
  intros Hpos. revert i j.
  induction Hpos as [|c chunks Hc Hpos IH]; intros [|i] [|j] Hij; simpl; try lia.
  - pose proof (total_nonneg (take j chunks)
                  (Forall_take _ _ _ Hpos)). lia.
  - specialize (IH i j). lia.
Qed.

Lemma total_take_all chunks i :
  Forall (λ c, 0 < c) chunks → total (take i chunks) <= total chunks.
Proof.
  intros Hpos. rewrite <- (firstn_all chunks) at 2.
  destruct (decide (i <= length chunks)%nat).
  - by apply total_take_le.
  - rewrite take_ge by lia. by rewrite firstn_all.
Qed.

Lemma to_ranges_covers chunks sum x :
  Forall (λ c, 0 < c) chunks →
  sum <= x < sum + total chunks →
  ∃ r, r ∈ to_ranges sum chunks ∧ covers r x.
Proof.
  intros Hpos. revert sum.
  induction Hpos as [|c chunks Hc Hpos IH]; intros sum Hx; simpl in *; [lia|].
  destruct (decide (x <= sum + c - 1)) as [Hle|Hgt].
  - exists (sum, sum + c - 1). split; [left|]. unfold covers; simpl; lia.
  - destruct (IH (sum + c)) as (r & Hr & Hcov); [lia|].
    exists r. split; [by right|done].
Qed.

(** Positive lengths that add up to [size] give a tiling of [0, size). *)
Lemma to_ranges_tiles chunks :
  Forall (λ c, 0 < c) chunks →
  tiles (total chunks) (to_ranges 0 chunks).
Proof.
  intros Hpos. split; [|split].
  - intros x. split.
    + intros (r & Hr & Hcov). apply list_elem_of_lookup in Hr as [i Hi].
      apply to_ranges_lookup_inv in Hi as (c & Hc & ->).
      unfold covers in Hcov. simpl in Hcov.
      assert (0 < c) by (eapply Forall_lookup_1 in Hpos; eauto).
      pose proof (total_nonneg _ (Forall_take _ i _ Hpos)).
      pose proof (total_take_all chunks (S i) Hpos) as Hall.
      rewrite (take_S_r _ _ _ Hc), total_app in Hall. simpl in Hall. lia.
    + intros Hx. apply to_ranges_covers; [done|lia].
  - assert (∀ i j ri rj x, (i < j)%nat →
              to_ranges 0 chunks !! i = Some ri → to_ranges 0 chunks !! j = Some rj →
              ¬ (covers ri x ∧ covers rj x)) as Hlt.
    { intros i j ri rj x Hij Hi Hj [Hci Hcj].
      apply to_ranges_lookup_inv in Hi as (ci & Hi & ->).
      apply to_ranges_lookup_inv in Hj as (cj & Hj & ->).
      unfold covers in *. simpl in *.
      pose proof (total_take_le chunks (S i) j Hpos ltac:(lia)) as Hle.
      rewrite (take_S_r _ _ _ Hi), total_app in Hle. simpl in Hle. lia. }
    intros i j ri rj x Hi Hj Hne.
    destruct (decide (i < j)%nat); [by eapply Hlt|].
    intros [? ?]. eapply (Hlt j i rj ri x); [lia|done..].
  - intros i ri rj Hi Hj.
    apply to_ranges_lookup_inv in Hi as (ci & Hi & ->).
    apply to_ranges_lookup_inv in Hj as (cj & Hj & ->).
    assert (0 < ci) by (eapply Forall_lookup_1 in Hpos; eauto).
    rewrite (take_S_r _ _ _ Hi), total_app. simpl. lia.
Qed.

(** *** The lengths of the first loop *)

Lemma chunks_lookup size cs extra n i :
  (i < n)%nat →
  map (chunk_at size cs extra n) (seq 0 n) !! i = Some (chunk_at size cs extra n i).
Proof.
  intros Hi. rewrite list_lookup_fmap, lookup_seq_lt by done. reflexivity.
Qed.

Lemma chunks_length size cs extra n :
  length (map (chunk_at size cs extra n) (seq 0 n)) = n.
Proof. by rewrite length_map, length_seq. Qed.

Lemma chunk_at_inner size cs extra n i :
  (i < n - 1)%nat →
  chunk_at size cs extra n i = cs + (if Z.of_nat i <? extra then 1 else 0).
Proof.
  intros Hi. unfold chunk_at.
  assert ((i <? n - 1)%nat = true) as -> by (apply Nat.ltb_lt; lia).
  destruct (Z.of_nat i <? extra); cbv zeta iota; lia.
Qed.

Lemma chunk_at_last size cs extra n :
  (0 < n)%nat → Z.of_nat n - 1 >= extra →
  chunk_at size cs extra n (n - 1) = size - (Z.of_nat n - 1) * cs - extra.
Proof.
  intros Hn Hextra. unfold chunk_at.
  assert ((n - 1 <? n - 1)%nat = false) as -> by (apply Nat.ltb_ge; lia).
  assert ((Z.of_nat (n - 1) <? extra) = false) as -> by (apply Z.ltb_ge; lia).
  reflexivity.
Qed.

Lemma inner_total size cs extra n m :
  (m <= n - 1)%nat → 0 <= extra →
  total (map (chunk_at size cs extra n) (seq 0 m))
  = Z.of_nat m * cs + Z.min (Z.of_nat m) extra.
Proof.
  intros Hm Hextra. induction m as [|m IH]; [simpl; lia|].
  rewrite seq_S, map_app, total_app, IH by lia. simpl.
  rewrite chunk_at_inner by lia.
  destruct (Z.of_nat m <? extra) eqn:E; lia.
Qed.

(** The lengths of the first loop add up to [size] when the extra bytes
    all find a chunk before the last. *)
Lemma chunks_total size cs extra n :
  (0 < n)%nat → 0 <= extra <= Z.of_nat n - 1 →
  total (map (chunk_at size cs extra n) (seq 0 n)) = size.
Proof.
  intros Hn Hextra.
  replace n with (S (n - 1)) at 2 by lia.
  rewrite seq_S, map_app, total_app, inner_total by lia. simpl.
  rewrite chunk_at_last by lia.
  replace (Z.of_nat (n - 1)) with (Z.of_nat n - 1) by lia. lia.
Qed.

Lemma chunks_positive size cs extra n :
  (0 < n)%nat → 0 <= extra <= Z.of_nat n - 1 → 0 < cs →
  0 < size - (Z.of_nat n - 1) * cs - extra →
  Forall (λ c, 0 < c) (map (chunk_at size cs extra n) (seq 0 n)).
Proof.
  intros Hn Hextra Hcs Hlast. apply Forall_forall. intros c Hc.
  apply list_elem_of_fmap in Hc as (i & -> & Hi). apply elem_of_seq in Hi.
  destruct (decide (i < n - 1)%nat).
  - rewrite chunk_at_inner by done. destruct (Z.of_nat i <? extra); lia.
  - replace i with (n - 1)%nat by lia. rewrite chunk_at_last by lia. done.
Qed.

(** *** The rebalance *)

Lemma rebalance_sound cs n chunks :
  length chunks = n →
  Forall (λ c, 0 < c) chunks →
  (∀ i c, (i < n - 1)%nat → chunks !! i = Some c → cs <= c) →
  Forall (λ c, 0 < c) (rebalance cs n chunks) ∧
  total (rebalance cs n chunks) = total chunks.
Proof.
  intros Hlen Hpos Hinner. unfold rebalance.
  destruct (1 <? n)%nat eqn:Hn; [|done]. apply Nat.ltb_lt in Hn.
  rewrite JsFacts.ltb_of_Z_div by lia.
  destruct (_ <? cs) eqn:Hsmall; [|done]. cbn [andb].
  rewrite JsFacts.floor_half_minus.
  destruct (lookup_lt_is_Some_2 chunks (n - 1)) as [last Hlast]; [lia|].
  destruct (lookup_lt_is_Some_2 chunks (n - 2)) as [prev Hprev]; [lia|].
  rewrite Hlast in *. cbn [default from_option id] in *.
  rewrite list_lookup_insert_ne, Hprev by lia. cbn [default from_option id].
  assert (0 < last) by (eapply Forall_lookup_1 in Hpos; eauto).
  assert (cs <= prev) by (eapply Hinner; [|done]; lia).
  assert (last + (cs / 2 - last) = cs / 2) as -> by lia.
  split.
  - apply Forall_insert; [apply Forall_insert; [done|]|].
    + apply Z.div_str_pos. lia.
    + pose proof (Z.div_mod cs 2 ltac:(lia)).
      pose proof (Z.mod_pos_bound cs 2 ltac:(lia)). lia.
  - rewrite (total_insert _ _ prev) by (by rewrite list_lookup_insert_ne by lia).
    rewrite (total_insert _ _ last) by done. lia.
Qed.

(** The lengths [_calcRanges] works with, once the chunk size, the extra
    bytes and the count are such that every extra byte finds a chunk
    before the last and the last chunk is not empty. *)
Lemma plan_tiles size cs extra n :
  (0 < n)%nat → 0 <= extra <= Z.of_nat n - 1 → 0 < cs →
  0 < size - (Z.of_nat n - 1) * cs - extra →
  tiles size
    (to_ranges 0 (rebalance cs n (map (chunk_at size cs extra n) (seq 0 n)))).
Proof.
  intros Hn Hextra Hcs Hlast.
  pose proof (chunks_positive size cs extra n Hn Hextra Hcs Hlast) as Hpos.
  destruct (rebalance_sound cs n _ (chunks_length size cs extra n) Hpos)
    as [Hpos' Htotal].
  { intros i c Hi. rewrite chunks_lookup by lia. intros [= <-].
    rewrite chunk_at_inner by done. destruct (Z.of_nat i <? extra); lia. }
  rewrite <- (chunks_total size cs extra n Hn Hextra) at 1.
  rewrite <- Htotal. by apply to_ranges_tiles.
Qed.

(** The plan when the guard does not shrink the chunk size: the count
    is the ceiling of [size / cs], and the last length is what is left
    after the full chunks. *)
Lemma calcRanges_not_shrunk size connections policy cs :
  resolve policy size = cs →
  1 <= connections → 1 <= cs → connections * cs <= size → size / cs + 1 < 2 ^ 32 →
  let n := Z.to_nat ((size + cs - 1) / cs) in
  calcRanges size connections policy
  = Ok (to_ranges 0 (rebalance cs n (map (chunk_at size cs 0 n) (seq 0 n)))) ∧
  (0 < n)%nat ∧ 0 < size - (Z.of_nat n - 1) * cs <= cs.
Proof.
  intros Hres Hconn Hcs Hfit Hcount n.
  unfold calcRanges, shrink. rewrite Hres, JsFacts.ltb_div_of_Z by lia.
  assert ((size <? connections * cs) = false) as -> by lia.
  unfold chunk_count. cbn [Z.eqb]. rewrite JsFacts.ceil_div by lia.
  pose proof (Z.div_mod (- size) cs ltac:(lia)) as Hdiv.
  pose proof (Z.mod_pos_bound (- size) cs ltac:(lia)) as Hmod.
  pose proof (Z.div_mod size cs ltac:(lia)) as Hdiv'.
  pose proof (Z.mod_pos_bound size cs ltac:(lia)) as Hmod'.
  pose proof (Z.div_mod (size + cs - 1) cs ltac:(lia)) as Hdiv''.
  pose proof (Z.mod_pos_bound (size + cs - 1) cs ltac:(lia)) as Hmod''.
  assert (- (- size / cs) = (size + cs - 1) / cs) as -> by nia.
  assert (1 <= (size + cs - 1) / cs <= size / cs + 1) as Hn by nia.
  rewrite JsFacts.array_length_of_Z by lia. fold n.
  split; [reflexivity|]. subst n. rewrite Z2Nat.id by lia. split; [lia|nia].
Qed.




(** *** The lengths of a plan *)










(** *** The default policy *)

Lemma resolve_default size :
  resolve default_chunkSize size = Z.min (size / 10) (10 * 1024 * 1024).
Proof.
  unfold resolve, default_chunkSize.
  destruct (Q.min_spec (size # 10) (inject_Z (10 * 1024 * 1024))) as [[Hlt ->]|[Hle ->]].
  - unfold Qlt in Hlt. cbn in Hlt. change (Qfloor (size # 10)) with (size / 10).
    pose proof (Z.div_mod size 10 ltac:(lia)).
    pose proof (Z.mod_pos_bound size 10 ltac:(lia)). lia.
  - unfold Qle in Hle. cbn in Hle. rewrite Qfloor_Z.
    pose proof (Z.div_mod size 10 ltac:(lia)).
    pose proof (Z.mod_pos_bound size 10 ltac:(lia)). lia.
Qed.

(** X4.  With the default chunk-size policy [min(size / 10, 10 MiB)] and
    from 1 to 10 connections (the default is 5), every size from 10
    bytes on gets a plan, and the plan tiles [0, size): the chunk size
    is never shrunk. *)
Theorem default_policy_tiles size connections :
  10 <= size < 2 ^ 53 → 1 <= connections <= 10 →
  ∃ ranges, calcRanges size connections default_chunkSize = Ok ranges ∧
            tiles size ranges.
Proof.
  intros Hsize Hconn.
  pose proof (resolve_default size) as Hres.
  pose proof (Z.div_mod size 10 ltac:(lia)) as Hdiv.
  pose proof (Z.mod_pos_bound size 10 ltac:(lia)) as Hmod.
  set (cs := Z.min (size / 10) (10 * 1024 * 1024)) in *.
  assert (1 <= cs <= size / 10) as Hcs by lia.
  assert (size / cs + 1 < 2 ^ 32) as Hfit.
  { destruct (Z.le_gt_cases (size / 10) (10 * 1024 * 1024)).
    - assert (size / cs < 20); [|lia].
      apply Z.div_lt_upper_bound; lia.
    - assert (size / cs < 2 ^ 31); [|lia].
      apply Z.div_lt_upper_bound; lia. }
  destruct (calcRanges_not_shrunk size connections default_chunkSize cs)
    as (-> & Hn & Hlast); [done|lia|lia|nia|lia|].
  eexists. split; [reflexivity|]. apply plan_tiles; lia.
Qed.

(** X4 (witness): 1000 bytes with the default options. *)
Lemma default_policy_tiles_witness :
  ∃ ranges, calcRanges 1000 5 default_chunkSize = Ok ranges ∧ tiles 1000 ranges.
Proof. apply (default_policy_tiles 1000 5); lia. Defined.

(** *** Concrete plans *)

(** C1 (the code at the failing input): for size 5, 3 connections and
    chunk size 2 the planner returns five ranges of which the last two
    are the empty [5,4]; they start at the same offset, so the plan does
    not satisfy the ordering [ranges[i].lo < ranges[i+1].lo] and is no
    tiling of [0, 5). *)
Theorem calcRanges_5_3_2_not_a_tiling :
  calcRanges 5 3 (Fixed 2) = Ok [(0,1); (2,3); (4,4); (5,4); (5,4)] ∧
  ¬ tiles 5 [(0,1); (2,3); (4,4); (5,4); (5,4)].
Proof.
  split; [vm_compute; reflexivity|].
  intros (_ & _ & Hord).
  specialize (Hord 3%nat (5,4) (5,4) eq_refl eq_refl). cbn in Hord. lia.
Qed.

(** With a larger remainder the lengths go negative and the ranges
    overlap and leave [0, size). *)
Example calcRanges_19_10_2 :
  calcRanges 19 10 (Fixed 2)
  = Ok [(0,1); (2,3); (4,5); (6,7); (8,9); (10,11); (12,13); (14,15); (16,17);
        (18,18); (19,19); (20,20); (21,21); (22,22); (23,23); (24,24); (25,25);
        (26,18); (19,18)].
Proof. vm_compute. reflexivity. Qed.

(** The default policy [min(size / 10, 10 MiB)] floors to 0 for a size
    below 10, and the planner throws for lack of a finite chunk count. *)
Example calcRanges_default_policy_9 :
  calcRanges 9 5 default_chunkSize = Throw RangeError_invalid_array_length.
Proof. vm_compute. reflexivity. Qed.

(** C3 (counterexample): with 5 connections the plan is not the four
    ranges of the scenario. *)
Lemma plan_100000_5_30000_is_not_four_ranges :
  calcRanges 100000 5 (Fixed 30000)
  ≠ Ok [(0,29999); (30000,59999); (60000,84999); (85000,99999)].
Proof. vm_compute. discriminate. Qed.

(** C3 (amended): for size 100000, 5 connections and chunk size 30000
    the guard [size / chunkSize < connections] holds (3.33 < 5), the
    chunk size becomes 100000 / 5 = 20000 and the plan is the five
    ranges of 20000 bytes; the four ranges with the rebalanced tail are
    the plan for 3 connections. *)
Theorem plan_100000_30000 :
  calcRanges 100000 5 (Fixed 30000)
  = Ok [(0,19999); (20000,39999); (40000,59999); (60000,79999); (80000,99999)] ∧
  calcRanges 100000 3 (Fixed 30000)
  = Ok [(0,29999); (30000,59999); (60000,84999); (85000,99999)].
Proof. split; vm_compute; reflexivity. Qed.

End PlannerFacts.

(** ** The redirect resolver *)

Module RequestFacts.
Import Request.

(** [requestHeader] never yields a zero status. *)
Lemma requestHeader_statusCode network address r :
  requestHeader network address = Ok r →
  ∃ code h, head network address = Responded code h ∧ rheaders r = h ∧
            statusCode r = (if code =? 0 then 500 else code).
Proof.
  unfold requestHeader. destruct (head network address) as [code h|e]; [|done].
  intros [= <-]. eauto.
Qed.

Lemma requestHeader_probed network address r :
  requestHeader network address = Ok r → address ∈ dom network.
Proof.
  unfold requestHeader, head. intros H. apply elem_of_dom.
  destruct (network !! address); [eauto|done].
Qed.

(** A turn that loops has probed an address of the network that was not
    visited before, and records it. *)
Lemma followRedirect_body_loop network address visited current visited' next :
  followRedirect_body network address visited current = Loop visited' next →
  (current ∉ visited) ∧ current ∈ dom network ∧ visited' = visited ∪ {[current]}.
Proof.
  unfold followRedirect_body. case_decide as Hin; [done|].
  destruct (requestHeader network current) as [r|e] eqn:Hr; [|done].
  apply requestHeader_probed in Hr.
  repeat case_match; try done. by intros [= <- _].
Qed.

(** Termination: the loop of [followRedirect] ends within the fuel it is
    given, whatever the network answers. *)
Lemma followRedirect_loop_fuel fuel network address visited current :
  (base.size (dom network ∖ visited) < fuel)%nat →
  is_Some (followRedirect_loop fuel network address visited current).
Proof.
  revert visited current.
  induction fuel as [|fuel IH]; intros visited current Hfuel; [lia|].
  cbn [followRedirect_loop].
  destruct (followRedirect_body network address visited current)
    as [r|e|visited' next] eqn:Hbody; [eauto..|].
  apply followRedirect_body_loop in Hbody as (Hnew & Hdom & ->).
  apply IH.
  assert (dom network ∖ (visited ∪ {[current]}) ⊂ dom network ∖ visited) as Hsub.
  { split.
    - intros x Hx. apply elem_of_difference in Hx as [Hx Hnot].
      apply elem_of_difference. split; [done|].
      intros Hv. apply Hnot, elem_of_union. by left.
    - intros Hback.
      assert (current ∈ dom network ∖ (visited ∪ {[current]})) as Hin
          by (apply Hback, elem_of_difference; done).
      apply elem_of_difference in Hin as [_ Hnot].
      apply Hnot, elem_of_union. right. by apply elem_of_singleton. }
  apply subset_size in Hsub. lia.
Qed.

Lemma followRedirect_fuel network address :
  is_Some (followRedirect network address).
Proof.
  apply followRedirect_loop_fuel.
  rewrite difference_empty_L, size_dom. lia.
Qed.

(** X5.  The redirect resolver terminates on every network and from
    every address, with a result or an error: each turn that loops has
    probed an address it had not visited, so the [size network + 1]
    turns given to the loop are never used up. *)
Theorem followRedirect_terminates network start :
  ∃ r, followRedirect network start = Some r.
Proof. apply followRedirect_fuel. Qed.

Lemma followRedirect_loop_mono fuel fuel' network start visited current r :
  (fuel <= fuel')%nat →
  followRedirect_loop fuel network start visited current = Some r →
  followRedirect_loop fuel' network start visited current = Some r.
Proof.
  revert fuel' visited current.
  induction fuel as [|fuel IH]; intros [|fuel'] visited current Hle; try done; [lia|].
  cbn [followRedirect_loop].
  destruct (followRedirect_body network start visited current); try done.
  apply IH. lia.
Qed.

(** The result of the resolver does not depend on the fuel. *)
Lemma followRedirect_any_fuel fuel network start r :
  followRedirect_loop fuel network start ∅ start = Some r →
  followRedirect network start = Some r.
Proof.
  intros H. destruct (followRedirect_fuel network start) as [r' Hr'].
  unfold followRedirect in *.
  set (top := Nat.max fuel (S (base.size network))).
  apply (followRedirect_loop_mono _ top) in H; [|lia].
  pose proof Hr' as Htop. apply (followRedirect_loop_mono _ top) in Htop; [|lia].
  congruence.
Qed.

(** *** What a resolution returns *)

Lemma followRedirect_loop_result fuel network start visited current r :
  followRedirect_loop fuel network start visited current = Some (Ok r) →
  ∃ resp, requestHeader network (address r) = Ok resp ∧
    ((statusCode resp = 200 ∨ statusCode resp = 206) ∧ final_headers r = rheaders resp
     ∨ address r ≠ start ∧ final_headers r = None ∧
       statusCode resp ≠ 200 ∧ statusCode resp ≠ 206 ∧
       ¬ 300 < statusCode resp < 400).
Proof.
  revert visited current. induction fuel as [|fuel IH]; intros visited current; [done|].
  cbn [followRedirect_loop].
  destruct (followRedirect_body network start visited current)
    as [r'|e|visited' next] eqn:Hbody; [|done|by apply IH].
  intros [= ->]. revert Hbody. unfold followRedirect_body.
  case_decide; [done|].
  destruct (requestHeader network current) as [resp|e] eqn:Hresp; [|done].
  destruct (_ || _) eqn:Hok.
  - intros [= <-]. exists resp. split; [done|]. left. split; [lia|done].
  - destruct (_ && _) eqn:Hredir.
    + repeat case_match; done.
    + case_bool_decide; [|done]. intros [= <-]. exists resp. split; [done|].
      right. cbn. repeat split; try done; lia.
Qed.

(** X6.  When the resolver returns an address, that address has answered
    its HEAD request, and either with 200 or 206, in which case the
    headers returned are those of this answer, or, at an address other
    than the one asked for, with a status that is neither 200, 206 nor a
    redirect (301 to 399), in which case no headers are returned (and no
    error is raised). *)
Theorem followRedirect_result network start r :
  followRedirect network start = Some (Ok r) →
  ∃ resp, requestHeader network (address r) = Ok resp ∧
    ((statusCode resp = 200 ∨ statusCode resp = 206) ∧ final_headers r = rheaders resp
     ∨ address r ≠ start ∧ final_headers r = None ∧
       statusCode resp ≠ 200 ∧ statusCode resp ≠ 206 ∧
       ¬ 300 < statusCode resp < 400).
Proof. apply followRedirect_loop_result. Qed.

(** X6 (witness): a redirect to an address that answers 404. *)
Lemma followRedirect_result_witness :
  let network : gmap string probe :=
    {[ "u0" := Responded 302 (Some (Scenario.moved (Some "u1")));
       "u1" := Responded 404 (Some Scenario.plain) ]} in
  let r := {| address := "u1"; final_headers := None |} in
  ∃ resp, requestHeader network (address r) = Ok resp ∧
    ((statusCode resp = 200 ∨ statusCode resp = 206) ∧ final_headers r = rheaders resp
     ∨ address r ≠ "u0" ∧ final_headers r = None ∧
       statusCode resp ≠ 200 ∧ statusCode resp ≠ 206 ∧
       ¬ 300 < statusCode resp < 400).
Proof.
  apply (followRedirect_result
           {[ "u0" := Responded 302 (Some (Scenario.moved (Some "u1")));
              "u1" := Responded 404 (Some Scenario.plain) ]}
           "u0" {| address := "u1"; final_headers := None |}).
  vm_compute. reflexivity.
Defined.

(** *** Chains and cycles of redirects *)

Lemma redirects_body network start visited a b :
  a ∉ visited → redirects network a b →
  followRedirect_body network start visited a = Loop (visited ∪ {[a]}) b.
Proof.
  intros Hnew (code & h & Hhead & Hcode & Hloc).
  unfold followRedirect_body, requestHeader.
  rewrite decide_False by done. rewrite Hhead. cbn.
  assert ((code =? 0) = false) as -> by lia.
  assert ((code =? 200) = false) as -> by lia.
  assert ((code =? 206) = false) as -> by lia.
  assert ((300 <? code) = true) as -> by lia.
  assert ((code <? 400) = true) as -> by lia.
  cbn. by rewrite Hloc.
Qed.

Lemma redirect_cycle_loop network start back hops visited current :
  NoDup (current :: hops) →
  (∀ x, x ∈ current :: hops → x ∉ visited) →
  follows network current (hops ++ [back]) →
  back ∈ visited ∨ back ∈ current :: hops →
  ∃ fuel, followRedirect_loop fuel network start visited current
          = Some (Throw (Infinite_redirect back)).
Proof.
  revert visited current.
  induction hops as [|b hops IH]; intros visited current Hnodup Hfresh Hchain Hback.
  - destruct Hchain as [Hred _]. exists 2%nat. cbn [followRedirect_loop].
    rewrite (redirects_body _ _ _ _ _ (Hfresh _ ltac:(left)) Hred).
    unfold followRedirect_body. rewrite decide_True; [done|].
    apply elem_of_union. destruct Hback as [?|Hback]; [by left|right].
    apply list_elem_of_singleton in Hback as ->. by apply elem_of_singleton.
  - destruct Hchain as [Hred Hchain].
    apply NoDup_cons in Hnodup as [Hcur Hnodup].
    destruct (IH (visited ∪ {[current]}) b Hnodup) as [fuel Hfuel]; [| done | |].
    + intros x Hx Hin. apply elem_of_union in Hin as [Hin|Hin].
      * eapply Hfresh; [right; exact Hx|done].
      * apply elem_of_singleton in Hin as ->. done.
    + destruct Hback as [?|Hback]; [left; apply elem_of_union; by left|].
      apply elem_of_cons in Hback as [->|?]; [|by right].
      left. apply elem_of_union. right. by apply elem_of_singleton.
    + exists (S fuel). cbn [followRedirect_loop].
      by rewrite (redirects_body _ _ _ _ _ (Hfresh _ ltac:(left)) Hred).
Qed.

(** X7.  A cycle of redirects is detected: when the redirects from the
    address asked for lead through distinct addresses [hops] and then
    back to one of the addresses already met, the resolver fails with
    the error [Infinite redirect] naming that address. *)
Theorem redirect_cycle_is_detected network start hops back :
  NoDup (start :: hops) →
  follows network start (hops ++ [back]) →
  back ∈ start :: hops →
  followRedirect network start = Some (Throw (Infinite_redirect back)).
Proof.
  intros Hnodup Hchain Hback.
  destruct (redirect_cycle_loop network start back hops ∅ start) as [fuel Hfuel];
    [done | intros x _; apply not_elem_of_empty | done | by right |].
  by eapply followRedirect_any_fuel.
Qed.

(** X7 (witness): [u0] redirects to [u1], which redirects to [u0]. *)
Lemma redirect_cycle_is_detected_witness :
  followRedirect
    {[ "u0" := Responded 302 (Some (Scenario.moved (Some "u1")));
       "u1" := Responded 301 (Some (Scenario.moved (Some "u0"))) ]} "u0"
  = Some (Throw (Infinite_redirect "u0")).
Proof.
  apply (redirect_cycle_is_detected _ "u0" ["u1"] "u0").
  - by apply (bool_decide_unpack _).
  - split; [|split; [|done]].
    + exists 302, (Scenario.moved (Some "u1")). split; [reflexivity|]. split; [lia|done].
    + exists 301, (Scenario.moved (Some "u0")). split; [reflexivity|]. split; [lia|done].
  - by left.
Defined.

Lemma redirect_chain_loop network start hops visited current final code h :
  NoDup (current :: hops) →
  (∀ x, x ∈ current :: hops → x ∉ visited) →
  follows network current hops →
  last (current :: hops) = Some final →
  head network final = Responded code h → code = 200 ∨ code = 206 →
  ∃ fuel, followRedirect_loop fuel network start visited current
          = Some (Ok {| address := final; final_headers := h |}).
Proof.
  intros Hnodup Hfresh Hchain Hlast Hhead Hcode.
  revert visited current Hnodup Hfresh Hchain Hlast.
  induction hops as [|b hops IH]; intros visited current Hnodup Hfresh Hchain Hlast.
  - injection Hlast as ->. exists 1%nat. cbn [followRedirect_loop].
    unfold followRedirect_body, requestHeader.
    rewrite decide_False by (apply Hfresh; left). rewrite Hhead. cbn.
    destruct Hcode as [-> | ->]; reflexivity.
  - destruct Hchain as [Hred Hchain].
    apply NoDup_cons in Hnodup as [Hcur Hnodup].
    destruct (IH (visited ∪ {[current]}) b Hnodup) as [fuel Hfuel]; [|done|done|].
    + intros x Hx Hin. apply elem_of_union in Hin as [Hin|Hin].
      * eapply Hfresh; [right; exact Hx|done].
      * apply elem_of_singleton in Hin as ->. done.
    + exists (S fuel). cbn [followRedirect_loop].
      by rewrite (redirects_body _ _ _ _ _ (Hfresh _ ltac:(left)) Hred).
Qed.

(** X8.  A chain of redirects is followed to its end: when the redirects
    from the address asked for lead through distinct addresses to an
    address that answers 200 or 206, the resolver returns that address
    with the headers of its answer, however long the chain. *)
Theorem redirect_chain_is_followed network start hops final code h :
  NoDup (start :: hops) →
  follows network start hops →
  last (start :: hops) = Some final →
  head network final = Responded code h → code = 200 ∨ code = 206 →
  followRedirect network start
  = Some (Ok {| address := final; final_headers := h |}).
Proof.
  intros Hnodup Hchain Hlast Hhead Hcode.
  destruct (redirect_chain_loop network start hops ∅ start final code h) as [fuel Hfuel];
    [done | intros x _; apply not_elem_of_empty | done..|].
  by eapply followRedirect_any_fuel.
Qed.

(** X8 (witness): [u0] redirects to [u1], which answers 200. *)
Lemma redirect_chain_is_followed_witness :
  followRedirect
    {[ "u0" := Responded 302 (Some (Scenario.moved (Some "u1")));
       "u1" := Responded 200 (Some (Scenario.ranged 42)) ]} "u0"
  = Some (Ok {| address := "u1"; final_headers := Some (Scenario.ranged 42) |}).
Proof.
  apply (redirect_chain_is_followed _ "u0" ["u1"] "u1" 200).
  - by apply (bool_decide_unpack _).
  - split; [|done].
    exists 302, (Scenario.moved (Some "u1")). split; [reflexivity|]. split; [lia|done].
  - reflexivity.
  - reflexivity.
  - by left.
Defined.

(** *** The 3xx branch *)

(** C8 (counterexample): a 300 response that carries a [location] is not
    followed; at the first address the resolver fails with the status
    instead of looping. *)
Lemma status_300_is_not_followed :
  let network : gmap string probe :=
    {[ "u0" := Responded 300 (Some (Scenario.moved (Some "u1"))) ]} in
  followRedirect_body network "u0" ∅ "u0" = Fail (Got_HTTP_response 300) ∧
  followRedirect_body network "u0" ∅ "u0" ≠ Loop (∅ ∪ {[ "u0" ]}) "u1".
Proof. split; [vm_compute; reflexivity|]. vm_compute. discriminate. Qed.

(** After a hop, a 300 response ends the resolution at the current
    address, without headers and without an error, [location] or not. *)
Example status_300_after_a_hop :
  followRedirect
    {[ "u0" := Responded 302 (Some (Scenario.moved (Some "u1")));
       "u1" := Responded 300 (Some (Scenario.moved None)) ]} "u0"
  = Some (Ok {| address := "u1"; final_headers := None |}).
Proof. vm_compute. reflexivity. Qed.

(** C8 (amended): for every HEAD response with a status from 301 to 399
    that has headers, at an address not visited before: if [location]
    is present (and not empty) the resolver records the address as
    visited, sets the current address to the location and loops; if
    [location] is missing it fails with the error that names the
    status. *)
Theorem redirect_status_branch network address visited current code h :
  current ∉ visited →
  head network current = Responded code (Some h) →
  300 < code < 400 →
  followRedirect_body network address visited current
  = match truthy (location h) with
    | Some l => Loop (visited ∪ {[current]}) l
    | None => Fail (Location_missing code)
    end.
Proof.
  intros Hnew Hhead Hcode. unfold followRedirect_body, requestHeader.
  rewrite decide_False by done. rewrite Hhead. cbn.
  assert ((code =? 0) = false) as -> by lia.
  assert ((code =? 200) = false) as -> by lia.
  assert ((code =? 206) = false) as -> by lia.
  assert ((300 <? code) = true) as -> by lia.
  assert ((code <? 400) = true) as -> by lia.
  cbn. reflexivity.
Qed.

(** C8 (witness): a 302 with a [location]. *)
Lemma redirect_status_branch_witness :
  followRedirect_body
    {[ "u0" := Responded 302 (Some (Scenario.moved (Some "u1"))) ]} "u0" ∅ "u0"
  = Loop (∅ ∪ {[ "u0" ]}) "u1".
Proof.
  apply (redirect_status_branch
           {[ "u0" := Responded 302 (Some (Scenario.moved (Some "u1"))) ]}
           "u0" ∅ "u0" 302 (Scenario.moved (Some "u1"))).
  - set_solver.
  - reflexivity.
  - lia.
Defined.

(** The redirect chain and the redirect loop of the scenarios. *)
Example redirect_chain :
  followRedirect
    {[ "u0" := Responded 302 (Some (Scenario.moved (Some "u1")));
       "u1" := Responded 302 (Some (Scenario.moved (Some "u2")));
       "u2" := Responded 200 (Some {| content_length := Some 42;
                                      accept_ranges := None;
                                      location := None |}) ]} "u0"
  = Some (Ok {| address := "u2";
                final_headers := Some {| content_length := Some 42;
                                         accept_ranges := None;
                                         location := None |} |}).
Proof. vm_compute. reflexivity. Qed.

Example redirect_loop :
  followRedirect
    {[ "u0" := Responded 302 (Some (Scenario.moved (Some "u1")));
       "u1" := Responded 302 (Some (Scenario.moved (Some "u0"))) ]} "u0"
  = Some (Throw (Infinite_redirect "u0")).
Proof. vm_compute. reflexivity. Qed.

End RequestFacts.

(** ** The chunk cleaner *)

Module UtilsFacts.
Import Fs Utils.

(** *** The pattern *)

Lemma append_cons c s t : String c s +:+ t = String c (s +:+ t).
Proof. reflexivity. Qed.

Lemma append_nil t : EmptyString +:+ t = t.
Proof. reflexivity. Qed.

Lemma digits_then_end_sound seen s :
  digits_then_end seen s = true →
  ∃ digits part, s = digits +:+ part ∧ all_digits digits = true ∧
                 (part = EmptyString ∨ part = "$PART") ∧
                 (seen = false → digits ≠ EmptyString).
Proof.
  revert seen. induction s as [|c rest IH]; intros seen; cbn [digits_then_end].
  - intros ->. exists EmptyString, EmptyString. repeat split; auto; done.
  - destruct (is_digit c) eqn:Hc.
    + intros H. destruct (IH true H) as (digits & part & -> & Hd & Hp & _).
      exists (String c digits), part. cbn. rewrite Hc, Hd. repeat split; auto; done.
    + intros H. apply andb_prop in H as [-> H]. apply String.eqb_eq in H.
      exists EmptyString, (String c rest). repeat split; auto; done.
Qed.

Lemma tail_matches_sound s :
  tail_matches s = true →
  ∃ digits part, s = ".$$" +:+ digits +:+ part ∧ digits ≠ EmptyString ∧
                 all_digits digits = true ∧ (part = EmptyString ∨ part = "$PART").
Proof.
  destruct s as [|a [|b [|c rest]]]; try done. cbn [tail_matches].
  intros H. apply andb_prop in H as [H Hrest].
  apply andb_prop in H as [H Hc]. apply andb_prop in H as [Ha Hb].
  apply Ascii.eqb_eq in Ha as ->, Hb as ->, Hc as ->.
  destruct (digits_then_end_sound false rest Hrest) as (digits & part & -> & Hd & Hp & Hne).
  exists digits, part. repeat split; auto.
Qed.

Lemma owner_at_sound s owner :
  owner_at s = Some owner →
  owner ≠ EmptyString ∧ one_line owner = true ∧
  ∃ tail, s = owner +:+ tail ∧ tail_matches tail = true.
Proof.
  revert owner. induction s as [|c rest IH]; intros owner; [done|].
  cbn [owner_at]. destruct (line_terminator c) eqn:Hc; [done|].
  destruct (owner_at rest) as [p|].
  - intros [= <-]. destruct (IH p eq_refl) as (Hne & Hline & tail & -> & Htail).
    split; [done|]. split; [cbn; by rewrite Hc|]. by exists tail.
  - destruct (tail_matches rest) eqn:Htail; [|done]. intros [= <-].
    split; [done|]. split; [cbn; by rewrite Hc|]. by exists rest.
Qed.

(** X9.  What the pattern of [clean] accepts: when [regex.exec(file)]
    matches, the name ends with [.$$], one or more decimal digits and
    possibly [$PART], and group 1 is a non-empty run of characters
    without a line terminator that stands right before this ending. *)
Theorem regex_exec_sound s owner :
  regex_exec s = Some owner →
  owner ≠ EmptyString ∧ one_line owner = true ∧
  ∃ before digits part,
    s = before +:+ owner +:+ ".$$" +:+ digits +:+ part ∧
    digits ≠ EmptyString ∧ all_digits digits = true ∧
    (part = EmptyString ∨ part = "$PART").
Proof.
  induction s as [|c rest IH]; [done|].
  cbn [regex_exec]. destruct (owner_at (String c rest)) as [p|] eqn:Hp.
  - intros [= ->]. apply owner_at_sound in Hp as (Hne & Hline & tail & -> & Htail).
    apply tail_matches_sound in Htail as (digits & part & -> & Hd & Hall & Hpart).
    split; [done|]. split; [done|]. by exists EmptyString, digits, part.
  - intros H. destruct (IH H) as (Hne & Hline & before & digits & part & -> & Hd).
    split; [done|]. split; [done|]. by exists (String c before), digits, part.
Qed.

(** X9 (witness): the name of a [$PART] file. *)
Lemma regex_exec_sound_witness :
  "f.bin" ≠ EmptyString ∧ one_line "f.bin" = true ∧
  ∃ before digits part,
    "f.bin.$$12$PART" = before +:+ "f.bin" +:+ ".$$" +:+ digits +:+ part ∧
    digits ≠ EmptyString ∧ all_digits digits = true ∧
    (part = EmptyString ∨ part = "$PART").
Proof. apply (regex_exec_sound "f.bin.$$12$PART" "f.bin"). reflexivity. Defined.

(** *** Names the downloader gives *)

Lemma is_digit_one_line c : is_digit c = true → line_terminator c = false.
Proof.
  unfold is_digit, line_terminator. intros H. apply andb_prop in H as [H1 H2].
  apply Nat.leb_le in H1, H2.
  destruct (Ascii.eqb_spec c "010") as [->|_]; [vm_compute in H1; lia|].
  destruct (Ascii.eqb_spec c "013") as [->|_]; [vm_compute in H1; lia|]. done.
Qed.

Lemma tail_matches_not_dot c rest :
  Ascii.eqb c "." = false → tail_matches (String c rest) = false.
Proof.
  intros H. destruct rest as [|b [|d rest]]; try done. cbn [tail_matches].
  by rewrite H.
Qed.

Lemma is_digit_not_dot c rest :
  is_digit c = true → tail_matches (String c rest) = false.
Proof.
  intros H. apply tail_matches_not_dot.
  destruct (Ascii.eqb_spec c ".") as [->|_]; done.
Qed.

Lemma digits_then_end_complete seen digits part :
  all_digits digits = true → part = EmptyString ∨ part = "$PART" →
  seen = true ∨ digits ≠ EmptyString →
  digits_then_end seen (digits +:+ part) = true.
Proof.
  revert seen. induction digits as [|c digits IH]; intros seen Hall Hpart Hseen.
  - destruct Hseen as [->|?]; [|done]. by destruct Hpart as [-> | ->].
  - cbn [all_digits] in Hall. apply andb_prop in Hall as [Hc Hall].
    rewrite append_cons. cbn [digits_then_end]. rewrite Hc. apply IH; auto.
Qed.

Lemma owner_at_digits digits part :
  all_digits digits = true → part = EmptyString ∨ part = "$PART" →
  owner_at (digits +:+ part) = None.
Proof.
  intros Hall Hpart. induction digits as [|c digits IH].
  - by destruct Hpart as [-> | ->].
  - cbn [all_digits] in Hall. apply andb_prop in Hall as [Hc Hall].
    rewrite append_cons. cbn [owner_at].
    rewrite (is_digit_one_line c Hc), (IH Hall).
    destruct digits as [|d digits].
    + by destruct Hpart as [-> | ->].
    + cbn [all_digits] in Hall. apply andb_prop in Hall as [Hd _].
      rewrite append_cons. by rewrite is_digit_not_dot.
Qed.

Lemma owner_at_cons_None c rest :
  owner_at rest = None → tail_matches rest = false →
  owner_at (String c rest) = None.
Proof. intros H1 H2. cbn [owner_at]. rewrite H1, H2. by destruct (line_terminator c). Qed.

Lemma owner_at_tail digits part :
  all_digits digits = true → part = EmptyString ∨ part = "$PART" →
  digits ≠ EmptyString →
  owner_at (".$$" +:+ digits +:+ part) = None.
Proof.
  intros Hall Hpart Hne. destruct digits as [|d digits]; [done|].
  pose proof Hall as Hall'. cbn [all_digits] in Hall'.
  apply andb_prop in Hall' as [Hd _].
  pose proof (owner_at_digits (String d digits) part Hall Hpart) as Hnone.
  rewrite !append_cons, append_nil in *.
  apply owner_at_cons_None; [|by apply tail_matches_not_dot].
  apply owner_at_cons_None; [|by apply tail_matches_not_dot].
  apply owner_at_cons_None; [exact Hnone|by apply is_digit_not_dot].
Qed.

Lemma chunk_names_are_recognised base digits part :
  base ≠ EmptyString → one_line base = true →
  digits ≠ EmptyString → all_digits digits = true →
  part = EmptyString ∨ part = "$PART" →
  regex_exec (base +:+ ".$$" +:+ digits +:+ part) = Some base.
Proof.
  intros Hne Hline Hd Hall Hpart.
  assert (owner_at (base +:+ ".$$" +:+ digits +:+ part) = Some base) as Hown.
  { induction base as [|c base IH]; [done|].
    cbn [one_line] in Hline. apply andb_prop in Hline as [Hc Hline].
    apply negb_true_iff in Hc. rewrite append_cons. cbn [owner_at]. rewrite Hc.
    destruct base as [|c' base].
    - rewrite append_nil, (owner_at_tail digits part Hall Hpart Hd).
      rewrite !append_cons, append_nil. cbn [tail_matches].
      rewrite digits_then_end_complete by auto. reflexivity.
    - by rewrite IH. }
  destruct base as [|c base]; [done|].
  rewrite append_cons in *. cbn [regex_exec]. by rewrite Hown.
Qed.

Lemma append_assoc (s t u : string) : (s +:+ t) +:+ u = s +:+ t +:+ u.
Proof. induction s as [|c s IH]; [done|]. by rewrite !append_cons, IH. Qed.

Lemma append_nil_r (s : string) : s +:+ EmptyString = s.
Proof. induction s as [|c s IH]; [done|]. by rewrite append_cons, IH. Qed.

Lemma pretty_N_char_digit x : is_digit (pretty_N_char x) = true.
Proof. unfold pretty_N_char. by repeat case_match. Qed.

Lemma pretty_N_go_digits x s :
  all_digits s = true → all_digits (pretty_N_go x s) = true.
Proof.
  revert s. induction (N.lt_wf_0 x) as [x _ IH]; intros s Hs.
  assert (x = 0 ∨ 0 < x)%N as [->|?] by lia; [by rewrite pretty_N_go_0|].
  rewrite pretty_N_go_step by done. apply IH; [by apply N.div_lt|].
  cbn [all_digits]. by rewrite pretty_N_char_digit.
Qed.

Lemma pretty_N_go_length x s :
  (String.length s <= String.length (pretty_N_go x s))%nat.
Proof.
  revert s. induction (N.lt_wf_0 x) as [x _ IH]; intros s.
  assert (x = 0 ∨ 0 < x)%N as [->|?] by lia; [by rewrite pretty_N_go_0|].
  rewrite pretty_N_go_step by done.
  etrans; [|by eapply IH, N.div_lt]. simpl. lia.
Qed.

Lemma pretty_nat_digits (n : nat) :
  pretty n ≠ EmptyString ∧ all_digits (pretty n) = true.
Proof.
  unfold pretty, pretty_nat, pretty, pretty_N. case_decide as Hn; [done|].
  split; [|by apply pretty_N_go_digits].
  rewrite pretty_N_go_step by lia. intros Hempty.
  pose proof (pretty_N_go_length (N.of_nat n `div` 10)
                (String (pretty_N_char (N.of_nat n `mod` 10)) EmptyString)) as Hlen.
  rewrite Hempty in Hlen. simpl in Hlen. lia.
Qed.

(** X10.  The names the downloader gives to the chunk files of a
    destination, [`${name}.$$${id}`] and [`${name}.$$${id}$PART`], are
    recognised by the pattern of [clean] for every chunk number [id],
    and group 1 is the name of the destination (non-empty and without a
    line terminator), even when that name itself ends like a chunk
    file. *)
Theorem clean_recognises_chunk_files base (id : nat) :
  base ≠ EmptyString → one_line base = true →
  regex_exec (base +:+ ".$$" +:+ pretty id) = Some base ∧
  regex_exec ((base +:+ ".$$" +:+ pretty id) +:+ "$PART") = Some base.
Proof.
  intros Hne Hline. destruct (pretty_nat_digits id) as [Hd Hall]. split.
  - replace (pretty id) with (pretty id +:+ EmptyString) by apply append_nil_r.
    by apply chunk_names_are_recognised; auto.
  - rewrite !append_assoc. by apply chunk_names_are_recognised; auto.
Qed.

(** X10 (witness): chunk 12 of [f.bin]. *)
Lemma clean_recognises_chunk_files_witness :
  regex_exec ("f.bin" +:+ ".$$" +:+ pretty 12%nat) = Some "f.bin" ∧
  regex_exec (("f.bin" +:+ ".$$" +:+ pretty 12%nat) +:+ "$PART") = Some "f.bin".
Proof. apply (clean_recognises_chunk_files "f.bin" 12); [discriminate | reflexivity]. Defined.

(** *** [clean] *)

Lemma rm_lookup loc disk disk' p :
  rm loc disk = Ok disk' →
  disk' !! loc = None ∧ (p ≠ loc → disk' !! p = disk !! p).
Proof.
  unfold rm. destruct (disk !! loc) as [s|]; [|done].
  destruct (isDirectory s); [done|]. intros [= <-].
  split; [apply lookup_delete_eq|]. intros. by apply lookup_delete_ne.
Qed.

(** The loop deletes the files it does not skip, and only those; it
    returns their paths in the order of the listing. *)
Lemma clean_loop_spec path targetFile folder files deleted disk r disk' :
  clean_loop path targetFile folder files deleted disk = (r, disk') →
  let kept := filter (λ file, skips targetFile (regex_exec file) = false) files in
  (∀ p, disk' !! p = disk !! p ∨
        disk' !! p = None ∧
        ∃ file, file ∈ kept ∧ p = join path folder file) ∧
  (∀ e, r ≠ Thrown (Invalid_location e)) ∧
  (∀ paths, r = Deleted paths →
     paths = deleted ++ map (join path folder) kept ∧
     ∀ p, p ∈ map (join path folder) kept → disk' !! p = None).
Proof.
  revert deleted disk. induction files as [|file files IH]; intros deleted disk.
  - intros [= <- <-]. cbn. split; [by left|]. split; [done|].
    intros paths [= <-]. split; [by rewrite app_nil_r|]. intros p Hp. by apply elem_of_nil in Hp.
  - cbn [clean_loop]. cbv zeta. destruct (skips targetFile (regex_exec file)) eqn:Hskip.
    + intros H. rewrite filter_cons_False by (by rewrite Hskip). by apply IH.
    + rewrite filter_cons_True by done.
      destruct (rm (join path folder file) disk) as [disk1|e] eqn:Hrm.
      * intros H. destruct (IH _ _ H) as (Hframe & Hne & Hres).
        split; [|split; [done|]].
        -- intros p. destruct (decide (p = join path folder file)) as [->|Hp].
           ++ right. split; [|exists file; split; [left|done]].
              destruct (Hframe (join path folder file)) as [-> | [? _]]; [|done].
              by apply (rm_lookup _ _ _ (join path folder file)) in Hrm as [? _].
           ++ destruct (Hframe p) as [-> | [? (f & Hf & ->)]].
              ** left. by apply (rm_lookup _ _ _ p) in Hrm as [_ ->].
              ** right. split; [done|]. exists f. split; [by right|done].
        -- intros paths Hpaths. destruct (Hres _ Hpaths) as [-> Hgone].
           split; [by rewrite <- app_assoc|].
           intros p Hp. cbn [map] in Hp. apply elem_of_cons in Hp as [->|Hp]; [|by apply Hgone].
           destruct (Hframe (join path folder file)) as [-> | [? _]]; [|done].
           by apply (rm_lookup _ _ _ (join path folder file)) in Hrm as [? _].
      * intros [= <- <-]. split; [by left|]. split; [done|]. done.
Qed.

Lemma ls_Ok listing loc files : ls listing loc = Ok files → listing !! loc = Some files.
Proof. unfold ls. destruct (listing !! loc); [|done]. by intros [= ->]. Qed.


(** X12.  Whatever [clean(loc)] comes to, it only ever deletes: a path
    whose entry on the disk differs afterwards is gone, and it is an
    entry of the folder cleaned whose name matches the pattern; when
    [loc] names a (missing) file the folder is the parent of [loc] and
    group 1 of the match is the base name of [loc]. *)
Theorem clean_only_deletes_chunk_files path listing loc disk r disk' p :
  clean path listing loc disk = (r, disk') →
  disk' !! p ≠ disk !! p →
  disk' !! p = None ∧
  ∃ folder files file owner,
    listing !! folder = Some files ∧ file ∈ files ∧ p = join path folder file ∧
    regex_exec file = Some owner ∧
    match disk !! loc with
    | Some _ => folder = loc
    | None => folder = dir (parse path loc) ∧ owner = base (parse path loc)
    end.
Proof.
  unfold clean, fileStats. intros Hclean Hp.
  assert (∀ targetFile folder s,
            (if isDirectory s
             then match ls listing folder with
                  | Ok files => clean_loop path targetFile folder files [] disk
                  | Throw e => (Thrown (Fs_failure e), disk)
                  end
             else (Thrown (Invalid_location loc), disk)) = (r, disk') →
            disk' !! p = None ∧
            ∃ files file owner,
              listing !! folder = Some files ∧ file ∈ files ∧ p = join path folder file ∧
              regex_exec file = Some owner ∧
              (∀ t, targetFile = Some t → owner = t)) as Hcase.
  { intros targetFile folder s H. destruct (isDirectory s); [|by simplify_eq].
    destruct (ls listing folder) as [files|e] eqn:Hls; [|by simplify_eq].
    apply ls_Ok in Hls.
    destruct (clean_loop_spec _ _ _ _ _ _ _ _ H) as (Hframe & _).
    destruct (Hframe p) as [?|[Hgone (file & Hfile & ->)]]; [done|].
    split; [done|]. apply list_elem_of_filter in Hfile as [Hkept Hfile].
    unfold skips in Hkept. apply orb_false_iff in Hkept as [Hcap Hkept].
    apply bool_decide_eq_false in Hcap.
    destruct (regex_exec file) as [owner|] eqn:Hexec; [|done].
    exists files, file, owner. repeat split; try done.
    intros t ->. rewrite bool_decide_eq_true_2 in Hkept by done.
    apply bool_decide_eq_false in Hkept. apply dec_stable in Hkept. by simplify_eq. }
  destruct (disk !! loc) as [s|].
  - destruct (Hcase _ _ _ Hclean) as (Hgone & files & file & owner & ? & ? & ? & ? & _).
    split; [done|]. by exists loc, files, file, owner.
  - destruct (disk !! dir (parse path loc)) as [s|]; [|by simplify_eq].
    destruct (Hcase _ _ _ Hclean) as (Hgone & files & file & owner & ? & ? & ? & ? & Hown).
    split; [done|]. exists (dir (parse path loc)), files, file, owner.
    repeat split; try done. by apply Hown.
Qed.

(** X12 (witness): cleaning after [/dl/f.bin] removes chunk 0. *)
Lemma clean_only_deletes_chunk_files_witness :
  let after :=
    (clean Scenario.posix Scenario.cluttered_listing "/dl/f.bin" Scenario.cluttered).2 in
  after !! "/dl/f.bin.$$0" = None ∧
  ∃ folder files file owner,
    Scenario.cluttered_listing !! folder = Some files ∧ file ∈ files ∧
    "/dl/f.bin.$$0" = join Scenario.posix folder file ∧
    regex_exec file = Some owner ∧
    match Scenario.cluttered !! "/dl/f.bin" with
    | Some _ => folder = "/dl/f.bin"
    | None => folder = dir (parse Scenario.posix "/dl/f.bin") ∧
              owner = base (parse Scenario.posix "/dl/f.bin")
    end.
Proof.
  apply (clean_only_deletes_chunk_files
           Scenario.posix Scenario.cluttered_listing "/dl/f.bin" Scenario.cluttered
           (clean Scenario.posix Scenario.cluttered_listing "/dl/f.bin"
                  Scenario.cluttered).1).
  - apply surjective_pairing.
  - vm_compute. discriminate.
Defined.

(** X13.  When [clean(loc)] returns, the paths it returns are those of
    the entries of the folder that the loop does not skip (every name
    that matches the pattern when [loc] is a directory, the names whose
    group 1 is the base name of [loc] when [loc] does not exist), joined
    to the folder and in the order of the listing; none of them is on
    the disk any more. *)
Theorem clean_returns_what_it_deleted path listing loc disk paths disk' :
  clean path listing loc disk = (Deleted paths, disk') →
  ∃ targetFile folder files,
    (targetFile, folder)
    = match disk !! loc with
      | Some _ => (None, loc)
      | None => (Some (base (parse path loc)), dir (parse path loc))
      end ∧
    listing !! folder = Some files ∧
    paths = map (join path folder)
              (filter (λ file, skips targetFile (regex_exec file) = false) files) ∧
    ∀ p, p ∈ paths → disk' !! p = None.
Proof.
  unfold clean, fileStats. intros Hclean.
  assert (∀ targetFile folder s,
            (if isDirectory s
             then match ls listing folder with
                  | Ok files => clean_loop path targetFile folder files [] disk
                  | Throw e => (Thrown (Fs_failure e), disk)
                  end
             else (Thrown (Invalid_location loc), disk)) = (Deleted paths, disk') →
            ∃ files, listing !! folder = Some files ∧
              paths = map (join path folder)
                        (filter (λ file, skips targetFile (regex_exec file) = false) files) ∧
              ∀ p, p ∈ paths → disk' !! p = None) as Hcase.
  { intros targetFile folder s H. destruct (isDirectory s); [|done].
    destruct (ls listing folder) as [files|e] eqn:Hls; [|done].
    apply ls_Ok in Hls.
    destruct (clean_loop_spec _ _ _ _ _ _ _ _ H) as (_ & _ & Hres).
    destruct (Hres paths eq_refl) as [-> Hgone]. by exists files. }
  destruct (disk !! loc) as [s|].
  - destruct (Hcase _ _ _ Hclean) as (files & ? & ? & ?). by exists None, loc, files.
  - destruct (disk !! dir (parse path loc)) as [s|]; [|done].
    destruct (Hcase _ _ _ Hclean) as (files & ? & ? & ?).
    by exists (Some (base (parse path loc))), (dir (parse path loc)), files.
Qed.
(** X13 (witness): cleaning after [/dl/f.bin] in a folder that also
    holds a chunk of [g.bin] and a file that is no chunk. *)
Lemma clean_returns_what_it_deleted_witness :
  let paths := ["/dl/f.bin.$$0"; "/dl/f.bin.$$2$PART"] in
  let after :=
    (clean Scenario.posix Scenario.cluttered_listing "/dl/f.bin" Scenario.cluttered).2 in
  ∃ targetFile folder files,
    (targetFile, folder)
    = match Scenario.cluttered !! "/dl/f.bin" with
      | Some _ => (None, "/dl/f.bin")
      | None => (Some (base (parse Scenario.posix "/dl/f.bin")),
                 dir (parse Scenario.posix "/dl/f.bin"))
      end ∧
    Scenario.cluttered_listing !! folder = Some files ∧
    paths = map (join Scenario.posix folder)
              (filter (λ file, skips targetFile (regex_exec file) = false) files) ∧
    ∀ p, p ∈ paths → after !! p = None.
Proof.
  apply (clean_returns_what_it_deleted
           Scenario.posix Scenario.cluttered_listing "/dl/f.bin" Scenario.cluttered).
  vm_compute. reflexivity.
Defined.

End UtilsFacts.

(** ** The coordinator *)

Module EasyDlFacts.
Import Request EasyDl.

(** Reads of fields through updates. *)
Ltac simpl_fields :=
  cbn; unfold RecordSettersUsingExistingGetters.const; cbn.

(** *** [destroy] *)

Lemma destroy_destroyed w : _destroyed (destroy w) = true.
Proof. unfold destroy. destruct (_destroyed w) eqn:H; cbn; done. Qed.

(** [destroy] is idempotent: a second call changes nothing. *)
Lemma destroy_idempotent w : destroy (destroy w) = destroy w.
Proof.
  unfold destroy at 1. rewrite destroy_destroyed. reflexivity.
Qed.

Lemma destroy_trace w :
  trace (destroy w) = if _destroyed w then trace w else Emit ev_close :: trace w.
Proof. unfold destroy. destruct (_destroyed w); reflexivity. Qed.

(** *** What the first awaits of [_start] leave untouched *)

Lemma _ensureDest_loop_frame fuel w w' :
  _ensureDest_loop fuel w = Done w' →
  w' = w <| savedFilePath := savedFilePath w' |>.
Proof.
  revert w. induction fuel as [|fuel IH]; intros w; [done|].
  cbn [_ensureDest_loop].
  destruct (savedFilePath w) as [saved|] eqn:Hsaved.
  - destruct (Fs.fileStats (disk w) saved) as [stats|].
    + destruct (Fs.isDirectory stats).
      * intros H. apply IH in H. rewrite H. by destruct w.
      * destruct (existBehavior (_opts w)).
        -- intros H. apply IH in H. rewrite H. by destruct w.
        -- intros [= <-]. by destruct w.
        -- intros H. apply IH in H. rewrite H. by destruct w.
    + intros [= <-]. by destruct w.
  - intros [= <-]. by destruct w.
Qed.

Lemma _getHeaders_frame w w' :
  _getHeaders w = Done w' →
  w' = w <| finalAddress := finalAddress w' |> <| headers_ := headers_ w' |>.
Proof.
  unfold _getHeaders. repeat case_match; try done; intros [= <-]; by destruct w.
Qed.

(** *** Files smaller than the number of connections *)

(** C9: for a size [s] with [1 <= s < connections] and a fixed chunk
    size of at least 1, in parallel mode (the destination resolved and
    validated, the HEAD response giving [content-length: s] and
    [accept-ranges: bytes]): the planner shrinks the chunk size to 0,
    the chunk count is [Infinity], [_calcRanges] throws, and [_start]
    emits [error], destroys the session (emitting [close]) and leaves
    [_ranges] without a plan. *)
Theorem small_file_start_fails w w1 w2 saved h s cs :
  _started w = false → _destroyed w = false →
  _ensureDest (w <| _started := true |>) = Done w1 →
  savedFilePath w1 = Some saved →
  Fs.validate (path w1) (disk w1) saved = true →
  _getHeaders w1 = Done w2 →
  headers_ w2 = Some h →
  content_length h = Some s → accept_ranges h = Some "bytes" →
  chunkSize (_opts w) = Planner.Fixed cs → 1 <= cs →
  1 <= s < connections (_opts w) →
  Planner.shrink s (connections (_opts w)) cs = (0, s) ∧
  Planner.chunk_count s 0 s = Js.PInf ∧
  Planner.calcRanges s (connections (_opts w)) (Planner.Fixed cs)
  = Throw RangeError_invalid_array_length ∧
  trace (_start w)
  = Emit ev_close :: Emit (ev_error RangeError_invalid_array_length) :: trace w ∧
  _destroyed (_start w) = true ∧
  _ranges (_start w) = _ranges w.
Proof.
  intros Hstarted Hlive Hensure Hsaved Hvalid Hget Hh Hlen Hacc Hcs Hcs1 Hs.
  pose proof (PlannerFacts.calcRanges_small_throws s _ cs Hs Hcs1) as Hthrow.
  split; [by apply PlannerFacts.shrink_small|].
  split; [apply PlannerFacts.chunk_count_zero_chunkSize; lia|].
  split; [done|].
  pose proof (_ensureDest_loop_frame _ _ _ Hensure) as F1.
  pose proof (_getHeaders_frame _ _ Hget) as F2.
  assert (_opts w2 = _opts w) as Hopts by (rewrite F2, F1; reflexivity).
  assert (trace w2 = trace w) as Htrace by (rewrite F2, F1; reflexivity).
  assert (_destroyed w2 = false) as Hlive2 by (rewrite F2, F1; exact Hlive).
  assert (_ranges w2 = _ranges w) as Hranges by (rewrite F2, F1; reflexivity).
  assert (_start w
          = destroy (emit (ev_error RangeError_invalid_array_length)
                          (w2 <| size := s |>))) as ->.
  { unfold _start. rewrite Hstarted. cbn. rewrite Hlive.
    unfold _start_try. rewrite Hensure. cbn [and_then].
    rewrite Hsaved, Hvalid. cbn [negb]. rewrite Hget. cbn [and_then].
    rewrite Hh. cbn. rewrite Hlen, Hacc, Hopts.
    assert ((connections (_opts w) =? 1) = false) as -> by lia.
    cbn [negb andb]. rewrite bool_decide_eq_true_2 by done.
    unfold _calcRanges. simpl_fields. rewrite Hopts, Hcs, Hthrow. reflexivity. }
  rewrite destroy_destroyed, destroy_trace. cbn.
  rewrite Hlive2, Htrace.
  repeat split. unfold destroy. cbn. rewrite Hlive2. cbn. exact Hranges.
Qed.

(** C9 (witness): three bytes, five connections. *)
Lemma small_file_start_fails_witness :
  trace (_start Scenario.small_file)
  = [Emit ev_close; Emit (ev_error RangeError_invalid_array_length)] ∧
  _destroyed (_start Scenario.small_file) = true.
Proof.
  pose proof (small_file_start_fails
                Scenario.small_file
                (Scenario.small_file <| _started := true |>)
                (Scenario.small_file <| _started := true |>
                   <| headers_ := Some (Scenario.ranged 3) |>)
                Scenario.dest (Scenario.ranged 3) 3 1000
                eq_refl eq_refl) as H.
  destruct H as (_ & _ & _ & Htrace & Hdestroyed & _);
    [vm_compute; reflexivity | reflexivity | vm_compute; reflexivity
    | vm_compute; reflexivity | reflexivity | reflexivity | reflexivity
    | reflexivity | lia | cbn; lia | ].
  split; [exact Htrace | exact Hdestroyed].
Defined.

(** *** The [ignore] policy *)

(** With the [ignore] policy and an existing destination file,
    [_ensureDest] resolves the destination to [null] and [_start]
    returns at once: nothing is emitted and the session is not
    destroyed. *)
Lemma ignore_existing_returns w saved stats :
  _started w = false → _destroyed w = false →
  existBehavior (_opts w) = ignore →
  savedFilePath w = Some saved →
  disk w !! saved = Some stats → Fs.isDirectory stats = false →
  _start w = w <| _started := true |> <| savedFilePath := None |>.
Proof.
  intros Hstarted Hlive Hignore Hsaved Hdisk Hfile.
  unfold _start. rewrite Hstarted. cbn. rewrite Hlive.
  unfold _start_try, _ensureDest. cbn. rewrite Hsaved. unfold Fs.fileStats.
  rewrite Hdisk, Hfile, Hignore. cbn. reflexivity.
Qed.

(** C5 (the code at the failing input): the destination [/dl/f.bin]
    exists and the policy is [ignore]; the start procedure resolves the
    destination to [null] and returns without emitting anything: no
    [end], no [error], and no [close] either; the session is left
    started and not destroyed. *)
Theorem ignore_policy_emits_nothing :
  let w := run [tick_start] Scenario.ignoring in
  savedFilePath w = None ∧ events w = [] ∧ trace w = [] ∧
  _started w = true ∧ _destroyed w = false.
Proof. vm_compute. repeat split. Qed.

(** *** Events after [close] *)

(** C6 (the code at the failing input): the server refuses every chunk
    request of a two-chunk session.  Worker 1 exhausts its attempts,
    emits [error] and destroys the session, which emits [close]; worker
    0 then wakes from its last sleep, finds its loop ended and emits
    [error] as well: after [close]. *)
Theorem error_after_close :
  let w := run Scenario.server_down Scenario.two_chunks in
  tail (events w)
  = [ev_retry 1 1 (Chunk_status 503 1); ev_retry 0 1 (Chunk_status 503 0);
     ev_retry 1 2 (Chunk_status 503 1); ev_retry 0 2 (Chunk_status 503 0);
     ev_retry 1 3 (Chunk_status 503 1); ev_retry 0 3 (Chunk_status 503 0);
     ev_error (Chunk_failed 1 (Some (5, 9)));
     ev_close;
     ev_error (Chunk_failed 0 (Some (0, 4)))] ∧
  last (events w) ≠ Some ev_close.
Proof. vm_compute. split; [reflexivity | discriminate]. Qed.

(** A [destroy] of the host during assembly does not stop the
    assembler: [build] and [end] follow [close]. *)
Example build_and_end_after_close :
  let w := run Scenario.destroyed_while_assembling Scenario.two_chunks in
  drop 3 (events w)
  = [ev_build (Js.of_Z 0); ev_close;
     ev_build (Js.scale 100 (Js.div 0 2)); ev_build (Js.scale 100 (Js.div 1 2));
     ev_end] ∧
  _done w = true.
Proof. vm_compute. split; reflexivity. Qed.

(** *** Speed over an empty interval *)



(** The execution itself: the rename of the fast chunk completes in the
    millisecond of its only [data] event, and the [progress] event that
    [_onChunkCompleted] forces reports [Infinity] for chunk 1. *)
Example infinite_speed_is_delivered :
  let w := run (Scenario.fast_chunk ++ [renamed 1 None 7 7]) Scenario.two_chunks in
  last (events w)
  = Some (ev_progress
            {| speed := Js.div 5000 7; bytes := 5; percentage := Js.div 500 10 |}
            [progress0;
             {| speed := Js.PInf; bytes := 5; percentage := Js.div 500 5 |}]).
Proof. vm_compute. reflexivity. Qed.

(** *** Executions *)

Lemma run_app inputs1 inputs2 w :
  run (inputs1 ++ inputs2) w = run inputs2 (run inputs1 w).
Proof. unfold run. apply foldl_app. Qed.


(** *** Retries *)






(** An attempt that fails in transit is not retried: the [error] handler
    of the request emits [error] and leaves the [error] variable of the
    attempt alone, so the worker renames what has arrived. *)
Example transport_error_is_not_retried :
  let w := run Scenario.reset_chunk Scenario.two_chunks in
  Scenario.requests_and_sleeps w
  = [Get 1 Scenario.url (Some (5, 9)); Get 0 Scenario.url (Some (0, 4))] ∧
  (∃ m total details,
     events w = [ev_metadata m; ev_error (External "ECONNRESET");
                 ev_progress total details]) ∧
  disk w !! chunkFile w 1 = Some (Fs.file 2) ∧
  _downloadedChunks w = 1%nat.
Proof. vm_compute. repeat split. eexists _, _, _. reflexivity. Qed.

(** *** Completed chunk files *)










(** *** The resume scanner *)

(** C4 (amended): for a planned chunk [i] with range [lo, hi], one turn
    of the scanner classifies the file [P.$$<i>]: absent, it enqueues
    [i]; larger than the range, it throws (the fatal error of [_start]);
    of exactly the range length, it marks the chunk complete (one more
    downloaded chunk, its bytes added to the total, the chunk at 100%
    with these bytes, [isResume] set) and does not enqueue it; smaller
    than the range, it enqueues [i] and leaves the file on disk.  No
    case changes the disk. *)
Theorem syncJobs_classifies w i lo hi :
  _ranges w !! i = Some (lo, hi) →
  (i < length (partsProgress w))%nat →
  let len := hi - lo + 1 in
  match disk w !! chunkFile w i with
  | None =>
      ∃ w', _syncJobs_body i w = Done w' ∧ _jobs w' = _jobs w ++ [i] ∧
            _downloadedChunks w' = _downloadedChunks w ∧ disk w' = disk w
  | Some stats =>
      if len <? Fs.size stats
      then ∃ w', _syncJobs_body i w = Raised (Chunk_oversize len (Fs.size stats)) w' ∧
                 disk w' = disk w
      else if Fs.size stats =? len
      then ∃ w', _syncJobs_body i w = Done w' ∧ _jobs w' = _jobs w ∧
                 _downloadedChunks w' = S (_downloadedChunks w) ∧
                 bytes (totalProgress w') = len + bytes (totalProgress w) ∧
                 partsProgress w' !! i
                 = Some {| speed := Js.of_Z 0; bytes := len;
                           percentage := Js.of_Z 100 |} ∧
                 isResume w' = true ∧ disk w' = disk w
      else ∃ w', _syncJobs_body i w = Done w' ∧ _jobs w' = _jobs w ++ [i] ∧
                 _downloadedChunks w' = _downloadedChunks w ∧ disk w' = disk w
  end.
Proof.
  intros Hrange Hi len. unfold _syncJobs_body, Fs.fileStats, chunkFile.
  destruct w; simpl in *. rewrite Hrange. fold len.
  destruct (disk0 !! _) as [stats|]; [|eexists; repeat split; reflexivity].
  destruct (len <? Fs.size stats); [eexists; repeat split; reflexivity|].
  destruct (Fs.size stats =? len); [|eexists; repeat split; reflexivity].
  eexists. split; [reflexivity|]. simpl.
  rewrite !list_lookup_insert_eq by (by rewrite ?length_insert).
  repeat split; reflexivity.
Qed.

(** C4 (witness): the turn for the short chunk file. *)
Lemma syncJobs_classifies_witness :
  ∃ w', _syncJobs_body 1 Scenario.short_chunk = Done w' ∧
        _jobs w' = _jobs Scenario.short_chunk ++ [1%nat] ∧
        _downloadedChunks w' = _downloadedChunks Scenario.short_chunk ∧
        disk w' = disk Scenario.short_chunk.
Proof.
  refine (syncJobs_classifies Scenario.short_chunk 1 5 9 _ _);
    [reflexivity | vm_compute; lia].
Defined.

(** C4 (counterexample): chunk 1 was left on disk with 3 of its 5
    bytes.  The start procedure enqueues it (both chunks are requested)
    and the short file is still on disk afterwards. *)
Lemma short_chunk_is_not_deleted :
  let w := run [tick_start] (Scenario.two_chunks_on (Scenario.leftover 3)) in
  Scenario.requests_and_sleeps w
  = [Get 1 Scenario.url (Some (5, 9)); Get 0 Scenario.url (Some (0, 4))] ∧
  disk w !! chunkFile w 1 = Some (Fs.file 3).
Proof. vm_compute. split; reflexivity. Qed.

(** The other two verdicts on a file that is present: an oversize file
    is fatal, a file of the range length is a completed chunk. *)
Example oversize_chunk_is_fatal :
  let w := run [tick_start] (Scenario.two_chunks_on (Scenario.leftover 7)) in
  events w = [ev_error (Chunk_oversize 5 7); ev_close] ∧ _destroyed w = true.
Proof. vm_compute. split; reflexivity. Qed.

Example full_chunk_is_resumed :
  let w := run [tick_start] (Scenario.two_chunks_on (Scenario.leftover 5)) in
  Scenario.requests_and_sleeps w = [Get 0 Scenario.url (Some (0, 4))] ∧
  isResume w = true ∧ _downloadedChunks w = 1%nat ∧
  bytes (totalProgress w) = 5.
Proof. vm_compute. repeat split. Qed.

(** *** Worlds in normal form *)

(** Updates of a record given by its fields, computed field by field. *)
Ltac norm_world :=
  cbv beta iota delta
    [set RecordSettersUsingExistingGetters.const emit
     _started _destroyed _opts _url _dest _reqs _attempts _ranges _done _jobs
     _workers _downloadedChunks _totalChunks _partsSpeedRef _speedRef size
     isResume savedFilePath totalProgress partsProgress finalAddress parallel
     resumable headers_ listeners_progress listeners_metadata disk network path
     tasks assembly trace].

(** *** The files of a session *)

Lemma append_right_ne (s t : string) : t ≠ EmptyString → s +:+ t ≠ s.
Proof.
  intros Ht H. apply Ht. apply (String.app_inj s).
  rewrite H. symmetry. apply UtilsFacts.append_nil_r.
Qed.

Lemma chunkFile_inj w i j : chunkFile w i = chunkFile w j → i = j.
Proof.
  unfold chunkFile. intros H. apply String.app_inj in H. apply String.app_inj in H.
  by apply (inj pretty) in H.
Qed.

Lemma chunkFile_ne_saved w saved i : savedFilePath w = Some saved → chunkFile w i ≠ saved.
Proof.
  unfold chunkFile. intros ->. cbn [default from_option]. by apply append_right_ne.
Qed.

(** *** The assembly of the output *)

Lemma buildFile_start w saved sizes :
  _destroyed w = false → savedFilePath w = Some saved →
  length sizes = _totalChunks w →
  _buildFile w
  = if (0 <? _totalChunks w)%nat then Scenario.piping_at w saved sizes 0
    else Scenario.assembled w saved sizes.
Proof.
  intros Hlive Hsaved Hlen.
  unfold _buildFile, next_pipe, next_unlink, finish_build, destroy.
  destruct w; simpl in *. subst. simpl.
  destruct sizes; simpl; reflexivity.
Qed.

Lemma builds_S n k :
  Scenario.builds n (S k)
  = Emit (ev_build (Js.scale 100 (Js.div (Z.of_nat k) (Z.of_nat n)))) :: Scenario.builds n k.
Proof. unfold Scenario.builds. by rewrite seq_S, map_app, rev_app_distr. Qed.

Lemma piped_step w saved sizes k c :
  _destroyed w = false → savedFilePath w = Some saved →
  length sizes = _totalChunks w →
  sizes !! k = Some c → disk w !! chunkFile w k = Some (Fs.file c) →
  on_piped None (Scenario.piping_at w saved sizes k)
  = if (S k <? _totalChunks w)%nat then Scenario.piping_at w saved sizes (S k)
    else Scenario.unlinking_at w saved sizes 0.
Proof.
  intros Hlive Hsaved Hlen Hc Hdisk.
  assert (k < _totalChunks w)%nat as Hk by (rewrite <- Hlen; by eapply lookup_lt_Some).
  pose proof (chunkFile_ne_saved w saved k Hsaved) as Hne.
  unfold on_piped, Scenario.piping_at, Scenario.unlinking_at, next_pipe, next_unlink, finish_build.
  unfold chunkFile in *.
  destruct w; simpl in *. subst. simpl in *.
  unfold RecordSettersUsingExistingGetters.const, emit; simpl.
  unfold RecordSettersUsingExistingGetters.const; simpl.
  rewrite lookup_insert_ne by done. rewrite Hdisk.
  rewrite lookup_insert_eq. simpl. norm_world. rewrite insert_insert_eq.
  destruct (S k <? length sizes)%nat eqn:E.
  - rewrite builds_S, (take_S_r _ _ _ Hc), PlannerFacts.total_app. simpl.
    rewrite Z.add_0_r. reflexivity.
  - apply Nat.ltb_ge in E. assert (length sizes = S k) as Hn by lia.
    assert (Planner.total sizes = Planner.total (take k sizes) + c) as ->.
    { rewrite <- (firstn_all sizes) at 1. rewrite Hn, (take_S_r _ _ _ Hc).
      rewrite PlannerFacts.total_app. simpl. lia. }
    rewrite Hn. rewrite builds_S. reflexivity.
Qed.

Lemma unlinked_up_to_S w k d :
  Scenario.unlinked_up_to w (S k) d = delete (chunkFile w k) (Scenario.unlinked_up_to w k d).
Proof. unfold Scenario.unlinked_up_to. by rewrite seq_S, foldl_app. Qed.

Lemma unlinked_step w saved sizes k :
  _destroyed w = false → savedFilePath w = Some saved →
  (k < _totalChunks w)%nat →
  on_unlinked (Scenario.unlinking_at w saved sizes k)
  = if (S k <? _totalChunks w)%nat then Scenario.unlinking_at w saved sizes (S k)
    else Scenario.assembled w saved sizes.
Proof.
  intros Hlive Hsaved Hk.
  unfold on_unlinked, Scenario.unlinking_at, Scenario.assembled, next_unlink, finish_build, destroy.
  destruct w; simpl in *. subst. norm_world.
  destruct (S k <? _totalChunks0)%nat eqn:E.
  - rewrite unlinked_up_to_S. reflexivity.
  - apply Nat.ltb_ge in E. assert (_totalChunks0 = S k) as -> by lia.
    rewrite unlinked_up_to_S. reflexivity.
Qed.

Lemma run_replicate_S n i w :
  run (replicate (S n) i) w = run (replicate n i) (deliver i w).
Proof. reflexivity. Qed.

Lemma run_pipes w saved sizes m k :
  _destroyed w = false → savedFilePath w = Some saved →
  length sizes = _totalChunks w →
  (∀ i c, sizes !! i = Some c → disk w !! chunkFile w i = Some (Fs.file c)) →
  (k + m = _totalChunks w)%nat → (0 < m)%nat →
  run (replicate m (piped None)) (Scenario.piping_at w saved sizes k)
  = Scenario.unlinking_at w saved sizes 0.
Proof.
  intros Hlive Hsaved Hlen Hfiles. revert k.
  induction m as [|m IH]; intros k Hkm Hm; [lia|].
  rewrite run_replicate_S. cbn [deliver].
  destruct (lookup_lt_is_Some_2 sizes k) as [c Hc]; [lia|].
  rewrite (piped_step w saved sizes k c) by auto.
  destruct (S k <? _totalChunks w)%nat eqn:E.
  - apply Nat.ltb_lt in E. apply IH; lia.
  - apply Nat.ltb_ge in E. assert (m = 0%nat) as -> by lia. reflexivity.
Qed.

Lemma run_unlinks w saved sizes m k :
  _destroyed w = false → savedFilePath w = Some saved →
  (k + m = _totalChunks w)%nat → (0 < m)%nat →
  run (replicate m unlinked) (Scenario.unlinking_at w saved sizes k)
  = Scenario.assembled w saved sizes.
Proof.
  intros Hlive Hsaved. revert k.
  induction m as [|m IH]; intros k Hkm Hm; [lia|].
  rewrite run_replicate_S. cbn [deliver].
  rewrite (unlinked_step w saved sizes k) by (auto || lia).
  destruct (S k <? _totalChunks w)%nat eqn:E.
  - apply Nat.ltb_lt in E. apply IH; lia.
  - apply Nat.ltb_ge in E. assert (m = 0%nat) as -> by lia. reflexivity.
Qed.

Lemma run_assembly w saved sizes :
  _destroyed w = false → savedFilePath w = Some saved →
  length sizes = _totalChunks w →
  (∀ i c, sizes !! i = Some c → disk w !! chunkFile w i = Some (Fs.file c)) →
  run (Scenario.assembly_inputs (_totalChunks w)) (_buildFile w) = Scenario.assembled w saved sizes.
Proof.
  intros Hlive Hsaved Hlen Hfiles.
  rewrite (buildFile_start w saved sizes) by done. unfold Scenario.assembly_inputs.
  destruct (_totalChunks w) as [|n] eqn:Hn; [reflexivity|].
  cbn [Nat.ltb Nat.leb]. rewrite run_app.
  rewrite (run_pipes w saved sizes (S n) 0) by (auto || lia).
  apply (run_unlinks w saved sizes (S n) 0); auto; lia.
Qed.

Lemma unlinked_up_to_gone w k d i :
  (i < k)%nat → Scenario.unlinked_up_to w k d !! chunkFile w i = None.
Proof.
  induction k as [|k IH]; [lia|]. intros Hi. rewrite unlinked_up_to_S.
  destruct (decide (i = k)) as [->|Hne]; [by rewrite lookup_delete_eq|].
  rewrite lookup_delete_ne by (intros H; by apply chunkFile_inj in H).
  apply IH. lia.
Qed.

Lemma unlinked_up_to_other w k d p :
  (∀ i, (i < k)%nat → p ≠ chunkFile w i) → Scenario.unlinked_up_to w k d !! p = d !! p.
Proof.
  induction k as [|k IH]; [done|]. intros Hp. rewrite unlinked_up_to_S.
  rewrite lookup_delete_ne by (intros H; by eapply Hp; [|symmetry]; eauto).
  apply IH. intros i Hi. apply Hp. lia.
Qed.

(** X14.  The assembly concatenates and cleans up: started on a session
    that is not destroyed, whose [n] chunk files are on the disk with
    [sizes] bytes, and not disturbed by a failure, [_buildFile] leaves
    at the destination a file of the sum of these sizes, has unlinked
    every chunk file and touched no other path, has set [_done] and
    destroyed the session, and has emitted [build] with 0, [build] with
    [100 * (i / n)] after each chunk [i] (never 100), [end] and
    [close]. *)
Theorem buildFile_assembles w saved sizes :
  _destroyed w = false → savedFilePath w = Some saved →
  length sizes = _totalChunks w →
  (∀ i c, sizes !! i = Some c → disk w !! chunkFile w i = Some (Fs.file c)) →
  let n := _totalChunks w in
  let w' := run (Scenario.assembly_inputs n) (_buildFile w) in
  disk w' !! saved = Some (Fs.file (Planner.total sizes)) ∧
  (∀ i, (i < n)%nat → disk w' !! chunkFile w i = None) ∧
  (∀ p, p ≠ saved → (∀ i, (i < n)%nat → p ≠ chunkFile w i) →
        disk w' !! p = disk w !! p) ∧
  _done w' = true ∧ _destroyed w' = true ∧
  trace w' = Emit ev_close :: Emit ev_end :: Scenario.builds n n ++ trace w.
Proof.
  intros Hlive Hsaved Hlen Hfiles n w'. subst w' n.
  rewrite (run_assembly w saved sizes) by done.
  unfold Scenario.assembled. cbn.
  unfold RecordSettersUsingExistingGetters.const.
  split; [|split; [|split]].
  - rewrite unlinked_up_to_other by (intros i _ H; by eapply chunkFile_ne_saved).
    by rewrite lookup_insert_eq.
  - intros i Hi. by apply unlinked_up_to_gone.
  - intros p Hp Hother. rewrite unlinked_up_to_other by done.
    by rewrite lookup_insert_ne.
  - done.
Qed.

(** X14 (witness): two chunk files of 5 bytes each. *)
Lemma buildFile_assembles_witness :
  let w := Scenario.to_assemble in
  let w' := run (Scenario.assembly_inputs 2) (_buildFile w) in
  disk w' !! "/dl/f.bin" = Some (Fs.file (Planner.total [5; 5])) ∧
  (∀ i, (i < 2)%nat → disk w' !! chunkFile w i = None) ∧
  (∀ p, p ≠ "/dl/f.bin" → (∀ i, (i < 2)%nat → p ≠ chunkFile w i) →
        disk w' !! p = disk w !! p) ∧
  _done w' = true ∧ _destroyed w' = true ∧
  trace w' = Emit ev_close :: Emit ev_end :: Scenario.builds 2 2 ++ trace w.
Proof.
  apply (buildFile_assembles Scenario.to_assemble "/dl/f.bin" [5; 5]);
    [reflexivity | reflexivity | reflexivity |].
  intros [|[|i]] c Hc; [| |done]; injection Hc as <-; vm_compute; reflexivity.
Defined.

(** *** Single-request mode *)

Lemma _report_frame_more id force t0 now w :
  let w' := _report id force t0 now w in
  tasks w' = tasks w ∧ _reqs w' = _reqs w ∧ savedFilePath w' = savedFilePath w ∧
  _destroyed w' = _destroyed w ∧ disk w' = disk w ∧
  _downloadedChunks w' = _downloadedChunks w ∧ _totalChunks w' = _totalChunks w ∧
  _done w' = _done w ∧
  (trace w' = trace w ∨ ∃ a, is_progress a ∧ trace w' = a :: trace w).
Proof.
  unfold _report. destruct w; simpl.
  destruct (_ !! id); simpl;
    repeat (match goal with
            | |- context [if ?b then _ else _] => destruct b
            end; simpl);
    repeat split; try done; try (by left); right; eexists; (split; [eexists _, _|]); reflexivity.
Qed.

Lemma followRedirect_direct network url code h :
  head network url = Responded code h → code = 200 ∨ code = 206 →
  Request.followRedirect network url
  = Some (Ok {| address := url; final_headers := h |}).
Proof.
  intros Hhead Hcode.
  destruct (RequestFacts.redirect_chain_loop network url [] ∅ url url code h)
    as [fuel Hfuel];
    [apply NoDup_singleton | intros x _; apply not_elem_of_empty | done..|].
  by eapply RequestFacts.followRedirect_any_fuel.
Qed.

Lemma requestHeader_direct network url code h :
  head network url = Responded code h → code = 200 ∨ code = 206 →
  requestHeader network url = Ok {| statusCode := code; rheaders := h |}.
Proof.
  intros Hhead Hcode. unfold requestHeader. rewrite Hhead.
  by destruct Hcode as [-> | ->].
Qed.

Lemma _ensureDest_free w saved :
  savedFilePath w = Some saved → disk w !! saved = None → _ensureDest w = Done w.
Proof.
  intros Hsaved Hfree. unfold _ensureDest. cbn [_ensureDest_loop].
  unfold Fs.fileStats. by rewrite Hsaved, Hfree.
Qed.

Lemma _getHeaders_direct w code h :
  finalAddress w = _url w →
  head (network w) (_url w) = Responded code h → code = 200 ∨ code = 206 →
  _getHeaders w = Done (w <| headers_ := h |>).
Proof.
  intros Haddr Hhead Hcode. unfold _getHeaders.
  rewrite (followRedirect_direct _ _ _ _ Hhead Hcode).
  rewrite (requestHeader_direct _ _ _ _ Hhead Hcode).
  cbn [statusCode rheaders address final_headers].
  assert ((negb (code =? 200) && negb (code =? 206)) = false) as ->
      by (destruct Hcode as [-> | ->]; reflexivity).
  destruct (followRedirect (_opts w)); [|done].
  f_equal. destruct w; simpl in *. by subst.
Qed.

Lemma start_single_request w w1 w2 saved :
  _started w = false → _destroyed w = false →
  _ensureDest (w <| _started := true |>) = Done w1 →
  savedFilePath w1 = Some saved →
  Fs.validate (path w1) (disk w1) saved = true →
  _getHeaders w1 = Done w2 →
  connections (_opts w2) = 1 ∨ (h ← headers_ w2; content_length h) = None ∨
  (h ← headers_ w2; accept_ranges h) ≠ Some "bytes" →
  _start w = announce (_download 0 None (single_request w2)).
Proof.
  intros Hstarted Hlive Hensure Hsaved Hvalid Hget Hsingle.
  unfold _start. rewrite Hstarted. cbn. rewrite Hlive.
  unfold _start_try. rewrite Hensure. cbn [and_then].
  rewrite Hsaved, Hvalid. cbn [negb]. rewrite Hget. cbn [and_then]. cbv zeta.
  unfold single_request.
  destruct (h ← headers_ w2; content_length h) as [l|] eqn:Hlen.
  - assert (negb (connections (_opts w2) =? 1)
            && bool_decide ((h ← headers_ w2; accept_ranges h) = Some "bytes")
            = false) as ->.
    { destruct Hsingle as [-> | [? | Hacc]]; [done|done|].
      rewrite (bool_decide_eq_false_2 _ Hacc). apply andb_false_r. }
    reflexivity.
  - by destruct w2.
Qed.

Lemma response_error_single id code h :
  code = 200 ∨ code = 206 → response_error None 0 id code h = None.
Proof. intros [-> | ->]; reflexivity. Qed.

Lemma partFile_saved w w' id :
  savedFilePath w' = savedFilePath w → partFile w' id = partFile w id.
Proof. unfold partFile, chunkFile. by intros ->. Qed.

Lemma chunkFile_saved w w' id :
  savedFilePath w' = savedFilePath w → chunkFile w' id = chunkFile w id.
Proof. unfold chunkFile. by intros ->. Qed.

Lemma ready_receiving w saved k rest code h :
  _destroyed w = false → savedFilePath w = Some saved →
  _downloadedChunks w = 0%nat → _totalChunks w = 1%nat →
  code = 200 ∨ code = 206 →
  let ws := announce (begin_attempt 0 None k rest w) in
  receiving saved (disk w) (trace ws) (on_ready 0 code h ws) 0.
Proof.
  intros Hlive Hsaved Hdown Htotal Hcode ws. subst ws.
  unfold announce, begin_attempt, on_ready, listening, receiving, emit, partFile, chunkFile.
  destruct w; simpl in *. subst.
  destruct (0 <? listeners_metadata0)%nat; simpl;
    rewrite !lookup_insert_eq; simpl;
    rewrite (response_error_single 0 code h Hcode);
    destruct (content_length h) as [l|]; simpl;
    repeat (match goal with
            | |- context [if ?b then _ else _] => destruct b
            end; simpl);
    rewrite ?lookup_insert_eq;
    (split; [eexists; repeat split; reflexivity|]);
    repeat split; try reflexivity; by exists [].
Qed.

Lemma on_data_receiving saved disk0 trace0 w written len t0 now :
  receiving saved disk0 trace0 w written →
  receiving saved disk0 trace0 (on_data 0 len t0 now w) (written + len).
Proof.
  intros ((t & Htask & Hawaits & Hready & Herror) & Hreq & Hsaved & Hlive & Hdown
          & Htotal & Hdisk & reports & Htrace & Hreports).
  unfold on_data, listening. rewrite Htask, Hreq, Hawaits. cbn [destroyed].
  match goal with |- receiving _ _ _ (_report _ _ _ _ ?w1) _ =>
    destruct (_report_frame_more 0 false t0 now w1)
      as (E1 & E2 & E3 & E4 & E5 & E6 & E7 & E8 & E9);
    assert (partFile (_report 0 false t0 now w1) 0 = partFile w 0) as Hpart
        by (apply partFile_saved; by rewrite E3)
  end.
  unfold receiving. rewrite E1, E2, E3, E4, E5, E6, E7, Hpart. simpl.
  split; [by exists t|]. repeat split; try done.
  - rewrite Hdisk. unfold RecordSettersUsingExistingGetters.const.
    rewrite lookup_insert_eq. simpl. by rewrite insert_insert_eq.
  - simpl in E9. destruct E9 as [-> | (a & Ha & ->)].
    + by exists reports.
    + exists (a :: reports). rewrite Htrace. split; [done|]. by constructor.
Qed.

Lemma body_receiving saved disk0 trace0 body w written :
  receiving saved disk0 trace0 w written →
  receiving saved disk0 trace0 (run (Scenario.body_inputs 0 body) w)
            (written + Scenario.body_bytes body).
Proof.
  revert w written. induction body as [|piece body IH]; intros w written Hin.
  - unfold Scenario.body_bytes. simpl. by rewrite Z.add_0_r.
  - change (run (Scenario.body_inputs 0 (piece :: body)) w)
      with (run (Scenario.body_inputs 0 body)
                (on_data 0 piece.1 piece.2.1 piece.2.2 w)).
    replace (written + Scenario.body_bytes (piece :: body))
      with (written + piece.1 + Scenario.body_bytes body)
      by (unfold Scenario.body_bytes; simpl; lia).
    apply IH. by apply on_data_receiving.
Qed.

(** The request closes, the rename completes: [_buildFile] is called on
    a session that holds the completed chunk file. *)
Lemma renamed_receiving saved disk0 trace0 w written t0 t1 :
  receiving saved disk0 trace0 w written →
  ∃ wb, run [request_close 0; renamed 0 None t0 t1] w = _buildFile wb ∧
        _destroyed wb = false ∧ savedFilePath wb = Some saved ∧
        _totalChunks wb = 1%nat ∧
        disk wb = <[chunkFile w 0 := Fs.file written]> (delete (partFile w 0) disk0) ∧
        ∃ reports, trace wb = reports ++ trace0 ∧ Forall is_progress reports.
Proof.
  intros ((t & Htask & Hawaits & Hready & Herror) & Hreq & Hsaved & Hlive & Hdown
          & Htotal & Hdisk & reports & Htrace & Hreports).
  unfold run. cbn [foldl deliver].
  unfold on_close. rewrite Htask, Hawaits, Hready, Hlive, Herror. cbn [negb].
  set (wc := w <| tasks ::= _ |>).
  assert (tasks wc !! 0%nat = Some (t <| awaits := await_rename |>)) as Hwc
      by apply lookup_insert_eq.
  unfold on_renamed. rewrite Hwc. cbn [awaits set]. cbv beta iota.
  assert (settle_rename 0 None wc
          = wc <| disk := <[chunkFile w 0 := Fs.file written]>
                            (delete (partFile w 0) disk0) |>) as ->.
  { unfold settle_rename, Fs.rename.
    change (partFile wc 0) with (partFile w 0).
    change (chunkFile wc 0) with (chunkFile w 0).
    change (disk wc) with (disk w). rewrite Hdisk, lookup_insert_eq.
    by rewrite delete_insert_eq. }
  set (wd := _ <| tasks ::= delete 0%nat |>).
  unfold _onChunkCompleted.
  change (_reqs wd) with (_reqs w). rewrite Hreq.
  set (we := wd <| _reqs ::= delete 0%nat |>).
  destruct (_report_frame_more 0 true t0 t1 we)
    as (E1 & E2 & E3 & E4 & E5 & E6 & E7 & E8 & E9).
  set (wf := _report 0 true t0 t1 we) in *. cbv zeta.
  set (wb := wf <| partsProgress ::= _ |> <| _workers ::= Z.pred |>
                <| _downloadedChunks ::= S |>).
  assert (_downloadedChunks wb = S (_downloadedChunks wf)) as Hd by reflexivity.
  assert (_totalChunks wb = _totalChunks wf) as Ht by reflexivity.
  rewrite Hd, Ht, E6, E7.
  change (_downloadedChunks we) with (_downloadedChunks w).
  change (_totalChunks we) with (_totalChunks w).
  rewrite Hdown, Htotal. cbn [Nat.eqb].
  exists wb. split; [reflexivity|].
  change (_destroyed wb) with (_destroyed wf).
  change (savedFilePath wb) with (savedFilePath wf).
  change (disk wb) with (disk wf). change (trace wb) with (trace wf).
  rewrite Ht, E3, E4, E5, E7.
  change (_destroyed we) with (_destroyed w).
  change (savedFilePath we) with (savedFilePath w).
  change (_totalChunks we) with (_totalChunks w).
  repeat split; try done.
  change (trace we) with (trace w) in E9.
  destruct E9 as [-> | (a & Ha & ->)].
  - by exists reports.
  - exists (a :: reports). rewrite Htrace. split; [done|]. by constructor.
Qed.

Lemma partFile_ne_chunkFile w id : partFile w id ≠ chunkFile w id.
Proof. unfold partFile. by apply append_right_ne. Qed.

Lemma partFile_ne_saved w saved i : savedFilePath w = Some saved → partFile w i ≠ saved.
Proof.
  unfold partFile, chunkFile. intros ->. cbn [default from_option].
  rewrite UtilsFacts.append_assoc. by apply append_right_ne.
Qed.

(** X16.  A download in single-request mode, end to end.  The
    destination is free and its folder exists, the HEAD request is
    answered with 200 or 206 by a server that rules out the parallel
    mode (or one connection is asked for), and at least one attempt is
    allowed.  When the GET request is answered with 200 or 206, the body
    arrives in any number of pieces and the request closes, and the
    rename and the assembly meet no failure, then the destination holds
    exactly the bytes that arrived, the chunk file and its [$PART] file
    are gone and no other path has changed, [_done] is set and the
    session destroyed, and the session has issued one request and
    emitted, in order, [metadata] (if listened to), only [progress]
    events, [build] twice, [end] and [close]. *)
Theorem single_request_download url dest opts now pl ml disk0 network0 path0
    code0 h0 code h body t0 t1 :
  connections opts = 1 ∨ (h ← h0; content_length h) = None ∨
  (h ← h0; accept_ranges h) ≠ Some "bytes" →
  (0 < maxRetry opts)%nat →
  disk0 !! dest = None → Fs.validate path0 disk0 dest = true →
  head network0 url = Responded code0 h0 → code0 = 200 ∨ code0 = 206 →
  code = 200 ∨ code = 206 →
  let w0 := constructor url dest opts now pl ml disk0 network0 path0 in
  let w' := run ([tick_start; request_ready 0 code h]
                   ++ Scenario.body_inputs 0 body
                   ++ [request_close 0; renamed 0 None t0 t1; piped None; unlinked])
                w0 in
  disk w' !! dest = Some (Fs.file (Scenario.body_bytes body)) ∧
  disk w' !! chunkFile w' 0 = None ∧ disk w' !! partFile w' 0 = None ∧
  (∀ p, p ≠ dest → p ≠ chunkFile w' 0 → p ≠ partFile w' 0 →
        disk w' !! p = disk0 !! p) ∧
  _done w' = true ∧ _destroyed w' = true ∧
  ∃ meta reports,
    (meta = [] ∨ ∃ m, meta = [Emit (ev_metadata m)]) ∧
    Forall is_progress reports ∧
    trace w' = Emit ev_close :: Emit ev_end
                 :: Scenario.builds 1 1 ++ reports ++ meta ++ [Get 0 url None].
Proof.
  intros Hsingle Hretry Hfree Hvalid Hhead Hcode0 Hcode w0 w'.
  set (w1 := w0 <| _started := true |>).
  set (w2 := w1 <| headers_ := h0 |>).
  set (ws := single_request w2).
  destruct (maxRetry opts) as [|m] eqn:Hm; [lia|].
  assert (_attempts ws = 1%nat :: seq 2 m) as Hattempts.
  { transitivity (seq 1 (maxRetry opts)); [reflexivity|]. by rewrite Hm. }
  assert (_start w0 = announce (begin_attempt 0 None 1 (seq 2 m) ws)) as Hstart.
  { rewrite (start_single_request w0 w1 w2 dest);
      [| reflexivity | reflexivity | by apply (_ensureDest_free w1 dest)
       | reflexivity | exact Hvalid | by apply (_getHeaders_direct w1 code0 h0)
       | exact Hsingle].
    unfold _download. fold ws. rewrite Hattempts. reflexivity. }
  assert (receiving dest disk0 (trace (_start w0))
                    (on_ready 0 code h (_start w0)) 0) as Hrecv.
  { rewrite Hstart.
    exact (ready_receiving ws dest 1%nat (seq 2 m) code h
             eq_refl eq_refl eq_refl eq_refl Hcode). }
  apply (body_receiving dest disk0 _ body) in Hrecv.
  destruct (renamed_receiving dest disk0 _ _ _ t0 t1 Hrecv)
    as (wb & Hrun & Hlive & Hsaved & Htotal & Hdisk & reports & Htrace & Hreports).
  set (bytes := 0 + Scenario.body_bytes body) in *.
  assert (w' = Scenario.assembled wb dest [bytes]) as Hw'.
  { subst w'. rewrite run_app.
    change (run [tick_start; request_ready 0 code h] w0)
      with (on_ready 0 code h (_start w0)).
    rewrite run_app.
    change [request_close 0; renamed 0 None t0 t1; piped None; unlinked]
      with ([request_close 0; renamed 0 None t0 t1] ++ Scenario.assembly_inputs 1).
    rewrite run_app, Hrun. rewrite <- Htotal.
    apply run_assembly; try done.
    intros [|i] c Hc; [|done]. injection Hc as <-. rewrite Hdisk.
    destruct Hrecv as (_ & _ & Hsaved' & _).
    rewrite (chunkFile_saved _ wb) by (by rewrite Hsaved, Hsaved').
    apply lookup_insert_eq. }
  destruct Hrecv as (_ & _ & Hsaved' & _).
  set (wr := run (Scenario.body_inputs 0 body) _) in *.
  assert (savedFilePath w' = Some dest) as Hsaved'' by (by rewrite Hw').
  assert (chunkFile w' 0 = chunkFile wb 0) as Hc1
      by (apply chunkFile_saved; by rewrite Hsaved'', Hsaved).
  assert (chunkFile wr 0 = chunkFile wb 0) as Hc2
      by (apply chunkFile_saved; by rewrite Hsaved', Hsaved).
  assert (partFile w' 0 = partFile wb 0) as Hp1
      by (apply partFile_saved; by rewrite Hsaved'', Hsaved).
  assert (partFile wr 0 = partFile wb 0) as Hp2
      by (apply partFile_saved; by rewrite Hsaved', Hsaved).
  rewrite Hc1, Hp1. rewrite Hc2, Hp2 in Hdisk.
  pose proof (chunkFile_ne_saved wb dest 0 Hsaved) as Hne1.
  pose proof (partFile_ne_saved wb dest 0 Hsaved) as Hne2.
  pose proof (partFile_ne_chunkFile wb 0) as Hne3.
  assert (disk w'
          = delete (chunkFile wb 0) (<[dest := Fs.file bytes]> (disk wb))) as Hdisk'.
  { rewrite Hw'. unfold Scenario.assembled. cbn. rewrite Htotal.
    unfold Scenario.unlinked_up_to. cbn. by rewrite Z.add_0_r. }
  rewrite Hdisk', Hdisk.
  split; [|split; [|split; [|split; [|split]]]].
  - rewrite lookup_delete_ne, lookup_insert_eq by done. subst bytes. by rewrite Z.add_0_l.
  - by rewrite lookup_delete_eq.
  - rewrite lookup_delete_ne, !lookup_insert_ne by done. by rewrite lookup_delete_eq.
  - intros p Hp1' Hp2' Hp3'.
    rewrite lookup_delete_ne, !lookup_insert_ne by done. by rewrite lookup_delete_ne.
  - by rewrite Hw'.
  - split; [by rewrite Hw'|].
    assert (trace (begin_attempt 0 None 1 (seq 2 m) ws) = [Get 0 url None]) as Hget
        by reflexivity.
    assert (trace w' = Emit ev_close :: Emit ev_end
                         :: Scenario.builds 1 1 ++ reports ++ trace (_start w0)) as ->.
    { rewrite Hw'.
      change (trace (Scenario.assembled wb dest [bytes]))
        with (Emit ev_close :: Emit ev_end
                :: Scenario.builds (_totalChunks wb) (_totalChunks wb) ++ trace wb).
      by rewrite Htotal, Htrace. }
    rewrite Hstart. unfold announce.
    change (listeners_metadata (begin_attempt 0 None 1 (seq 2 m) ws)) with ml.
    destruct (0 <? ml)%nat.
    + eexists [_], reports. split; [right; by eexists|]. split; [done|].
      rewrite <- Hget. reflexivity.
    + exists [], reports. split; [by left|]. split; [done|].
      rewrite <- Hget. reflexivity.
Qed.

(** X16 (witness): ten bytes in two pieces over one connection. *)
Lemma single_request_download_witness :
  let w' := run ([tick_start; request_ready 0 200 (Scenario.ranged 10)]
                   ++ Scenario.body_inputs 0 [(4, (1, 1)); (6, (2, 2))]
                   ++ [request_close 0; renamed 0 None 3 3; piped None; unlinked])
                Scenario.single in
  disk w' !! Scenario.dest
  = Some (Fs.file (Scenario.body_bytes [(4, (1, 1)); (6, (2, 2))])) ∧
  disk w' !! chunkFile w' 0 = None ∧ disk w' !! partFile w' 0 = None ∧
  (∀ p, p ≠ Scenario.dest → p ≠ chunkFile w' 0 → p ≠ partFile w' 0 →
        disk w' !! p = ({[ "/dl" := Scenario.folder ]} : gmap string Fs.stats) !! p) ∧
  _done w' = true ∧ _destroyed w' = true ∧
  ∃ meta reports,
    (meta = [] ∨ ∃ m, meta = [Emit (ev_metadata m)]) ∧
    Forall is_progress reports ∧
    trace w' = Emit ev_close :: Emit ev_end
                 :: Scenario.builds 1 1 ++ reports ++ meta
                 ++ [Get 0 Scenario.url None].
Proof.
  apply (single_request_download
           Scenario.url Scenario.dest (default_options <| connections := 1 |>) 0 0 0
           {[ "/dl" := Scenario.folder ]} (Scenario.serving 10) Scenario.posix
           200 (Some (Scenario.ranged 10)) 200 (Scenario.ranged 10)
           [(4, (1, 1)); (6, (2, 2))] 3 3);
    [by left | cbn; lia | reflexivity | reflexivity | reflexivity | by left | by left].
Defined.

(** X15.  The fallback to one request: when one connection is asked
    for, or the HEAD response has no [content-length], or its
    [accept-ranges] is not [bytes], [_start] plans no ranges and issues
    a single request, for chunk 0 and without a [Range], to the final
    address; the session is marked neither parallel nor resumable, and
    so is the [metadata] event, which is emitted after the request is
    issued. *)
Theorem start_falls_back_to_one_request w w1 w2 saved k rest :
  _started w = false → _destroyed w = false →
  _ensureDest (w <| _started := true |>) = Done w1 →
  savedFilePath w1 = Some saved →
  Fs.validate (path w1) (disk w1) saved = true →
  _getHeaders w1 = Done w2 →
  connections (_opts w2) = 1 ∨ (h ← headers_ w2; content_length h) = None ∨
  (h ← headers_ w2; accept_ranges h) ≠ Some "bytes" →
  _attempts w = k :: rest →
  let w' := _start w in
  parallel w' = false ∧ resumable w' = false ∧ _ranges w' = _ranges w ∧
  _totalChunks w' = 1%nat ∧
  ∃ meta,
    (meta = [] ∨
     ∃ m, meta = [Emit (ev_metadata m)] ∧ m_parallel m = false ∧
          m_resumable m = false ∧ m_chunks m = map (λ r, r.2 - r.1 + 1) (_ranges w)) ∧
    trace w' = meta ++ Get 0 (finalAddress w2) None :: trace w.
Proof.
  intros Hstarted Hlive Hensure Hsaved Hvalid Hget Hsingle Hattempts w'. subst w'.
  pose proof (_ensureDest_loop_frame _ _ _ Hensure) as F1.
  pose proof (_getHeaders_frame _ _ Hget) as F2.
  assert (_attempts (single_request w2) = _attempts w) as Ha
      by (rewrite F2, F1; reflexivity).
  assert (trace w2 = trace w) as Ht by (rewrite F2, F1; reflexivity).
  assert (_ranges w2 = _ranges w) as Hr by (rewrite F2, F1; reflexivity).
  assert (_start w = announce (begin_attempt 0 None k rest (single_request w2))) as ->.
  { rewrite (start_single_request w w1 w2 saved) by done.
    unfold _download. rewrite Ha, Hattempts. reflexivity. }
  unfold announce.
  destruct (0 <? listeners_metadata (begin_attempt 0 None k rest (single_request w2)))%nat.
  - split; [reflexivity|]. split; [reflexivity|].
    split; [rewrite <- Hr; reflexivity|]. split; [reflexivity|].
    exists [Emit (ev_metadata
                    (the_metadata (begin_attempt 0 None k rest (single_request w2))))].
    split; [|rewrite <- Ht; reflexivity].
    right. eexists. split; [reflexivity|]. split; [reflexivity|].
    split; [reflexivity|]. rewrite <- Hr. reflexivity.
  - split; [reflexivity|]. split; [reflexivity|].
    split; [rewrite <- Hr; reflexivity|]. split; [reflexivity|].
    exists []. split; [by left|]. rewrite <- Ht. reflexivity.
Qed.

(** X15 (witness): the default five connections against a server that
    does not announce [accept-ranges]. *)
Lemma start_falls_back_to_one_request_witness :
  let w' := _start Scenario.unranged in
  parallel w' = false ∧ resumable w' = false ∧
  _ranges w' = _ranges Scenario.unranged ∧ _totalChunks w' = 1%nat ∧
  ∃ meta,
    (meta = [] ∨
     ∃ m, meta = [Emit (ev_metadata m)] ∧ m_parallel m = false ∧
          m_resumable m = false ∧
          m_chunks m = map (λ r, r.2 - r.1 + 1) (_ranges Scenario.unranged)) ∧
    trace w' = meta ++ Get 0 Scenario.url None :: trace Scenario.unranged.
Proof.
  exact (start_falls_back_to_one_request
           Scenario.unranged
           (Scenario.unranged <| _started := true |>)
           (Scenario.unranged <| _started := true |>
              <| headers_ := Some Scenario.plain |>)
           Scenario.dest 1%nat [2; 3]%nat
           eq_refl eq_refl eq_refl eq_refl eq_refl eq_refl
           (or_intror (or_introl eq_refl)) eq_refl).
Defined.

(** *** Resolving the destination *)

(** What the loop has settled on when it ends. *)
Lemma _ensureDest_loop_resolves fuel w w' :
  _ensureDest_loop fuel w = Done w' →
  match savedFilePath w' with
  | Some p =>
      match disk w !! p with
      | None => True
      | Some stats =>
          Fs.isDirectory stats = false ∧ existBehavior (_opts w) = overwrite
      end
  | None => savedFilePath w = None ∨ existBehavior (_opts w) = ignore
  end.
Proof.
  revert w. induction fuel as [|fuel IH]; intros w; [done|].
  cbn [_ensureDest_loop].
  assert (∀ saved' : option string,
            (saved' = None → existBehavior (_opts w) = ignore) →
            _ensureDest_loop fuel (w <| savedFilePath := saved' |>) = Done w' →
            match savedFilePath w' with
            | Some p =>
                match disk w !! p with
                | None => True
                | Some stats =>
                    Fs.isDirectory stats = false ∧ existBehavior (_opts w) = overwrite
                end
            | None => savedFilePath w = None ∨ existBehavior (_opts w) = ignore
            end) as Hnext.
  { intros saved' Hnone H. apply IH in H.
    destruct (savedFilePath w'); [exact H|].
    destruct H as [H|H]; right; [by apply Hnone|exact H]. }
  destruct (savedFilePath w) as [saved|] eqn:Hsaved.
  - unfold Fs.fileStats. destruct (disk w !! saved) as [stats|] eqn:Hdisk.
    + destruct (Fs.isDirectory stats) eqn:Hdir; [by apply Hnext|].
      destruct (existBehavior (_opts w)) eqn:Hpolicy;
        [by apply Hnext | | by apply Hnext].
      intros [= <-]. by rewrite Hsaved, Hdisk.
    + intros [= <-]. by rewrite Hsaved, Hdisk.
  - intros [= <-]. rewrite Hsaved. by left.
Qed.

(** X17.  When [_ensureDest] returns, only [savedFilePath] has changed,
    and the path it has settled on is free to write to: it is never an
    existing directory, it names an existing file only under the
    [overwrite] policy, and it is [null] only under the [ignore] policy
    (or when it was [null] before). *)
Theorem ensureDest_resolves w w' :
  _ensureDest w = Done w' →
  w' = w <| savedFilePath := savedFilePath w' |> ∧
  match savedFilePath w' with
  | Some p =>
      match disk w !! p with
      | None => True
      | Some stats =>
          Fs.isDirectory stats = false ∧ existBehavior (_opts w) = overwrite
      end
  | None => savedFilePath w = None ∨ existBehavior (_opts w) = ignore
  end.
Proof.
  intros H. split.
  - by apply (_ensureDest_loop_frame _ _ _ H).
  - by apply (_ensureDest_loop_resolves _ _ _ H).
Qed.

(** X17 (witness): the destination exists and the policy is
    [new_file]; the copy name is free. *)
Lemma ensureDest_resolves_witness :
  let w := Scenario.occupied in
  let w' := w <| savedFilePath := Some "/dl/f(COPY).bin" |> in
  _ensureDest w = Done w' ∧
  w' = w <| savedFilePath := savedFilePath w' |> ∧
  match savedFilePath w' with
  | Some p =>
      match disk w !! p with
      | None => True
      | Some stats =>
          Fs.isDirectory stats = false ∧ existBehavior (_opts w) = overwrite
      end
  | None => savedFilePath w = None ∨ existBehavior (_opts w) = ignore
  end.
Proof.
  split; [reflexivity|].
  exact (ensureDest_resolves
           Scenario.occupied
           (Scenario.occupied <| savedFilePath := Some "/dl/f(COPY).bin" |>)
           eq_refl).
Defined.

(** *** Failures before the first request *)



(** *** The scan for chunk files *)

(** A turn of the scan that returns: the chunk is counted or queued. *)
Lemma _syncJobs_body_Done i w w' :
  _syncJobs_body i w = Done w' →
  (_ranges w' = _ranges w ∧ disk w' = disk w ∧ savedFilePath w' = savedFilePath w ∧
   length (partsProgress w') = length (partsProgress w)) ∧
  oversize w i = false ∧
  if complete w i
  then _jobs w' = _jobs w ∧ _downloadedChunks w' = S (_downloadedChunks w) ∧
       bytes (totalProgress w') = chunk_length w i + bytes (totalProgress w)
  else _jobs w' = _jobs w ++ [i] ∧ _downloadedChunks w' = _downloadedChunks w ∧
       bytes (totalProgress w') = bytes (totalProgress w).
Proof.
  unfold _syncJobs_body, complete, oversize, chunk_length, Fs.fileStats, chunkFile.
  destruct w; simpl. intros H.
  destruct (disk0 !! _) as [stats|].
  - destruct (_ <? Fs.size stats); [done|].
    destruct (Fs.size stats =? _); simplify_eq; simpl; rewrite ?length_insert; done.
  - simplify_eq. simpl. rewrite ?length_insert. done.
Qed.

(** A turn of the scan throws only for a file longer than its range. *)
Lemma _syncJobs_body_Raised i w e w' :
  _syncJobs_body i w = Raised e w' → oversize w i = true.
Proof.
  unfold _syncJobs_body, complete, oversize, chunk_length, Fs.fileStats, chunkFile.
  destruct w; simpl. intros H.
  destruct (disk0 !! _) as [stats|]; [|done].
  destruct (_ <? Fs.size stats); [done|].
  destruct (Fs.size stats =? _); done.
Qed.

Lemma _syncJobs_body_not_Pending i w w' : _syncJobs_body i w ≠ Pending w'.
Proof.
  unfold _syncJobs_body, Fs.fileStats. cbv zeta. by repeat case_match.
Qed.

(** The classification of a chunk reads the plan, the disk and the
    destination only. *)
Lemma complete_frame w w' i :
  _ranges w' = _ranges w → disk w' = disk w → savedFilePath w' = savedFilePath w →
  complete w' i = complete w i ∧ oversize w' i = oversize w i ∧
  chunk_length w' i = chunk_length w i.
Proof.
  unfold complete, oversize, chunk_length, chunkFile. by intros -> -> ->.
Qed.

(** The scan of the chunks [ids], in order. *)
Lemma _syncJobs_loop_Done ids w w' :
  _syncJobs_loop ids w = Done w' →
  (_ranges w' = _ranges w ∧ disk w' = disk w ∧ savedFilePath w' = savedFilePath w ∧
   length (partsProgress w') = length (partsProgress w)) ∧
  (∀ i, i ∈ ids → oversize w i = false) ∧
  _jobs w' = _jobs w ++ filter (λ i, complete w i = false) ids ∧
  _downloadedChunks w' = (_downloadedChunks w + length (filter (λ i, complete w i = true) ids))%nat ∧
  bytes (totalProgress w')
  = bytes (totalProgress w)
    + Planner.total (chunk_length w <$> filter (λ i, complete w i = true) ids).
Proof.
  revert w. induction ids as [|i ids IH]; intros w H.
  - cbn in H. simplify_eq. rewrite app_nil_r. cbn.
    repeat split; try done; try lia. intros i Hi. by apply elem_of_nil in Hi.
  - cbn [_syncJobs_loop] in H.
    destruct (_syncJobs_body i w) as [w1|e w1|w1] eqn:Hbody; [|done..].
    cbn in H. apply _syncJobs_body_Done in Hbody as [(Hr & Hd & Hs & Hl) [Hov Hc]].
    apply IH in H as [(Hr' & Hd' & Hs' & Hl') (Hov' & Hj & Hn & Hb)].
    assert (∀ j, complete w1 j = complete w j ∧ oversize w1 j = oversize w j ∧
                 chunk_length w1 j = chunk_length w j) as Hframe
      by (intros; by apply complete_frame).
    split; [repeat split; congruence|].
    split.
    { intros j [->|Hj']%elem_of_cons; [done|].
      destruct (Hframe j) as (_ & <- & _). by apply Hov'. }
    rewrite Hj, Hn, Hb.
    rewrite (list_filter_iff (λ j, complete w1 j = false) (λ j, complete w j = false))
      by (intros j; by destruct (Hframe j) as (-> & _)).
    rewrite (list_filter_iff (λ j, complete w1 j = true) (λ j, complete w j = true))
      by (intros j; by destruct (Hframe j) as (-> & _)).
    rewrite (list_fmap_ext (chunk_length w1) (chunk_length w))
      by (intros; by destruct (Hframe x) as (_ & _ & ->)).
    rewrite !filter_cons.
    destruct (complete w i) eqn:Hi; destruct Hc as (-> & -> & ->).
    + rewrite decide_False, decide_True by done. rewrite fmap_cons. cbn [length]. unfold Planner.total; cbn [foldr]; fold (Planner.total (chunk_length w <$> filter (λ j, complete w j = true) ids)). repeat split; lia.
    + rewrite decide_True, decide_False by done. cbn.
      rewrite <- app_assoc. repeat split; try done; lia.
Qed.

Lemma _syncJobs_loop_Raised ids w e w' :
  _syncJobs_loop ids w = Raised e w' → ∃ i, i ∈ ids ∧ oversize w i = true.
Proof.
  revert w. induction ids as [|i ids IH]; intros w H; [done|].
  cbn [_syncJobs_loop] in H.
  destruct (_syncJobs_body i w) as [w1|e1 w1|w1] eqn:Hbody.
  - cbn in H. apply IH in H as (j & Hj & Hov).
    apply _syncJobs_body_Done in Hbody as [(Hr & Hd & Hs & _) _].
    exists j. split; [apply elem_of_cons; by right|].
    by destruct (complete_frame w w1 j Hr Hd Hs) as (_ & <- & _).
  - exists i. split; [apply elem_of_cons; by left|]. by eapply _syncJobs_body_Raised.
  - by apply _syncJobs_body_not_Pending in Hbody.
Qed.

Lemma _syncJobs_loop_not_Pending ids w w' : _syncJobs_loop ids w ≠ Pending w'.
Proof.
  revert w. induction ids as [|i ids IH]; intros w H; [done|].
  cbn [_syncJobs_loop] in H.
  destruct (_syncJobs_body i w) as [w1|e1 w1|w1] eqn:Hbody; cbn in H; [by eapply IH|done|].
  by apply _syncJobs_body_not_Pending in Hbody.
Qed.

(** X19.  A scan that returns has split the planned chunks in two: the
    chunks whose file is on the disk with exactly the length of the
    range are counted as downloaded, with their bytes added to the
    total; all the others are appended to the job queue, in increasing
    order.  There is one progress record for each chunk, and neither
    the disk nor the plan has changed. *)
Theorem syncJobs_partitions w w' :
  _syncJobs w = Done w' →
  let ids := seq 0 (length (_ranges w)) in
  _jobs w' = _jobs w ++ filter (λ i, complete w i = false) ids ∧
  _downloadedChunks w'
  = (_downloadedChunks w + length (filter (λ i, complete w i = true) ids))%nat ∧
  bytes (totalProgress w')
  = bytes (totalProgress w)
    + Planner.total (chunk_length w <$> filter (λ i, complete w i = true) ids) ∧
  length (partsProgress w') = length (_ranges w) ∧
  disk w' = disk w ∧ _ranges w' = _ranges w.
Proof.
  unfold _syncJobs. cbv zeta. intros H.
  apply _syncJobs_loop_Done in H as [(Hr & Hd & Hs & Hl) (_ & Hj & Hn & Hb)].
  set (w0 := w <| partsProgress := _ |>) in *.
  assert (∀ j, complete w0 j = complete w j ∧ oversize w0 j = oversize w j ∧
               chunk_length w0 j = chunk_length w j) as Hframe
    by (intros; by apply complete_frame).
  rewrite (list_filter_iff (λ j, complete w0 j = false) (λ j, complete w j = false)) in Hj
    by (intros j; by destruct (Hframe j) as (-> & _)).
  rewrite (list_filter_iff (λ j, complete w0 j = true) (λ j, complete w j = true)) in Hn, Hb
    by (intros j; by destruct (Hframe j) as (-> & _)).
  rewrite (list_fmap_ext (chunk_length w0) (chunk_length w)) in Hb
    by (intros; by destruct (Hframe x) as (_ & _ & ->)).
  repeat split; try done.
  rewrite Hl. unfold w0. destruct w. apply length_replicate.
Qed.

(** X19 (witness): the file of chunk 1 is on the disk with its five
    bytes. *)
Lemma syncJobs_partitions_witness :
  let w := Scenario.planned (Scenario.leftover 5) in
  ∃ w', _syncJobs w = Done w' ∧
        _jobs w' = [0%nat] ∧ _downloadedChunks w' = 1%nat ∧
        bytes (totalProgress w') = 5 ∧ length (partsProgress w') = 2%nat ∧
        disk w' = disk w ∧ _ranges w' = _ranges w.
Proof.
  eexists. split; [vm_compute; reflexivity|].
  apply (syncJobs_partitions (Scenario.planned (Scenario.leftover 5))).
  vm_compute. reflexivity.
Defined.

(** X20.  The scan throws exactly when the file of some planned chunk
    is on the disk and longer than the range of the chunk. *)
Theorem syncJobs_fails_iff_oversize w :
  (∃ e w', _syncJobs w = Raised e w')
  ↔ ∃ i, (i < length (_ranges w))%nat ∧ oversize w i = true.
Proof.
  unfold _syncJobs. cbv zeta.
  set (w0 := w <| partsProgress := _ |>).
  assert (∀ j, oversize w0 j = oversize w j) as Hframe
    by (intros; by apply complete_frame).
  split.
  - intros (e & w' & H). apply _syncJobs_loop_Raised in H as (i & Hi & Hov).
    exists i. rewrite <- Hframe. split; [|done].
    apply elem_of_seq in Hi. lia.
  - intros (i & Hi & Hov).
    destruct (_syncJobs_loop _ w0) as [w1|e w1|w1] eqn:H; [|by eauto|].
    + apply _syncJobs_loop_Done in H as (_ & Hno & _).
      rewrite <- Hframe, Hno in Hov; [done|]. apply elem_of_seq. lia.
    + by apply _syncJobs_loop_not_Pending in H.
Qed.

(** *** Filling the free connections *)

(** One turn of the loop: the last job is popped and requested. *)
Lemma _processChunks_step w id k others :
  _attempts w = k :: others →
  let w0 := w <| _jobs ::= (λ jobs, take (length jobs - 1) jobs) |> in
  let w1 := (_download id (_ranges w0 !! id) w0) <| _workers ::= Z.succ |> in
  _destroyed w1 = _destroyed w ∧ _attempts w1 = _attempts w ∧
  _jobs w1 = take (length (_jobs w) - 1) (_jobs w) ∧
  _workers w1 = Z.succ (_workers w) ∧
  trace w1 = Get id (finalAddress w) (_ranges w !! id) :: trace w ∧
  finalAddress w1 = finalAddress w ∧ _ranges w1 = _ranges w ∧ _opts w1 = _opts w.
Proof.
  intros Ha. unfold _download, next_attempt. destruct w; simpl in *. subst.
  repeat split.
Qed.

(** The loop, with enough turns for the queue. *)
Lemma _processChunks_loop_spec fuel k others : ∀ w,
  _destroyed w = false → _attempts w = k :: others →
  (length (_jobs w) ≤ fuel)%nat →
  let m := Nat.min (Z.to_nat (connections (_opts w) - _workers w)) (length (_jobs w)) in
  let w' := _processChunks_loop fuel w in
  _jobs w' = take (length (_jobs w) - m) (_jobs w) ∧
  _workers w' = _workers w + Z.of_nat m ∧
  trace w' = ((λ id, Get id (finalAddress w) (_ranges w !! id))
                <$> drop (length (_jobs w) - m) (_jobs w)) ++ trace w ∧
  _destroyed w' = false.
Proof.
  induction fuel as [|fuel IH]; intros w Hd Ha Hfuel m w'.
  - subst w'. cbn. destruct (_jobs w); [|simpl in Hfuel; lia].
    subst m. rewrite Nat.min_0_r. cbn. repeat split; try done; lia.
  - subst w'. cbn [_processChunks_loop].
    destruct (_jobs w) as [|j js _] eqn:Hjobs using rev_ind.
    { cbn. subst m. rewrite Nat.min_0_r. cbn. rewrite Hjobs. repeat split; try done; lia. }
    rewrite last_snoc, Hd. cbn [negb andb].
    rewrite length_app in *. cbn [length] in *.
    destruct (Z.ltb_spec (_workers w) (connections (_opts w))) as [Hlt|Hge].
    + destruct (_processChunks_step w j k others Ha)
        as (Hd1 & Ha1 & Hj1 & Hw1 & Ht1 & Hf1 & Hr1 & Ho1).
      cbv zeta in *.
      set (w1 := w <| _jobs ::= _ |>) in *.
      set (w2 := (_download j _ w1) <| _workers ::= Z.succ |>) in *.
      rewrite Hjobs, length_app in Hj1. cbn [length] in Hj1.
      replace (length js + 1 - 1)%nat with (length js) in Hj1 by lia.
      rewrite take_app_length in Hj1.
      destruct (IH w2) as (Hj2 & Hw2 & Ht2 & Hd2);
        [congruence | congruence | rewrite Hj1; lia |].
      cbv zeta in *. rewrite Hj2, Hw2, Ht2, Hd2, Hj1, Hw1, Ht1, Hf1, Hr1, Ho1.
      set (m1 := Nat.min (Z.to_nat (connections (_opts w) - Z.succ (_workers w)))
                         (length js)).
      assert (m = S m1) as -> by (subst m m1; rewrite length_app; cbn [length]; lia).
      replace (length js + 1 - S m1)%nat with (length js - m1)%nat by lia.
      assert (length js - m1 ≤ length js)%nat by lia.
      rewrite take_app_le, drop_app_le by done.
      rewrite fmap_app. cbn [fmap list_fmap]. rewrite <- app_assoc. cbn [app].
      repeat split; try done. lia.
    + assert (m = 0%nat) as -> by (subst m; lia).
      rewrite Nat.sub_0_r.
      rewrite <- (length_app js [j]) at 1 2. rewrite <- Hjobs at 1 2.
      rewrite Hjobs. replace (length js + 1)%nat with (length (js ++ [j])) by (rewrite length_app; simpl; lia).
      rewrite firstn_all, drop_all. cbn. repeat split; try done; lia.
Qed.

(** X21.  On a live session with at least one attempt configured,
    [_processChunks] starts as many downloads as there are free
    connections ([connections - _workers]) and queued jobs: it takes
    the jobs from the end of the queue, last one first, requests each
    with its planned range at the final address, counts one worker for
    each, and leaves the rest of the queue as it was. *)
Theorem processChunks_fills_free_slots w k others :
  _destroyed w = false → _attempts w = k :: others →
  let m := Nat.min (Z.to_nat (connections (_opts w) - _workers w)) (length (_jobs w)) in
  let w' := _processChunks w in
  _jobs w' = take (length (_jobs w) - m) (_jobs w) ∧
  _workers w' = _workers w + Z.of_nat m ∧
  trace w' = ((λ id, Get id (finalAddress w) (_ranges w !! id))
                <$> drop (length (_jobs w) - m) (_jobs w)) ++ trace w ∧
  _destroyed w' = false.
Proof.
  intros Hd Ha. by apply (_processChunks_loop_spec _ k others).
Qed.

(** X21 (witness): three jobs and two connections. *)
Lemma processChunks_fills_free_slots_witness :
  let w' := _processChunks Scenario.queued in
  _jobs w' = [0%nat] ∧ _workers w' = 2 ∧
  trace w' = [Get 1 Scenario.url (Some (4, 7)); Get 2 Scenario.url (Some (8, 9))] ∧
  _destroyed w' = false.
Proof.
  exact (processChunks_fills_free_slots Scenario.queued 1%nat [2; 3]%nat
           eq_refl eq_refl).
Defined.

(** *** The parallel start *)

(** The fields the scan writes. *)
Lemma _syncJobs_body_frame i w w' :
  _syncJobs_body i w = Done w' →
  w' = w <| partsProgress := partsProgress w' |> <| _jobs := _jobs w' |>
         <| _downloadedChunks := _downloadedChunks w' |>
         <| totalProgress := totalProgress w' |> <| isResume := isResume w' |>.
Proof.
  unfold _syncJobs_body, Fs.fileStats. cbv zeta.
  repeat case_match; try done; intros [= <-]; by destruct w.
Qed.

Lemma _syncJobs_loop_frame ids w w' :
  _syncJobs_loop ids w = Done w' →
  w' = w <| partsProgress := partsProgress w' |> <| _jobs := _jobs w' |>
         <| _downloadedChunks := _downloadedChunks w' |>
         <| totalProgress := totalProgress w' |> <| isResume := isResume w' |>.
Proof.
  revert w. induction ids as [|i ids IH]; intros w H.
  - cbn in H. simplify_eq. by destruct w'.
  - cbn [_syncJobs_loop] in H.
    destruct (_syncJobs_body i w) as [w1|e w1|w1] eqn:Hbody; [|done..].
    cbn in H. apply IH in H. apply _syncJobs_body_frame in Hbody.
    rewrite H. rewrite Hbody at 1. by destruct w.
Qed.

(** Starting downloads changes neither the plan nor the chunk count. *)
Lemma _processChunks_loop_frame fuel : ∀ w,
  _ranges (_processChunks_loop fuel w) = _ranges w ∧
  _totalChunks (_processChunks_loop fuel w) = _totalChunks w.
Proof.
  induction fuel as [|fuel IH]; intros w; [done|].
  cbn [_processChunks_loop]. cbv zeta.
  destruct (last _); [|done]. destruct (_ && _); [|done].
  match goal with
  | |- context [_processChunks_loop fuel ?x] => destruct (IH x) as [-> ->]
  end.
  unfold _download, next_attempt, exhausted, destroy, begin_attempt.
  destruct w; simpl. destruct _attempts0; simpl; [destruct _destroyed0|]; done.
Qed.

(** X22.  The parallel start of a fresh session: with more than one
    connection asked for and a HEAD response that gives
    [content-length: l] and [accept-ranges: bytes], when the planner
    gives [ranges] and no chunk file on the disk is longer than its
    range, [_start] adopts the plan, queues the chunks that are not
    complete on the disk and, if there are any, requests the last
    [min connections pending] of them, each with its range at the final
    address, before it emits [metadata] with the chunk lengths. *)
Theorem start_parallel w w1 w2 saved l ranges k others :
  _started w = false → _destroyed w = false →
  _ranges w = [] → _jobs w = [] → _workers w = 0 → _attempts w = k :: others →
  _ensureDest (w <| _started := true |>) = Done w1 →
  savedFilePath w1 = Some saved →
  Fs.validate (path w1) (disk w1) saved = true →
  _getHeaders w1 = Done w2 →
  connections (_opts w) ≠ 1 →
  (h ← headers_ w2; content_length h) = Some l →
  (h ← headers_ w2; accept_ranges h) = Some "bytes" →
  Planner.calcRanges l (connections (_opts w)) (chunkSize (_opts w)) = Ok ranges →
  let planned := w2 <| _ranges := ranges |> in
  let pending := filter (λ i, complete planned i = false) (seq 0 (length ranges)) in
  let m := Nat.min (Z.to_nat (connections (_opts w))) (length pending) in
  (∀ i, (i < length ranges)%nat → oversize planned i = false) →
  pending ≠ [] →
  let w' := _start w in
  _ranges w' = ranges ∧ _totalChunks w' = length ranges ∧
  _jobs w' = take (length pending - m) pending ∧
  _workers w' = Z.of_nat m ∧
  ∃ meta,
    (meta = [] ∨
     ∃ md, meta = [Emit (ev_metadata md)] ∧
           m_chunks md = map (λ r, r.2 - r.1 + 1) ranges) ∧
    trace w' = meta ++ ((λ id, Get id (finalAddress w2) (ranges !! id))
                          <$> drop (length pending - m) pending) ++ trace w.
Proof.
  intros Hstarted Hlive Hranges Hjobs Hworkers Hattempts Hensure Hsaved Hvalid Hget
    Hconn Hlen Hacc Hplan planned pending m Hfits Hpending w'. subst w'.
  pose proof (_ensureDest_loop_frame _ _ _ Hensure) as F1.
  pose proof (_getHeaders_frame _ _ Hget) as F2.
  assert (_opts w2 = _opts w) as Hopts by (rewrite F2, F1; reflexivity).
  assert (trace w2 = trace w) as Htrace by (rewrite F2, F1; reflexivity).
  assert (_destroyed w2 = false) as Hlive2 by (rewrite F2, F1; exact Hlive).
  assert (_ranges w2 = []) as Hranges2 by (rewrite F2, F1; exact Hranges).
  assert (_jobs w2 = []) as Hjobs2 by (rewrite F2, F1; exact Hjobs).
  assert (_workers w2 = 0) as Hworkers2 by (rewrite F2, F1; exact Hworkers).
  assert (_attempts w2 = k :: others) as Hattempts2 by (rewrite F2, F1; exact Hattempts).
  set (w3 := w2 <| size := l |> <| _ranges ::= (λ pushed, pushed ++ ranges) |>).
  assert (_calcRanges (w2 <| size := l |>) = Done w3) as Hcalc.
  { unfold _calcRanges.
    change (_opts (w2 <| size := l |>)) with (_opts w2).
    change (size (w2 <| size := l |>)) with l.
    rewrite Hopts, Hplan. reflexivity. }
  assert (_ranges w3 = ranges) as Hranges3.
  { change (_ranges w3) with (_ranges w2 ++ ranges). by rewrite Hranges2. }
  set (w3' := w3 <| partsProgress := replicate (length (_ranges w3)) progress0 |>).
  assert (∀ j, complete w3' j = complete planned j ∧ oversize w3' j = oversize planned j ∧
               chunk_length w3' j = chunk_length planned j) as Hframe.
  { intros j. apply complete_frame; [|reflexivity..].
    change (_ranges w3') with (_ranges w3). by rewrite Hranges3. }
  destruct (_syncJobs_loop (seq 0 (length (_ranges w3))) w3') as [w4|e w4|w4] eqn:Hsync;
    [| apply _syncJobs_loop_Raised in Hsync as (i & Hi & Hov);
       rewrite Hranges3 in Hi; apply elem_of_seq in Hi;
       destruct (Hframe i) as (_ & Hov' & _); rewrite Hov', Hfits in Hov; [done|lia]
     | by apply _syncJobs_loop_not_Pending in Hsync].
  pose proof (_syncJobs_loop_frame _ _ _ Hsync) as F4.
  apply _syncJobs_loop_Done in Hsync as Hdone.
  destruct Hdone as [(Hr4 & _) (_ & Hj4 & _)].
  change (_ranges w3') with (_ranges w3) in Hr4. rewrite Hranges3 in Hr4.
  change (_jobs w3') with (_jobs w2) in Hj4. rewrite Hjobs2, Hranges3 in Hj4.
  rewrite (list_filter_iff (λ j, complete w3' j = false) (λ j, complete planned j = false))
    in Hj4 by (intros j; by destruct (Hframe j) as (-> & _)).
  cbn [app] in Hj4. fold pending in Hj4.
  set (w5 := w4 <| _totalChunks := length (_ranges w4) |>).
  assert (_jobs w5 = pending) as Hj5 by exact Hj4.
  assert (_ranges w5 = ranges) as Hr5 by exact Hr4.
  assert (_totalChunks w5 = length ranges) as Ht5.
  { change (_totalChunks w5) with (length (_ranges w4)). by rewrite Hr4. }
  assert (_destroyed w5 = false) as Hd5.
  { change (_destroyed w5) with (_destroyed w4). rewrite F4. exact Hlive2. }
  assert (_attempts w5 = k :: others) as Ha5.
  { change (_attempts w5) with (_attempts w4). rewrite F4. exact Hattempts2. }
  assert (_workers w5 = 0) as Hw5.
  { change (_workers w5) with (_workers w4). rewrite F4. exact Hworkers2. }
  assert (_opts w5 = _opts w) as Ho5.
  { change (_opts w5) with (_opts w4). rewrite F4. exact Hopts. }
  assert (finalAddress w5 = finalAddress w2) as Hf5.
  { change (finalAddress w5) with (finalAddress w4). rewrite F4. reflexivity. }
  assert (trace w5 = trace w) as Htr5.
  { change (trace w5) with (trace w4). rewrite F4. exact Htrace. }
  assert (_start w = announce (_processChunks w5)) as ->.
  { unfold _start. rewrite Hstarted. cbn. rewrite Hlive.
    unfold _start_try. rewrite Hensure. cbn [and_then].
    rewrite Hsaved, Hvalid. cbn [negb]. rewrite Hget. cbn [and_then]. cbv zeta.
    rewrite Hlen, Hacc, Hopts.
    assert ((connections (_opts w) =? 1) = false) as -> by lia.
    cbn [negb andb]. rewrite bool_decide_eq_true_2 by done.
    rewrite Hcalc. cbn [and_then]. unfold _syncJobs. cbv zeta.
    fold w3'. rewrite Hsync. cbn [and_then]. fold w5. rewrite Hj5.
    destruct pending; [done|reflexivity]. }
  destruct (_processChunks_loop_spec (length (_jobs w5)) k others w5 Hd5 Ha5)
    as (Hj & Hw & Ht & _); [done|].
  destruct (_processChunks_loop_frame (length (_jobs w5)) w5) as (Hr & Htot).
  fold (_processChunks w5) in Hj, Hw, Ht, Hr, Htot.
  rewrite Hj5, Hw5, Ho5, Hf5, Hr5, Htr5 in *. rewrite Ht5 in Htot.
  rewrite Z.sub_0_r in *. fold m in Hj, Hw, Ht.
  set (W := _processChunks w5) in *.
  unfold announce. destruct (0 <? listeners_metadata W)%nat.
  - split; [exact Hr|]. split; [exact Htot|]. split; [exact Hj|].
    split; [change (_workers W = Z.of_nat m); rewrite Hw; lia|].
    exists [Emit (ev_metadata (the_metadata W))]. split.
    + right. eexists. split; [reflexivity|].
      unfold the_metadata. cbn [m_chunks]. by rewrite Hr.
    + change (trace (emit (ev_metadata (the_metadata W)) W))
        with (Emit (ev_metadata (the_metadata W)) :: trace W).
      rewrite Ht. reflexivity.
  - split; [exact Hr|]. split; [exact Htot|]. split; [exact Hj|].
    split; [rewrite Hw; lia|].
    exists []. split; [by left|]. exact Ht.
Qed.

(** X22 (witness): a resumed download; the file of chunk 1 is complete
    and only chunk 0 is requested. *)
Lemma start_parallel_witness :
  let w' := _start Scenario.resumed in
  _ranges w' = [(0, 4); (5, 9)] ∧ _totalChunks w' = 2%nat ∧
  _jobs w' = [] ∧ _workers w' = 1 ∧
  ∃ meta,
    (meta = [] ∨
     ∃ md, meta = [Emit (ev_metadata md)] ∧ m_chunks md = [5; 5]) ∧
    trace w' = meta ++ [Get 0 Scenario.url (Some (0, 4))].
Proof.
  refine (start_parallel
            Scenario.resumed
            (Scenario.resumed <| _started := true |>)
            (Scenario.resumed <| _started := true |>
               <| headers_ := Some (Scenario.ranged 10) |>)
            Scenario.dest 10 [(0, 4); (5, 9)] 1%nat [2; 3]%nat
            eq_refl eq_refl eq_refl eq_refl eq_refl eq_refl eq_refl eq_refl eq_refl
            eq_refl _ eq_refl eq_refl eq_refl _ _).
  - vm_compute. lia.
  - intros [|[|i]] Hi; [reflexivity | reflexivity | simpl in Hi; lia].
  - vm_compute. discriminate.
Defined.

(** *** No attempt to make *)

(** X23.  With [maxRetry: 0] the list of attempts is empty, and a
    download can only fail: in single-request mode [_start] emits
    [error] for chunk 0 and [close] without issuing a request, the
    session is destroyed, the disk is as it was, and [metadata] comes
    last, after [close]. *)
Theorem start_without_attempts w w1 w2 saved :
  _started w = false → _destroyed w = false →
  _ensureDest (w <| _started := true |>) = Done w1 →
  savedFilePath w1 = Some saved →
  Fs.validate (path w1) (disk w1) saved = true →
  _getHeaders w1 = Done w2 →
  connections (_opts w2) = 1 ∨ (h ← headers_ w2; content_length h) = None ∨
  (h ← headers_ w2; accept_ranges h) ≠ Some "bytes" →
  _attempts w = [] →
  let w' := _start w in
  _destroyed w' = true ∧ disk w' = disk w ∧ tasks w' = delete 0%nat (tasks w) ∧
  ∃ meta,
    (meta = [] ∨ ∃ md, meta = [Emit (ev_metadata md)]) ∧
    trace w' = meta ++ Emit ev_close :: Emit (ev_error (Chunk_failed 0 None)) :: trace w.
Proof.
  intros Hstarted Hlive Hensure Hsaved Hvalid Hget Hsingle Hattempts w'. subst w'.
  pose proof (_ensureDest_loop_frame _ _ _ Hensure) as F1.
  pose proof (_getHeaders_frame _ _ Hget) as F2.
  assert (_attempts (single_request w2) = []) as Ha
      by (rewrite F2, F1; exact Hattempts).
  assert (trace w2 = trace w) as Ht by (rewrite F2, F1; reflexivity).
  assert (disk w2 = disk w) as Hd by (rewrite F2, F1; reflexivity).
  assert (tasks w2 = tasks w) as Hk by (rewrite F2, F1; reflexivity).
  assert (_destroyed w2 = false) as Hlive2 by (rewrite F2, F1; exact Hlive).
  assert (_start w = announce (exhausted 0 None (single_request w2))) as ->.
  { rewrite (start_single_request w w1 w2 saved) by done.
    unfold _download. rewrite Ha. reflexivity. }
  set (failed := emit (ev_error (Chunk_failed 0 None))
                      ((single_request w2) <| tasks ::= delete 0%nat |>)).
  assert (_destroyed failed = false) as Hlive3 by exact Hlive2.
  assert (exhausted 0 None (single_request w2)
          = emit ev_close ((failed <| _destroyed := true |>)
                             <| _reqs ::= fmap (λ _, {| destroyed := true |}) |>))
    as ->.
  { unfold exhausted. fold failed. unfold destroy. by rewrite Hlive3. }
  unfold announce.
  match goal with |- context [(0 <? ?n)%nat] => destruct (0 <? n)%nat end.
  - split; [reflexivity|]. split; [rewrite <- Hd; reflexivity|].
    split; [rewrite <- Hk; reflexivity|].
    eexists [_]. split; [right; eexists; reflexivity|].
    rewrite <- Ht. reflexivity.
  - split; [reflexivity|]. split; [rewrite <- Hd; reflexivity|].
    split; [rewrite <- Hk; reflexivity|].
    exists []. split; [by left|]. rewrite <- Ht. reflexivity.
Qed.

(** X23 (witness): one connection and [maxRetry: 0]. *)
Lemma start_without_attempts_witness :
  let w' := _start Scenario.no_retry in
  _destroyed w' = true ∧ disk w' = disk Scenario.no_retry ∧
  tasks w' = delete 0%nat (tasks Scenario.no_retry) ∧
  ∃ meta,
    (meta = [] ∨ ∃ md, meta = [Emit (ev_metadata md)]) ∧
    trace w' = meta ++ Emit ev_close :: Emit (ev_error (Chunk_failed 0 None))
                    :: trace Scenario.no_retry.
Proof.
  exact (start_without_attempts
           Scenario.no_retry
           (Scenario.no_retry <| _started := true |>)
           (Scenario.no_retry <| _started := true |>
              <| headers_ := Some (Scenario.ranged 10) |>)
           Scenario.dest
           eq_refl eq_refl eq_refl eq_refl eq_refl eq_refl
           (or_introl eq_refl) eq_refl).
Defined.

(** *** [close] is emitted at most once *)

(** An update that keeps the trace and the flag keeps the invariant. *)
Lemma close_once_frame w w' :
  trace w' = trace w → _destroyed w' = _destroyed w → close_once w → close_once w'.
Proof. unfold close_once. by intros -> ->. Qed.

Lemma close_once_emit e w :
  e ≠ ev_close → close_once w → close_once (emit e w).
Proof. unfold close_once, emit. cbn. destruct e; done. Qed.

Lemma close_once_destroy w : close_once w → close_once (destroy w).
Proof.
  unfold close_once, destroy. destruct (_destroyed w) eqn:E; cbn; [by rewrite E|].
  by intros ->.
Qed.

Lemma close_once_set {E} (proj : world → E) {setter : Setter proj} (g : E → E) w :
  (∀ w0, trace (set proj g w0) = trace w0) →
  (∀ w0, _destroyed (set proj g w0) = _destroyed w0) →
  close_once w → close_once (set proj g w).
Proof. intros Ht Hd. apply close_once_frame; auto. Qed.

Lemma close_once_get id address range w :
  close_once w → close_once (w <| trace ::= cons (Get id address range) |>).
Proof. intros H. exact H. Qed.

Lemma close_once_delay id ms w :
  close_once w → close_once (w <| trace ::= cons (Delay id ms) |>).
Proof. intros H. exact H. Qed.

#[local] Opaque close_once.


Lemma close_once_if (b : bool) w1 w2 :
  close_once w1 → close_once w2 → close_once (if b then w1 else w2).
Proof. by destruct b. Qed.

Ltac split_cases :=
  repeat match goal with
         | |- close_once (if _ then _ else _) => apply close_once_if
         | |- close_once (match ?x with _ => _ end) => destruct x eqn:?
         | |- close_once_result (match ?x with _ => _ end) => destruct x eqn:?
         end.

Ltac close_once_step :=
  first
    [ assumption
    | simple apply close_once_destroy
    | simple apply close_once_emit; [discriminate|]
    | simple apply close_once_get
    | simple apply close_once_delay
    | simple apply close_once_set; [intro; reflexivity | intro; reflexivity | ]
    | simple apply close_once_if
    | match goal with
      | |- close_once (match ?x with _ => _ end) => destruct x eqn:?
      end
    ].

Ltac close_once_with lemmas := cbv zeta; repeat first [close_once_step | lemmas].
Ltac close_once_cases := close_once_with fail.


Lemma close_once__report id force t0 now w :
  close_once w → close_once (_report id force t0 now w).
Proof. intros. unfold _report. close_once_cases. Qed.

Lemma close_once_finish_build w : close_once w → close_once (finish_build w).
Proof. intros. unfold finish_build. close_once_cases. Qed.

Lemma close_once_next_unlink i w : close_once w → close_once (next_unlink i w).
Proof.
  intros. unfold next_unlink.
  close_once_with ltac:(simple apply close_once_finish_build).
Qed.

Lemma close_once_next_pipe i w : close_once w → close_once (next_pipe i w).
Proof.
  intros. unfold next_pipe.
  close_once_with ltac:(simple apply close_once_next_unlink).
Qed.

Lemma close_once__buildFile w : close_once w → close_once (_buildFile w).
Proof.
  intros. unfold _buildFile.
  close_once_with ltac:(simple apply close_once_next_pipe).
Qed.

Lemma close_once_on_piped failure w : close_once w → close_once (on_piped failure w).
Proof.
  intros. unfold on_piped.
  close_once_with ltac:(simple apply close_once_next_pipe).
Qed.

Lemma close_once_on_unlinked w : close_once w → close_once (on_unlinked w).
Proof.
  intros. unfold on_unlinked.
  close_once_with ltac:(simple apply close_once_next_unlink).
Qed.

Lemma close_once_next_attempt id range attempts w :
  close_once w → close_once (next_attempt id range attempts w).
Proof. intros. unfold next_attempt, exhausted, begin_attempt. close_once_cases. Qed.

Lemma close_once__download id range w : close_once w → close_once (_download id range w).
Proof. intros. by apply close_once_next_attempt. Qed.

Lemma close_once__processChunks_loop fuel w :
  close_once w → close_once (_processChunks_loop fuel w).
Proof.
  revert w. induction fuel as [|fuel IH]; intros w H; [done|].
  cbn [_processChunks_loop].
  close_once_with ltac:(first [simple apply IH | simple apply close_once__download]).
Qed.

Lemma close_once__onChunkCompleted id t0 now w :
  close_once w → close_once (_onChunkCompleted id t0 now w).
Proof.
  intros. unfold _onChunkCompleted, _processChunks.
  close_once_with ltac:(first [simple apply close_once__buildFile
                              | simple apply close_once__processChunks_loop
                              | simple apply close_once__report]).
Qed.

Lemma close_once_on_ready id statusCode h w :
  close_once w → close_once (on_ready id statusCode h w).
Proof. intros. unfold on_ready, reject_response. close_once_cases. Qed.

Lemma close_once_on_data id len t0 now w :
  close_once w → close_once (on_data id len t0 now w).
Proof.
  intros. unfold on_data. close_once_with ltac:(simple apply close_once__report).
Qed.

Lemma close_once_on_error e w : close_once w → close_once (on_error e w).
Proof. intros. unfold on_error. close_once_cases. Qed.

Lemma close_once_on_close id w : close_once w → close_once (on_close id w).
Proof.
  intros. unfold on_close. close_once_cases.
Qed.

Lemma close_once_settle_rename id failure w :
  close_once w → close_once (settle_rename id failure w).
Proof. intros. unfold settle_rename. close_once_cases. Qed.

Lemma close_once_on_renamed id failure t0 now w :
  close_once w → close_once (on_renamed id failure t0 now w).
Proof.
  intros. unfold on_renamed.
  close_once_with ltac:(first [simple apply close_once__onChunkCompleted
                              | simple apply close_once_settle_rename]).
Qed.

Lemma close_once_on_delay id w : close_once w → close_once (on_delay id w).
Proof.
  intros. unfold on_delay.
  close_once_with ltac:(simple apply close_once_next_attempt).
Qed.

Lemma close_once_and_then r k :
  close_once_result r → (∀ w, close_once w → close_once_result (k w)) →
  close_once_result (and_then r k).
Proof. destruct r; simpl; auto. Qed.

Lemma close_once__ensureDest_loop fuel w :
  close_once w → close_once_result (_ensureDest_loop fuel w).
Proof.
  revert w. induction fuel as [|fuel IH]; intros w H; [done|].
  cbn [_ensureDest_loop]. split_cases; try apply IH; simpl; close_once_cases.
Qed.

Lemma close_once__getHeaders w : close_once w → close_once_result (_getHeaders w).
Proof. intros. unfold _getHeaders. split_cases; simpl; close_once_cases. Qed.

Lemma close_once__calcRanges w : close_once w → close_once_result (_calcRanges w).
Proof. intros. unfold _calcRanges. split_cases; simpl; close_once_cases. Qed.

Lemma close_once__syncJobs_body i w :
  close_once w → close_once_result (_syncJobs_body i w).
Proof.
  intros. unfold _syncJobs_body. cbv zeta. split_cases; simpl; close_once_cases.
Qed.

Lemma close_once__syncJobs_loop ids w :
  close_once w → close_once_result (_syncJobs_loop ids w).
Proof.
  revert w. induction ids as [|i ids IH]; intros w H; [done|].
  cbn [_syncJobs_loop]. apply close_once_and_then; [|done].
  by apply close_once__syncJobs_body.
Qed.

Lemma close_once__syncJobs w : close_once w → close_once_result (_syncJobs w).
Proof.
  intros. unfold _syncJobs. apply close_once__syncJobs_loop. close_once_cases.
Qed.

Lemma close_once_announce w : close_once w → close_once (announce w).
Proof. intros. unfold announce. close_once_cases. Qed.

Lemma close_once__start_try w : close_once w → close_once_result (_start_try w).
Proof.
  intros H. unfold _start_try.
  apply close_once_and_then; [by apply close_once__ensureDest_loop|].
  clear w H. intros w H. destruct (savedFilePath w); [|done].
  destruct (negb _); [done|].
  apply close_once_and_then; [by apply close_once__getHeaders|].
  clear w H. intros w H. cbv zeta.
  destruct (_ ≫= _) as [l|].
  - destruct (_ && _).
    + apply close_once_and_then; [apply close_once__calcRanges; close_once_cases|].
      clear w H. intros w H.
      apply close_once_and_then; [by apply close_once__syncJobs|].
      clear w H. intros w H. simpl. apply close_once_announce.
      destruct (_jobs _); unfold _processChunks;
        close_once_with ltac:(first [simple apply close_once__buildFile
                                    | simple apply close_once__processChunks_loop]).
    + simpl. close_once_with ltac:(first [simple apply close_once_announce
                                         | simple apply close_once__download]).
  - simpl. close_once_with ltac:(first [simple apply close_once_announce
                                       | simple apply close_once__download]).
Qed.

Lemma close_once__start w : close_once w → close_once (_start w).
Proof.
  intros H. unfold _start. destruct (_started w); [done|]. cbv zeta.
  apply close_once_if; [close_once_cases|].
  assert (close_once (w <| _started := true |>)) as H' by close_once_cases.
  apply close_once__start_try in H'.
  destruct (_start_try _); simpl in H'; close_once_cases.
Qed.

(** Every step of an execution keeps [close] and [_destroyed] in step. *)
Lemma close_once_deliver i w : close_once w → close_once (deliver i w).
Proof.
  intros H. destruct i; simpl;
    auto using close_once__start, close_once_destroy, close_once_on_ready,
      close_once_on_data, close_once_on_error, close_once_on_close,
      close_once_on_renamed, close_once_on_delay, close_once_on_piped,
      close_once_on_unlinked.
Qed.

Lemma close_once_run inputs w : close_once w → close_once (run inputs w).
Proof.
  revert w. induction inputs as [|i inputs IH]; intros w H; [done|].
  apply IH. by apply close_once_deliver.
Qed.

#[local] Transparent close_once.

(** X24.  Over every execution of a session, from its construction on:
    [close] has been emitted at most once, and it has been emitted
    exactly when the session is destroyed. *)
Theorem close_at_most_once url dest opts now pl ml disk network path inputs :
  let w := run inputs (constructor url dest opts now pl ml disk network path) in
  closes (trace w) = if _destroyed w then 1%nat else 0%nat.
Proof. apply close_once_run. reflexivity. Qed.

(** *** The accounts of a session

    Over an execution every planned chunk is in one place at most: in
    the queue, in flight, or counted as downloaded; the assembly starts
    when all are counted, and [end] is emitted with [_done]. *)

(** An update that keeps the fields of the accounts keeps them in
    order; [_destroyed] may be set. *)
Lemma accounted_frame w w' :
  _jobs w' = _jobs w → tasks w' = tasks w →
  _downloadedChunks w' = _downloadedChunks w → _totalChunks w' = _totalChunks w →
  _started w' = _started w → assembly w' = assembly w → _done w' = _done w →
  (_destroyed w = true → _destroyed w' = true) → ends (trace w') = ends (trace w) →
  accounted w → accounted w'.
Proof.
  unfold accounted. intros -> -> -> -> -> -> -> Hd ->.
  intros (H1 & H2 & H3 & H4 & H5 & H6 & H7). split_and!; try done.
  intros Hdone. destruct (H7 Hdone). auto.
Qed.

Ltac framed :=
  match goal with
  | H : accounted ?w |- accounted _ =>
      apply (accounted_frame w);
      [reflexivity | reflexivity | reflexivity | reflexivity | reflexivity
      | reflexivity | reflexivity
      | first [let Hx := fresh in intros Hx; exact Hx | intros _; reflexivity]
      | reflexivity | exact H]
  end.

Lemma accounted_destroy w : accounted w → accounted (destroy w).
Proof. intros H. unfold destroy. destruct (_destroyed w) eqn:Hd; [done|]. framed. Qed.

(** A session that is not destroyed, or is assembling, is not done. *)
Lemma accounted_live w : accounted w → _destroyed w = false → _done w = false.
Proof.
  intros (_ & _ & _ & _ & _ & _ & H7) Hd.
  destruct (_done w); [|done]. destruct H7 as [H7 _]; congruence.
Qed.

Lemma accounted_assembling w a : accounted w → assembly w = Some a → _done w = false.
Proof.
  intros (_ & _ & _ & _ & _ & _ & H7) Ha.
  destruct (_done w); [|done]. destruct H7 as [_ H7]; congruence.
Qed.

Lemma accounted_complete w a :
  accounted w → assembly w = Some a → _downloadedChunks w = _totalChunks w.
Proof. intros (_ & _ & _ & _ & H5 & _) Ha. apply H5. left. congruence. Qed.

(** [_report] emits [progress] and counts bytes. *)
Lemma accounted__report id force t0 now w :
  accounted w → accounted (_report id force t0 now w).
Proof.
  intros H. unfold _report. cbv zeta.
  repeat case_match; framed.
Qed.

(** The end of the assembly. *)
Lemma accounted_finish_build w :
  accounted w → _done w = false → _started w = true →
  _downloadedChunks w = _totalChunks w →
  accounted (finish_build w).
Proof.
  intros (H1 & H2 & H3 & H4 & H5 & H6 & H7) Hdone Hstarted Hall.
  rewrite Hdone in H6.
  unfold finish_build, destroy.
  change (_destroyed (emit ev_end _)) with (_destroyed w).
  destruct (_destroyed w) eqn:Hd.
  - split_and!; try done.
    + intros Hs. change (_started w = false) in Hs. congruence.
    + change (S (ends (trace w)) = 1%nat). by rewrite H6.
  - split_and!; try done.
    + intros Hs. change (_started w = false) in Hs. congruence.
    + change (S (ends (trace w)) = 1%nat). by rewrite H6.
Qed.

(** Nothing is suspended before the start. *)
Lemma accounted_started_task w id t :
  accounted w → tasks w !! id = Some t → _started w = true.
Proof.
  intros (_ & _ & H3 & H4 & _) Ht. destruct (_started w); [done|].
  destruct H4 as [H4 _]; [done|].
  assert (base.size (tasks w) = 0%nat) as Hsize by lia.
  apply map_size_empty_iff in Hsize. by rewrite Hsize, lookup_empty in Ht.
Qed.

Lemma accounted_started_assembly w a :
  accounted w → assembly w = Some a → _started w = true.
Proof.
  intros (_ & _ & _ & H4 & _) Ha. destruct (_started w); [done|].
  destruct H4 as (_ & H4 & _); [done|]. congruence.
Qed.

(** The assembly moves on only in a started session with every chunk
    counted. *)
Lemma accounted_assembly w a :
  accounted w → _done w = false → _started w = true →
  _downloadedChunks w = _totalChunks w →
  accounted (w <| assembly := a |>).
Proof.
  intros (H1 & H2 & H3 & H4 & H5 & H6 & H7) Hdone Hstarted Hall.
  split_and!; try done.
  - intros Hs. change (_started w = false) in Hs. congruence.
  - intros Hd. change (_done w = true) in Hd. congruence.
Qed.

Lemma accounted_next_unlink i w :
  accounted w → _done w = false → _started w = true →
  _downloadedChunks w = _totalChunks w →
  accounted (next_unlink i w).
Proof.
  intros H Hdone Hstarted Hall. unfold next_unlink.
  destruct (i <? _totalChunks w)%nat;
    [by apply accounted_assembly | by apply accounted_finish_build].
Qed.

Lemma accounted_next_pipe i w :
  accounted w → _done w = false → _started w = true →
  _downloadedChunks w = _totalChunks w →
  accounted (next_pipe i w).
Proof.
  intros H Hdone Hstarted Hall. unfold next_pipe.
  destruct (i <? _totalChunks w)%nat;
    [by apply accounted_assembly | by apply accounted_next_unlink].
Qed.

Lemma accounted__buildFile w :
  accounted w → _started w = true → _downloadedChunks w = _totalChunks w →
  accounted (_buildFile w).
Proof.
  intros H Hstarted Hall. unfold _buildFile.
  destruct (_destroyed w) eqn:Hd; [done|]. cbv zeta.
  pose proof (accounted_live w H Hd) as Hdone.
  apply accounted_next_pipe; [framed|done..].
Qed.

Lemma accounted_on_piped failure w : accounted w → accounted (on_piped failure w).
Proof.
  intros H. unfold on_piped.
  destruct (assembly w) as [[i|i]|] eqn:Ha; [|done..].
  pose proof (accounted_assembling w _ H Ha) as Hdone.
  pose proof (accounted_started_assembly w _ H Ha) as Hstarted.
  pose proof (accounted_complete w _ H Ha) as Hall.
  assert (accounted (w <| assembly := None |>)) as Hnone
      by (by apply accounted_assembly).
  destruct failure as [e|].
  - apply accounted_destroy. framed.
  - destruct (disk w !! chunkFile w i).
    + cbv zeta. apply accounted_next_pipe; [framed|done..].
    + apply accounted_destroy. framed.
Qed.

Lemma accounted_on_unlinked w : accounted w → accounted (on_unlinked w).
Proof.
  intros H. unfold on_unlinked.
  destruct (assembly w) as [[i|i]|] eqn:Ha; [done| |done].
  pose proof (accounted_assembling w _ H Ha) as Hdone.
  pose proof (accounted_started_assembly w _ H Ha) as Hstarted.
  pose proof (accounted_complete w _ H Ha) as Hall.
  apply accounted_next_unlink; [framed|done..].
Qed.

(** The suspended downloads. *)
Lemma accounted_tasks_update id t w :
  accounted w → is_Some (tasks w !! id) →
  accounted (w <| tasks ::= <[id := t]> |>).
Proof.
  intros (H1 & H2 & H3 & H4 & H5 & H6 & H7) [t0 Ht].
  split_and!; try done.
  - intros id' Hid'. change (<[id := t]> (tasks w) !! id' = None).
    rewrite lookup_insert_ne; [by apply H2|].
    intros ->. rewrite (H2 _ Hid') in Ht. discriminate.
  - change (_downloadedChunks w + base.size (<[id := t]> (tasks w)) + length (_jobs w)
            ≤ _totalChunks w)%nat.
    rewrite map_size_insert_Some; [done|by eexists].
Qed.

Lemma accounted_tasks_delete id w :
  accounted w → accounted (w <| tasks ::= delete id |>).
Proof.
  intros (H1 & H2 & H3 & H4 & H5 & H6 & H7).
  split_and!; try done.
  - intros id' Hid'. change (delete id (tasks w) !! id' = None).
    apply lookup_delete_None. right. by apply H2.
  - change (_downloadedChunks w + base.size (delete id (tasks w)) + length (_jobs w)
            ≤ _totalChunks w)%nat.
    pose proof (map_size_delete id (tasks w)) as Hsize.
    destruct (tasks w !! id); cbn in Hsize; lia.
Qed.

Lemma accounted_tasks_start id t w :
  accounted w → room w → tasks w !! id = None → id ∉ _jobs w →
  accounted (w <| tasks ::= <[id := t]> |>).
Proof.
  intros (H1 & H2 & H3 & H4 & H5 & H6 & H7) Hroom Ht Hid. unfold room in Hroom.
  split_and!; try done.
  - intros id' Hid'. change (<[id := t]> (tasks w) !! id' = None).
    rewrite lookup_insert_ne; [by apply H2|]. by intros ->.
  - change (_downloadedChunks w + base.size (<[id := t]> (tasks w)) + length (_jobs w)
            ≤ _totalChunks w)%nat.
    rewrite map_size_insert_None by done. lia.
Qed.

Lemma accounted_exhausted id range w : accounted w → accounted (exhausted id range w).
Proof.
  intros H. unfold exhausted. apply accounted_destroy.
  pose proof (accounted_tasks_delete id w H). framed.
Qed.

Lemma accounted_retry id range attempts w :
  accounted w → is_Some (tasks w !! id) →
  accounted (next_attempt id range attempts w).
Proof.
  intros H Ht. destruct attempts as [|k others]; [by apply accounted_exhausted|].
  unfold next_attempt, begin_attempt. cbv zeta.
  apply accounted_tasks_update; [framed|exact Ht].
Qed.

Lemma accounted_first id range attempts w :
  accounted w → room w → tasks w !! id = None → id ∉ _jobs w →
  accounted (next_attempt id range attempts w).
Proof.
  intros H Hroom Ht Hid. destruct attempts as [|k others]; [by apply accounted_exhausted|].
  unfold next_attempt, begin_attempt. cbv zeta.
  apply accounted_tasks_start; [framed|exact Hroom|exact Ht|exact Hid].
Qed.

(** A job leaves the queue for the suspended downloads. *)
Lemma accounted__processChunks_loop fuel : ∀ w,
  accounted w → accounted (_processChunks_loop fuel w).
Proof.
  induction fuel as [|fuel IH]; intros w H; [done|].
  cbn [_processChunks_loop].
  destruct (_jobs w) as [|id js _] eqn:Hjobs using rev_ind; [done|].
  rewrite last_snoc. destruct (_ && _); [|done]. cbv zeta.
  apply IH.
  set (w1 := w <| _jobs ::= _ |>).
  assert (_jobs w1 = js) as Hjs.
  { change (_jobs w1) with (take (length (_jobs w) - 1) (_jobs w)).
    rewrite Hjobs, length_app. cbn [length].
    replace (length js + 1 - 1)%nat with (length js) by lia.
    by rewrite take_app_length. }
  destruct H as (H1 & H2 & H3 & H4 & H5 & H6 & H7).
  rewrite Hjobs in H1, H2, H3. rewrite length_app in H3. cbn [length] in H3.
  apply NoDup_app in H1 as (Hnd & Hnot & _).
  assert (accounted w1) as Hw1.
  { unfold accounted. rewrite Hjs. split_and!; try done.
    - intros id' Hid'. apply H2. apply elem_of_app. by left.
    - change (_downloadedChunks w + base.size (tasks w) + length js ≤ _totalChunks w)%nat.
      lia. }
  assert (accounted (_download id (_ranges w1 !! id) w1)) as Hw2.
  { apply accounted_first; [exact Hw1| | |].
    - unfold room. rewrite Hjs.
      change (_downloadedChunks w + base.size (tasks w) + length js + 1
              ≤ _totalChunks w)%nat. lia.
    - apply H2. apply elem_of_app. right. apply elem_of_cons. by left.
    - rewrite Hjs. intros Hin. apply (Hnot _ Hin). apply elem_of_cons. by left. }
  framed.
Qed.

Lemma _report_room id force t0 now w :
  (room w → room (_report id force t0 now w)) ∧
  _started (_report id force t0 now w) = _started w.
Proof.
  unfold room, _report. cbv zeta. repeat case_match; split; (done || intros H; exact H).
Qed.

(** One more chunk is counted as downloaded. *)
Lemma accounted_counted g w :
  accounted w → room w →
  accounted (w <| partsProgress ::= g |> <| _workers ::= Z.pred |>
               <| _downloadedChunks ::= S |>).
Proof.
  intros (H1 & H2 & H3 & H4 & H5 & H6 & H7) Hroom. unfold room in Hroom.
  assert (assembly w = None ∧ _done w = false) as [Hnone Hnot].
  { split.
    - destruct (assembly w); [|done]. exfalso.
      assert (_downloadedChunks w = _totalChunks w) by (apply H5; by left). lia.
    - destruct (_done w); [|done]. exfalso.
      assert (_downloadedChunks w = _totalChunks w) by (apply H5; by right). lia. }
  split_and!; try done.
  - change (S (_downloadedChunks w) + base.size (tasks w) + length (_jobs w)
            ≤ _totalChunks w)%nat. lia.
  - intros [Ha|Hd]; [by destruct Ha|].
    change (_done w = true) in Hd. congruence.
Qed.

Lemma accounted__onChunkCompleted id t0 now w :
  accounted w → room w → _started w = true →
  accounted (_onChunkCompleted id t0 now w).
Proof.
  intros H Hroom Hstarted. unfold _onChunkCompleted.
  destruct (_reqs w !! id); [|done]. cbv zeta.
  assert (accounted (w <| _reqs ::= delete id |>)) as H1 by framed.
  apply (accounted__report id true t0 now) in H1.
  destruct (_report_room id true t0 now (w <| _reqs ::= delete id |>)) as [Hs2 Hst2].
  specialize (Hs2 Hroom).
  change (_started (w <| _reqs ::= delete id |>)) with (_started w) in Hst2.
  rewrite Hstarted in Hst2.
  generalize dependent (_report id true t0 now (w <| _reqs ::= delete id |>)).
  intros w2 H2 Hs2 Hst2.
  pose proof (accounted_counted
                (<[id := (default progress0 (partsProgress w2 !! id))
                           <| speed := Js.of_Z 0 |>]>) w2 H2 Hs2) as H3.
  destruct (_ =? _)%nat eqn:Hall.
  - apply accounted__buildFile; [exact H3|exact Hst2|].
    by apply Nat.eqb_eq in Hall.
  - by apply accounted__processChunks_loop.
Qed.

(** The handlers of a request. *)
Lemma listening_task id w t : listening id w = Some t → is_Some (tasks w !! id).
Proof. unfold listening. destruct (tasks w !! id); [by eexists|done]. Qed.

Lemma accounted_on_ready id statusCode h w :
  accounted w → accounted (on_ready id statusCode h w).
Proof.
  intros H. unfold on_ready.
  destruct (listening id w) as [t|] eqn:Hl; [|done].
  apply listening_task in Hl.
  destruct (ready t); [done|]. cbv zeta.
  destruct (response_error _ _ _ _ _).
  - unfold reject_response.
    pose proof (accounted_tasks_update id (t <| ready := true |> <| chunk_error := Some e |>)
                  w H Hl).
    framed.
  - apply accounted_tasks_update; [|by repeat case_match].
    repeat case_match; (done || framed).
Qed.

Lemma accounted_on_data id len t0 now w :
  accounted w → accounted (on_data id len t0 now w).
Proof.
  intros H. unfold on_data. destruct (listening id w); [|done]. cbv zeta.
  apply accounted__report. framed.
Qed.

Lemma accounted_on_error e w : accounted w → accounted (on_error e w).
Proof. intros H. unfold on_error. destruct (_destroyed w); [done|framed]. Qed.

Lemma accounted_on_close id w : accounted w → accounted (on_close id w).
Proof.
  intros H. unfold on_close.
  destruct (tasks w !! id) as [t|] eqn:Ht; [|done].
  assert (is_Some (tasks w !! id)) as Hsome by (by eexists).
  destruct (awaits t); [|done..].
  destruct (negb (ready t)); [done|].
  destruct (_destroyed w); [by apply accounted_tasks_delete|].
  destruct (chunk_error t) as [e|]; [|by apply accounted_tasks_update].
  cbv zeta. unfold delay.
  apply accounted_tasks_update; [framed|exact Hsome].
Qed.

Lemma accounted_settle_rename id failure w :
  accounted w → accounted (settle_rename id failure w).
Proof.
  intros H. unfold settle_rename. cbv zeta. repeat case_match; framed.
Qed.

Lemma accounted_on_renamed id failure t0 now w :
  accounted w → accounted (on_renamed id failure t0 now w).
Proof.
  intros H. unfold on_renamed.
  destruct (tasks w !! id) as [t|] eqn:Ht; [|done].
  destruct (awaits t); [done| |done].
  pose proof (accounted_started_task w id t H Ht) as Hstarted.
  assert (room (w <| tasks ::= delete id |>)) as Hroom.
  { destruct H as (_ & _ & H3 & _). unfold room.
    change (_downloadedChunks w + base.size (delete id (tasks w)) + length (_jobs w) + 1
            ≤ _totalChunks w)%nat.
    pose proof (map_size_delete id (tasks w)) as Hsize. rewrite Ht in Hsize. cbn in Hsize.
    assert (base.size (tasks w) ≠ 0%nat).
    { intros Hz. apply map_size_empty_iff in Hz. by rewrite Hz, lookup_empty in Ht. }
    lia. }
  apply (accounted_tasks_delete id) in H.
  apply accounted__onChunkCompleted.
  - unfold settle_rename. cbv zeta. repeat case_match; framed.
  - unfold settle_rename. cbv zeta. repeat case_match; exact Hroom.
  - unfold settle_rename. cbv zeta. repeat case_match; exact Hstarted.
Qed.

Lemma accounted_on_delay id w : accounted w → accounted (on_delay id w).
Proof.
  intros H. unfold on_delay.
  destruct (tasks w !! id) as [t|] eqn:Ht; [|done].
  destruct (awaits t); [done..|].
  apply accounted_retry; [done|by eexists].
Qed.

(** *** The start procedure *)

Lemma idle_frame w w' :
  _started w' = _started w → tasks w' = tasks w → assembly w' = assembly w →
  _done w' = _done w → ends (trace w') = ends (trace w) → idle w → idle w'.
Proof. unfold idle. by intros -> -> -> -> ->. Qed.

Lemma unplanned_frame w w' :
  _started w' = _started w → tasks w' = tasks w → assembly w' = assembly w →
  _done w' = _done w → ends (trace w') = ends (trace w) →
  _downloadedChunks w' = _downloadedChunks w → _totalChunks w' = _totalChunks w →
  _jobs w' = _jobs w → unplanned w → unplanned w'.
Proof.
  unfold unplanned. intros E1 E2 E3 E4 E5 -> -> -> [H ?]. split; [|done].
  by apply (idle_frame w).
Qed.

Lemma unplanned_accounted w : unplanned w → accounted w.
Proof.
  intros ((Hs & Ht & Ha & Hd & He) & Hn & Htot & Hj).
  unfold accounted. rewrite Hs, Ht, Ha, Hd, He, Hn, Htot, Hj.
  split_and!; try done.
  all: try apply NoDup_nil_2.
  all: try (intros id Hid; by apply elem_of_nil in Hid).
  all: try (intros [?|?]; done).
Qed.

Lemma idle_dead e w : idle w → dead (destroy (emit (ev_error e) w)).
Proof.
  intros (Hs & Ht & Ha & Hd & He). unfold destroy.
  change (_destroyed (emit (ev_error e) w)) with (_destroyed w).
  destruct (_destroyed w) eqn:Hdes; unfold dead; split_and!; done.
Qed.

(** The fields each segment of [_start] writes, however it ends. *)
Lemma _ensureDest_loop_world fuel w :
  world_of (_ensureDest_loop fuel w)
  = w <| savedFilePath := savedFilePath (world_of (_ensureDest_loop fuel w)) |>.
Proof.
  revert w. induction fuel as [|fuel IH]; intros w; [by destruct w|].
  cbn [_ensureDest_loop].
  repeat case_match; try (by destruct w);
    match goal with
    | |- context [_ensureDest_loop fuel ?x] => rewrite (IH x)
    end; by destruct w.
Qed.

Lemma _getHeaders_world w :
  world_of (_getHeaders w)
  = w <| finalAddress := finalAddress (world_of (_getHeaders w)) |>
      <| headers_ := headers_ (world_of (_getHeaders w)) |>.
Proof. unfold _getHeaders. repeat case_match; by destruct w. Qed.

Lemma _calcRanges_world w :
  world_of (_calcRanges w) = w <| _ranges := _ranges (world_of (_calcRanges w)) |>.
Proof. unfold _calcRanges. repeat case_match; by destruct w. Qed.

Lemma _syncJobs_body_world i w :
  let w' := world_of (_syncJobs_body i w) in
  w' = w <| partsProgress := partsProgress w' |> <| _jobs := _jobs w' |>
         <| _downloadedChunks := _downloadedChunks w' |>
         <| totalProgress := totalProgress w' |> <| isResume := isResume w' |>.
Proof.
  unfold _syncJobs_body, Fs.fileStats. cbv zeta. repeat case_match; by destruct w.
Qed.

Lemma _syncJobs_loop_world ids : ∀ w,
  let w' := world_of (_syncJobs_loop ids w) in
  w' = w <| partsProgress := partsProgress w' |> <| _jobs := _jobs w' |>
         <| _downloadedChunks := _downloadedChunks w' |>
         <| totalProgress := totalProgress w' |> <| isResume := isResume w' |>.
Proof.
  induction ids as [|i ids IH]; intros w; [by destruct w|].
  cbn [_syncJobs_loop]. cbv zeta.
  pose proof (_syncJobs_body_world i w) as Hbody. cbv zeta in Hbody.
  destruct (_syncJobs_body i w) as [w1|e w1|w1]; cbn [and_then]; [|exact Hbody..].
  cbn [world_of] in Hbody. specialize (IH w1). cbv zeta in IH.
  generalize dependent (world_of (_syncJobs_loop ids w1)). intros w' IH.
  rewrite IH. rewrite Hbody at 1. by destruct w.
Qed.

Lemma settled_and_then r k :
  unplanned (world_of r) → (∀ w, unplanned w → settled (k w)) → settled (and_then r k).
Proof.
  destruct r; simpl; intros Hf Hk;
    [by apply Hk | by destruct Hf | by apply unplanned_accounted].
Qed.

Ltac unplanned_framed :=
  match goal with
  | H : unplanned ?w |- unplanned _ =>
      apply (unplanned_frame w); [reflexivity..|exact H]
  end.

Lemma unplanned__ensureDest w : unplanned w → unplanned (world_of (_ensureDest w)).
Proof.
  intros H. unfold _ensureDest. rewrite _ensureDest_loop_world. unplanned_framed.
Qed.

Lemma unplanned__getHeaders w : unplanned w → unplanned (world_of (_getHeaders w)).
Proof. intros H. rewrite _getHeaders_world. unplanned_framed. Qed.

Lemma unplanned__calcRanges w : unplanned w → unplanned (world_of (_calcRanges w)).
Proof. intros H. rewrite _calcRanges_world. unplanned_framed. Qed.

Lemma filter_split_length {A} (f : A → bool) (l : list A) :
  (length (filter (λ x, f x = true) l) + length (filter (λ x, f x = false) l)
   = length l)%nat.
Proof.
  induction l as [|a l IH]; [done|].
  rewrite !filter_cons. destruct (f a).
  - rewrite decide_True, decide_False by done. cbn [length]. lia.
  - rewrite decide_False, decide_True by done. cbn [length]. lia.
Qed.

(** After the scan of an unplanned session every planned chunk is
    counted or queued, once. *)
Lemma scanned__syncJobs w :
  unplanned w →
  match _syncJobs w with
  | Done w' =>
      idle w' ∧ NoDup (_jobs w') ∧
      (_downloadedChunks w' + length (_jobs w') = length (_ranges w'))%nat
  | Raised _ w' => idle w'
  | Pending _ => False
  end.
Proof.
  intros [Hidle (Hn & Ht & Hj)]. unfold _syncJobs. cbv zeta.
  set (w0 := w <| partsProgress := _ |>).
  pose proof (_syncJobs_loop_world (seq 0 (length (_ranges w))) w0) as Hworld.
  cbv zeta in Hworld.
  assert (idle (world_of (_syncJobs_loop (seq 0 (length (_ranges w))) w0))) as Hidle'.
  { rewrite Hworld. apply (idle_frame w); [reflexivity..|exact Hidle]. }
  clear Hworld.
  destruct (_syncJobs_loop _ w0) as [w'|e w'|w'] eqn:Hsync;
    [|exact Hidle'|by apply _syncJobs_loop_not_Pending in Hsync].
  split; [exact Hidle'|].
  apply _syncJobs_loop_Done in Hsync as [(Hr & _) (_ & Hjobs & Hdown & _)].
  change (_jobs w0) with (_jobs w) in Hjobs.
  change (_downloadedChunks w0) with (_downloadedChunks w) in Hdown.
  change (_ranges w0) with (_ranges w) in Hr.
  rewrite Hj in Hjobs. rewrite Hn in Hdown. cbn [app] in Hjobs.
  rewrite Hjobs, Hdown, Hr. split.
  - apply NoDup_filter, NoDup_seq.
  - rewrite Nat.add_0_l, filter_split_length. apply length_seq.
Qed.

Lemma accounted_announce w : accounted w → accounted (announce w).
Proof. intros H. unfold announce. destruct (0 <? _)%nat; [framed|done]. Qed.

Lemma accounted_single w :
  unplanned w →
  accounted (announce (_download 0 None
                         (w <| resumable := false |> <| parallel := false |>
                            <| partsProgress := [progress0] |>
                            <| _totalChunks := 1%nat |>))).
Proof.
  intros ((Hs & Ht & Ha & Hd & He) & Hn & Htot & Hj).
  apply accounted_announce. unfold _download.
  set (ws := w <| resumable := false |> <| parallel := false |>
               <| partsProgress := [progress0] |> <| _totalChunks := 1%nat |>).
  assert (_started ws = true ∧ tasks ws = ∅ ∧ assembly ws = None ∧ _done ws = false ∧
          ends (trace ws) = 0%nat ∧ _downloadedChunks ws = 0%nat ∧
          _totalChunks ws = 1%nat ∧ _jobs ws = [])
    as (Es & Et & Ea & Ed & Ee & En & Etot & Ej) by done.
  clearbody ws.
  apply accounted_first.
  - unfold accounted. rewrite Es, Et, Ea, Ed, Ee, En, Etot, Ej.
    split_and!; try done.
    all: try apply NoDup_nil_2.
    all: try (intros id Hid; by apply elem_of_nil in Hid).
    all: try (intros [?|?]; done).
    all: try (rewrite map_size_empty; cbn; lia).
  - unfold room. rewrite Et, En, Etot, Ej, map_size_empty. cbn. lia.
  - by rewrite Et, lookup_empty.
  - rewrite Ej. apply not_elem_of_nil.
Qed.

Lemma settled__start_try w : unplanned w → settled (_start_try w).
Proof.
  intros H. unfold _start_try.
  apply settled_and_then; [by apply unplanned__ensureDest|].
  clear w H. intros w H. destruct (savedFilePath w); [|by apply unplanned_accounted].
  destruct (negb _); [by destruct H|].
  apply settled_and_then; [by apply unplanned__getHeaders|].
  clear w H. intros w H. cbv zeta.
  destruct (_ ≫= _) as [l|].
  - destruct (_ && _).
    + apply settled_and_then; [apply unplanned__calcRanges; unplanned_framed|].
      clear w H. intros w H.
      pose proof (scanned__syncJobs w H) as Hscan.
      destruct (_syncJobs w) as [w4|e w4|w4]; cbn [and_then]; [|exact Hscan|done].
      clear w H. destruct Hscan as ((Es & Et & Ea & Ed & Ee) & Hnd & Hsum).
      cbn [settled]. apply accounted_announce.
      set (w5 := w4 <| _totalChunks := length (_ranges w4) |>).
      assert (_started w5 = true ∧ tasks w5 = ∅ ∧ assembly w5 = None ∧
              _done w5 = false ∧ ends (trace w5) = 0%nat ∧
              _jobs w5 = _jobs w4 ∧ _downloadedChunks w5 = _downloadedChunks w4 ∧
              _totalChunks w5 = length (_ranges w4))
        as (Es5 & Et5 & Ea5 & Ed5 & Ee5 & Ej5 & En5 & Etot5) by done.
      clearbody w5.
      assert (accounted w5) as H5.
      { unfold accounted. rewrite Es5, Et5, Ea5, Ed5, Ee5, Ej5, En5, Etot5.
        split_and!; try done.
        all: try (intros [?|?]; done).
        rewrite map_size_empty. lia. }
      destruct (_jobs w5) eqn:Hjobs.
      * apply accounted__buildFile; [done|done|].
        rewrite En5, Etot5, <- Hsum, <- Ej5. cbn. lia.
      * by apply accounted__processChunks_loop.
    + cbn [settled].
      apply (accounted_single (w <| size := l |>)). unplanned_framed.
  - cbn [settled]. by apply accounted_single.
Qed.

Lemma accounted_unplanned w :
  accounted w → _started w = false → unplanned (w <| _started := true |>).
Proof.
  intros (H1 & H2 & H3 & H4 & H5 & H6 & H7) Hs.
  destruct (H4 Hs) as (Htot & Ha & Hd). rewrite Hd in H6. rewrite Htot in H3.
  assert (base.size (tasks w) = 0%nat) as Hsize by lia.
  apply map_size_empty_iff in Hsize.
  assert (_jobs w = []) as Hj by (apply length_zero_iff_nil; lia).
  assert (_downloadedChunks w = 0%nat) as Hn by lia.
  by repeat split.
Qed.

(** [_start] leaves the accounts in order, or a dead session. *)
Lemma inv__start w : accounted w → dead (_start w) ∨ accounted (_start w).
Proof.
  intros H. unfold _start. destruct (_started w) eqn:Hs; [by right|]. cbv zeta.
  pose proof (accounted_unplanned w H Hs) as Hunplanned.
  destruct (_destroyed _); [right; by apply unplanned_accounted|].
  pose proof (settled__start_try _ Hunplanned) as Hgood.
  destruct (_start_try _); cbn [settled] in Hgood;
    [by right | left; by apply idle_dead | by right].
Qed.

(** A dead session does not react. *)
Lemma dead_deliver i w : dead w → deliver i w = w.
Proof.
  intros (Hs & Hd & Ht & Ha & _).
  destruct i; cbn [deliver].
  - unfold _start. by rewrite Hs.
  - unfold destroy. by rewrite Hd.
  - unfold on_ready, listening. by rewrite Ht, lookup_empty.
  - unfold on_data, listening. by rewrite Ht, lookup_empty.
  - unfold on_error. by rewrite Hd.
  - unfold on_error. by rewrite Hd.
  - unfold on_close. by rewrite Ht, lookup_empty.
  - unfold on_renamed. by rewrite Ht, lookup_empty.
  - unfold on_delay. by rewrite Ht, lookup_empty.
  - unfold on_piped. by rewrite Ha.
  - unfold on_unlinked. by rewrite Ha.
Qed.

Lemma inv_deliver i w :
  dead w ∨ accounted w → dead (deliver i w) ∨ accounted (deliver i w).
Proof.
  intros [H|H]; [left; by rewrite dead_deliver|].
  destruct i; cbn [deliver];
    [by apply inv__start | right ..];
    auto using accounted_destroy, accounted_on_ready, accounted_on_data,
      accounted_on_error, accounted_on_close, accounted_on_renamed,
      accounted_on_delay, accounted_on_piped, accounted_on_unlinked.
Qed.

Lemma inv_run inputs : ∀ w,
  dead w ∨ accounted w → dead (run inputs w) ∨ accounted (run inputs w).
Proof.
  induction inputs as [|i inputs IH]; intros w H; [done|].
  apply IH. by apply inv_deliver.
Qed.

(** A new session has empty accounts. *)
Lemma accounted_constructor url dest opts now pl ml disk0 network0 path0 :
  accounted (constructor url dest opts now pl ml disk0 network0 path0).
Proof.
  unfold accounted. cbn. split_and!; try done.
  all: try apply NoDup_nil_2.
  all: try (intros id Hid; by apply elem_of_nil in Hid).
  all: try (intros [?|?]; done).
Qed.

(** X25.  Over every execution of a session, from its construction on:
    while the output file is being assembled, and once the session is
    done, every planned chunk is counted as downloaded
    ([_downloadedChunks = _totalChunks]), no download is suspended and
    no chunk is left in the queue. *)
Theorem assembled_only_when_complete url dest opts now pl ml disk0 network0 path0 inputs :
  let w := run inputs (constructor url dest opts now pl ml disk0 network0 path0) in
  assembly w ≠ None ∨ _done w = true →
  _downloadedChunks w = _totalChunks w ∧ tasks w = ∅ ∧ _jobs w = [].
Proof.
  intros w Hbuild.
  pose proof (inv_run inputs _ (or_intror (accounted_constructor
                                             url dest opts now pl ml disk0 network0 path0)))
    as Hinv.
  change (dead w ∨ accounted w) in Hinv. clearbody w.
  destruct Hinv as [(_ & _ & _ & Ha & Hd & _) | (_ & _ & H3 & _ & H5 & _)].
  - destruct Hbuild; congruence.
  - pose proof (H5 Hbuild) as Hall. split; [exact Hall|].
    assert (base.size (tasks w) = 0%nat) as Hsize by lia.
    split; [by apply map_size_empty_iff|apply length_zero_iff_nil; lia].
Qed.

(** X25 (witness): one connection, ten bytes received and renamed; the
    assembly is piping chunk 0. *)
Lemma assembled_only_when_complete_witness :
  let w := run [tick_start; request_ready 0 200 (Scenario.ranged 10);
                request_data 0 10 1 1; request_close 0; renamed 0 None 3 3]
               (constructor Scenario.url Scenario.dest
                  (default_options <| connections := 1 |>) 0 0 0
                  {[ "/dl" := Scenario.folder ]} (Scenario.serving 10) Scenario.posix) in
  _downloadedChunks w = _totalChunks w ∧ tasks w = ∅ ∧ _jobs w = [].
Proof.
  apply (assembled_only_when_complete
           Scenario.url Scenario.dest (default_options <| connections := 1 |>) 0 0 0
           {[ "/dl" := Scenario.folder ]} (Scenario.serving 10) Scenario.posix
           [tick_start; request_ready 0 200 (Scenario.ranged 10);
            request_data 0 10 1 1; request_close 0; renamed 0 None 3 3]).
  left. vm_compute. discriminate.
Defined.

(** X26.  Over every execution of a session, from its construction on:
    [end] has been emitted at most once, it has been emitted exactly
    when [_done] is set, and a session that is done is destroyed. *)
Theorem end_at_most_once url dest opts now pl ml disk0 network0 path0 inputs :
  let w := run inputs (constructor url dest opts now pl ml disk0 network0 path0) in
  ends (trace w) = (if _done w then 1 else 0)%nat ∧
  implb (_done w) (_destroyed w) = true.
Proof.
  intros w.
  pose proof (inv_run inputs _ (or_intror (accounted_constructor
                                             url dest opts now pl ml disk0 network0 path0)))
    as Hinv.
  change (dead w ∨ accounted w) in Hinv. clearbody w.
  destruct Hinv as [(_ & _ & _ & _ & Hd & He) | (_ & _ & _ & _ & _ & H6 & H7)].
  - by rewrite Hd, He.
  - split; [exact H6|]. destruct (_done w); [|done].
    destruct H7 as [-> _]; done.
Qed.

End EasyDlFacts.
